(** * Code knowledge graph with embeddings: a shallow embedding

    The development follows the Python sources
    [src/graphcodebert_embedder.py], [src/vector_database.py] and
    [src/main.py]:

    - Python exceptions are an [outcome] type threaded through a small
      monad; a [while] loop is a fuelled fixpoint whose fuel is shown to
      suffice;
    - [networkx.DiGraph] is modelled by its contract (insertion-ordered
      node table, at most one edge per ordered pair of nodes);
    - Python dicts whose order is observable are insertion-ordered
      association lists, Python sets are [gset]s, the integer-keyed
      tables of the FAISS wrapper are [gmap]s;
    - floating point and numpy arithmetic stay behind the [Numeric]
      interface: no statement below depends on a rounding;
    - files are the values written to them: [export_embeddings]
      returns the document it dumps, [load_embeddings] takes the
      document it loads, the FAISS wrapper carries the image it saved.

    Of the two backends of [VectorDatabaseInterface] the FAISS wrapper
    is modelled; ChromaDB is a service behind the same interface. *)

From Stdlib Require Import PrimFloat Ascii.
From stdpp Require Import gmap strings list fin_maps pretty sorting.

Set Warnings "-register-all,-clear-no-such-hyp".
Local Open Scope string_scope.
Local Open Scope list_scope.
Local Open Scope Z_scope.

(** ** Outcomes of a Python call *)

(** The exception classes the modelled code can meet. *)
Inductive exn : Type :=
  | KeyError (key : string)
  | TypeError (what : string)
  | AssertionError
  | NetworkXError
  | NodeNotFound
  | NetworkXNoPath
  | ValueError (what : string)
  | AttributeError (what : string)
  | BackendError (what : string).

(** A call returns, raises, or is cut off when a loop runs out of fuel.
    [Diverge] is produced by fuelled loops only. *)
Inductive outcome (A : Type) : Type :=
  | Return (a : A)
  | Raise (e : exn)
  | Diverge.
Arguments Return {A} a.
Arguments Raise {A} e.
Arguments Diverge {A}.

Global Instance outcome_ret : MRet outcome := λ A a, Return a.
Global Instance outcome_bind : MBind outcome := λ A B k m,
  match m with
  | Return a => k a
  | Raise e => Raise e
  | Diverge => Diverge
  end.
Global Instance outcome_fmap : FMap outcome := λ A B f m,
  match m with
  | Return a => Return (f a)
  | Raise e => Raise e
  | Diverge => Diverge
  end.

Definition returns {A} (m : outcome A) : Prop := ∃ a, m = Return a.

Definition raises {A} (m : outcome A) : Prop := ∃ e, m = Raise e.

(** ** Insertion-ordered dictionaries *)

(** A Python [dict] keeps the position of a key it already holds and
    appends a new key at the end. *)
Module odict.
Section odict.
Context {K V : Type} `{EqDecision K}.

Fixpoint get (k : K) (d : list (K * V)) : option V :=
  match d with
  | [] => None
  | (k', v) :: d' => if decide (k' = k) then Some v else get k d'
  end.

Fixpoint set (k : K) (v : V) (d : list (K * V)) : list (K * V) :=
  match d with
  | [] => [(k, v)]
  | (k', v') :: d' =>
      if decide (k' = k) then (k', v) :: d' else (k', v') :: set k v d'
  end.

Definition mem (k : K) (d : list (K * V)) : bool :=
  match get k d with Some _ => true | None => false end.

Definition keys (d : list (K * V)) : list K := map fst d.

(** [d[k]]: a missing key raises [KeyError]. *)
Definition getitem (show : K → string) (k : K) (d : list (K * V)) : outcome V :=
  match get k d with
  | Some v => Return v
  | None => Raise (KeyError (show k))
  end.
End odict.
End odict.

(** ** The numeric interface (numpy, float arithmetic) *)

Class Numeric : Type := {
  float : Type;
  (** [np.dot] (a shape mismatch raises) and [np.linalg.norm] on
      one-dimensional arrays *)
  np_dot : list float → list float → outcome float;
  np_linalg_norm : list float → float;
  float_mul : float → float → float;
  float_div : float → float → float;
  float_zero : float;
  float_eqb : float → float → bool;
  float_ltb : float → float → bool;
  (** [x.astype('float32')] on one component *)
  as_float32 : float → float;
  (** [faiss.IndexFlatIP.search] on the stored rows: [k] rows of
      (score, slot), best first, slot [-1] where the index holds fewer
      than [k] vectors *)
  flat_ip_search : list (list float) → list float → Z → list (float * Z);
}.

(** ** Data model ([CodeNode], [CodeRelation]) *)

Module CodeNode.
Section CodeNode.
Context {N : Numeric}.
Record t : Type := mk {
  id : string;
  file_path : string;
  node_type : string;
  name : string;
  code : string;
  start_line : Z;
  end_line : Z;
  embedding : option (list float);
}.

Definition with_embedding (e : option (list float)) (n : t) : t :=
  mk (id n) (file_path n) (node_type n) (name n) (code n)
     (start_line n) (end_line n) e.
End CodeNode.
End CodeNode.

Module CodeRelation.
Section CodeRelation.
Context {N : Numeric}.
Record t : Type := mk {
  source_id : string;
  target_id : string;
  relation_type : string;
  confidence : float;
}.
End CodeRelation.
End CodeRelation.

(** ** [networkx.DiGraph] *)

(** The node table maps a node to its attribute dict, the edge table an
    ordered pair of nodes to the edge's attribute dict. [NA] and [EA] are
    the attribute dicts the program stores: every [add_node] and
    [add_edge] of the program passes the full set of keys, so an update
    of an existing entry replaces it. A node created by [add_edge] has
    the empty attribute dict, [None]. *)
Module DiGraph.
Section DiGraph.
Context {NA EA : Type}.

Record t : Type := mk {
  _node : list (string * option NA);
  _adj : list ((string * string) * EA);
}.

Definition empty : t := mk [] [].

(** [n in G] *)
Definition has_node (G : t) (n : string) : bool := odict.mem n (_node G).

Definition touch (n : string) (nodes : list (string * option NA)) :=
  if odict.mem n nodes then nodes else nodes ++ [(n, None)].

(** [G.add_node(n, attr...)] *)
Definition add_node (n : string) (attr : NA) (G : t) : t :=
  mk (odict.set n (Some attr) (_node G)) (_adj G).

(** [G.add_edge(u, v, attr...)]: both endpoints become nodes; a second
    edge between the same ordered pair updates the one that is there. *)
Definition add_edge (u v : string) (attr : EA) (G : t) : t :=
  mk (touch v (touch u (_node G))) (odict.set (u, v) attr (_adj G)).

Definition succ_list (G : t) (n : string) : list string :=
  map (λ e, snd (fst e)) (filter (λ e, fst (fst e) = n) (_adj G)).

Definition pred_list (G : t) (n : string) : list string :=
  map (λ e, fst (fst e)) (filter (λ e, snd (fst e) = n) (_adj G)).

(** [G.successors(n)], [G.predecessors(n)]: [NetworkXError] when [n]
    is not a node. *)
Definition successors (G : t) (n : string) : outcome (list string) :=
  if has_node G n then Return (succ_list G n) else Raise NetworkXError.

Definition predecessors (G : t) (n : string) : outcome (list string) :=
  if has_node G n then Return (pred_list G n) else Raise NetworkXError.

Definition number_of_nodes (G : t) : Z := Z.of_nat (length (_node G)).
Definition number_of_edges (G : t) : Z := Z.of_nat (length (_adj G)).

Definition get_edge_data (G : t) (u v : string) : option EA :=
  odict.get (u, v) (_adj G).

Definition has_edge (G : t) (u v : string) : Prop :=
  ∃ d, ((u, v), d) ∈ _adj G.

(** The class invariant of [DiGraph]: the endpoints of an edge are nodes. *)
Definition wf (G : t) : Prop :=
  ∀ u v d, ((u, v), d) ∈ _adj G → has_node G u = true ∧ has_node G v = true.

(** [walk G k u v]: [k] edges lead from [u] to [v]. *)
Inductive walk (G : t) : nat → string → string → Prop :=
  | walk_O u : walk G 0 u u
  | walk_S k u m v : walk G k u m → has_edge G m v → walk G (S k) u v.

(** [distance G u v d]: the shortest walk from [u] to [v] has [d] edges. *)
Definition distance (G : t) (u v : string) (d : nat) : Prop :=
  walk G d u v ∧ ∀ k, walk G k u v → (d ≤ k)%nat.
End DiGraph.
Arguments t : clear implicits.
End DiGraph.

(** ** Python values and JSON documents *)

Definition ndarray_error : exn :=
  TypeError "Object of type ndarray is not JSON serializable".

Section Values.
Context {N : Numeric}.

(** What [dataclasses.asdict] and the dict displays of the program
    build: JSON-like values, and numpy arrays. *)
Inductive pyval : Type :=
  | PyNone
  | PyInt (z : Z)
  | PyFloat (x : float)
  | PyStr (s : string)
  | PyList (l : list pyval)
  | PyDict (d : list (string * pyval))
  | PyNdarray (a : list float).

(** What [json.load] returns. A [JDict] holds one value per key. *)
Inductive json : Type :=
  | JNull
  | JInt (z : Z)
  | JFloat (x : float)
  | JStr (s : string)
  | JList (l : list json)
  | JDict (d : list (string * json)).

(** [json.dump]: the default encoder raises [TypeError] on an object
    that is not a dict, list, str, int, float or None. *)
Fixpoint json_dump (v : pyval) : outcome json :=
  match v with
  | PyNone => Return JNull
  | PyInt z => Return (JInt z)
  | PyFloat x => Return (JFloat x)
  | PyStr s => Return (JStr s)
  | PyList l =>
      (fix go (l : list pyval) : outcome (list json) :=
         match l with
         | [] => Return []
         | v :: l' => j ← json_dump v; js ← go l'; Return (j :: js)
         end) l ≫= λ js, Return (JList js)
  | PyDict d =>
      (fix go (d : list (string * pyval)) : outcome (list (string * json)) :=
         match d with
         | [] => Return []
         | (k, v) :: d' => j ← json_dump v; js ← go d'; Return ((k, j) :: js)
         end) d ≫= λ js, Return (JDict js)
  | PyNdarray _ => Raise ndarray_error
  end.

(** [data[key]] on a loaded document *)
Definition json_getitem (key : string) (data : json) : outcome json :=
  match data with
  | JDict d => odict.getitem (λ k, k) key d
  | _ => Raise (TypeError "indices must be integers")
  end.

(** [data.items()] *)
Definition json_items (data : json) : outcome (list (string * json)) :=
  match data with
  | JDict d => Return d
  | _ => Raise (AttributeError "items")
  end.

(** Truth value of a loaded value, as [if v] tests it. *)
Definition json_truthy (v : json) : bool :=
  match v with
  | JNull => false
  | JInt z => negb (z =? 0)
  | JFloat x => negb (float_eqb x float_zero)
  | JStr s => negb (String.eqb s "")
  | JList l => match l with [] => false | _ => true end
  | JDict d => match d with [] => false | _ => true end
  end.

(** A loaded value read at the type a dataclass field is annotated
    with. The dataclass constructors check no annotation and
    [np.array] takes any value: Python stores a number given for
    [name] as it is. The records of this development hold values of
    the annotated types only, so a document with another value in a
    field is outside of what they describe. The readers say so with
    [None]; they never turn such a value into an exception. *)
Definition as_str (v : json) : option string :=
  match v with JStr s => Some s | _ => None end.
Definition as_int (v : json) : option Z :=
  match v with JInt z => Some z | _ => None end.
Definition as_float (v : json) : option float :=
  match v with JFloat x => Some x | _ => None end.

Fixpoint mapM {A B} (f : A → outcome B) (l : list A) : outcome (list B) :=
  match l with
  | [] => Return []
  | a :: l' => b ← f a; bs ← mapM f l'; Return (b :: bs)
  end.

Fixpoint as_floats (l : list json) : option (list float) :=
  match l with
  | [] => Some []
  | v :: l' => x ← as_float v; xs ← as_floats l'; Some (x :: xs)
  end.

(** [np.array(v)] for a list of floats, the shape [tolist] writes;
    [None] for any other value, of which [np.array] makes an array
    of another kind. *)
Definition np_array (v : json) : option (list float) :=
  match v with
  | JList l => as_floats l
  | _ => None
  end.
End Values.

(** ** Python string methods *)

(** A [str] is the list of its characters. [isspace] is Python's
    table for the code points below 256. *)
Module pystr.
Definition isspace (c : ascii) : bool :=
  let n := Ascii.N_of_ascii c in
  ((9 <=? n) && (n <=? 13) || (28 <=? n) && (n <=? 32) || (n =? 133) || (n =? 160))%N.

Definition newline : ascii := Ascii.ascii_of_N 10.

Fixpoint lstrip (s : list ascii) : list ascii :=
  match s with
  | [] => []
  | c :: s' => if isspace c then lstrip s' else s
  end.

Definition rstrip (s : list ascii) : list ascii := reverse (lstrip (reverse s)).

(** [s.strip()] *)
Definition strip (s : list ascii) : list ascii := rstrip (lstrip s).

(** [s.split(sep)] for a separator of one character: one more piece
    than there are separators. *)
Fixpoint split (sep : ascii) (s : list ascii) : list (list ascii) :=
  match s with
  | [] => [[]]
  | c :: s' =>
      if decide (c = sep) then [] :: split sep s'
      else match split sep s' with
           | piece :: pieces => (c :: piece) :: pieces
           | [] => [[c]]
           end
  end.

(** [sep.join(pieces)] *)
Fixpoint join (sep : list ascii) (pieces : list (list ascii)) : list ascii :=
  match pieces with
  | [] => []
  | [piece] => piece
  | piece :: pieces' => piece ++ sep ++ join sep pieces'
  end.

(** [s.count(c)] for one character *)
Definition count (c : ascii) (s : list ascii) : Z :=
  Z.of_nat (length (filter (λ x, x = c) s)).

(** The class [\w] of [re] on a [str]: alphanumeric or underscore;
    the table for the code points below 256. *)
Definition isword (c : ascii) : bool :=
  let n := Ascii.N_of_ascii c in
  ((48 <=? n) && (n <=? 57) || (65 <=? n) && (n <=? 90) || (n =? 95)
   || (97 <=? n) && (n <=? 122)
   || (n =? 170) || (n =? 178) || (n =? 179) || (n =? 181) || (n =? 185) || (n =? 186)
   || (188 <=? n) && (n <=? 190) || (192 <=? n) && (n <=? 214)
   || (216 <=? n) && (n <=? 246) || (248 <=? n))%N.

(** The longest prefix of characters in a class, and the rest: what
    a greedy [+] or [*] on the class takes. *)
Fixpoint span (p : ascii → bool) (s : list ascii) : list ascii * list ascii :=
  match s with
  | c :: s' => if p c then let '(a, b) := span p s' in (c :: a, b) else ([], s)
  | [] => ([], [])
  end.

Definition chars (s : string) : list ascii := String.list_ascii_of_string s.
Definition str (l : list ascii) : string := String.string_of_list_ascii l.
End pystr.

(** ** [GraphCodeBERTEmbedder] *)

Module GraphCodeBERTEmbedder.
Section Embedder.
Context {N : Numeric}.

(** The model call [encode_code]: text to vector, which can fail. *)
Variable encode_code : string → outcome (list float).

(** The attributes [add_edge] stores: [relation_type], [confidence]. *)
Definition edge_attr : Type := string * float.

Record t : Type := mk {
  code_nodes : list (string * CodeNode.t);
  code_relations : list CodeRelation.t;
  call_graph : DiGraph.t CodeNode.t edge_attr;
}.

Definition init : t := mk [] [] DiGraph.empty.

(** A method that mutates [self]: the state is kept when it raises. *)
Definition method (A : Type) : Type := t → outcome A * t.

Definition add_code_node (node : CodeNode.t) : method unit := λ self,
  match encode_code (CodeNode.code node) with
  | Return e =>
      let node := CodeNode.with_embedding (Some e) node in
      (Return (),
       mk (odict.set (CodeNode.id node) node (code_nodes self))
          (code_relations self)
          (DiGraph.add_node (CodeNode.id node) node (call_graph self)))
  | Raise e => (Raise e, self)
  | Diverge => (Diverge, self)
  end.

Definition add_code_relation (relation : CodeRelation.t) : method unit := λ self,
  (Return (),
   mk (code_nodes self)
      (code_relations self ++ [relation])
      (DiGraph.add_edge (CodeRelation.source_id relation)
         (CodeRelation.target_id relation)
         (CodeRelation.relation_type relation, CodeRelation.confidence relation)
         (call_graph self))).

Definition _cosine_similarity (vec1 vec2 : list float) : outcome float :=
  dot_product ← np_dot vec1 vec2;
  let norm1 := np_linalg_norm vec1 in
  let norm2 := np_linalg_norm vec2 in
  if float_eqb norm1 float_zero || float_eqb norm2 float_zero
  then Return float_zero
  else Return (float_div dot_product (float_mul norm1 norm2)).

(** [l.sort(key=..., reverse=True)]: a stable sort, larger keys
    first; an element passes the ones before it whose key is smaller. *)
Fixpoint insert_desc {A} (key : A → float) (x : A) (l : list A) : list A :=
  match l with
  | [] => [x]
  | y :: l' =>
      if float_ltb (key y) (key x) then x :: y :: l'
      else y :: insert_desc key x l'
  end.

Definition sort_desc {A} (key : A → float) (l : list A) : list A :=
  fold_left (λ acc x, insert_desc key x acc) l [].

(** [l[:k]]; a negative [k] counts from the end. *)
Definition slice_to {A} (k : Z) (l : list A) : list A :=
  if 0 <=? k then take (Z.to_nat k) l
  else take (Z.to_nat (Z.of_nat (length l) + k)) l.

Fixpoint similarities_of (query_embedding : list float)
    (items : list (string * CodeNode.t)) : outcome (list (string * float)) :=
  match items with
  | [] => Return []
  | (node_id, node) :: items' =>
      match CodeNode.embedding node with
      | Some e =>
          similarity ← _cosine_similarity query_embedding e;
          rest ← similarities_of query_embedding items';
          Return ((node_id, similarity) :: rest)
      | None => similarities_of query_embedding items'
      end
  end.

Definition get_similar_nodes (self : t) (query_code : string) (top_k : Z)
    : outcome (list (string * float)) :=
  query_embedding ← encode_code query_code;
  similarities ← similarities_of query_embedding (code_nodes self);
  Return (slice_to top_k (sort_desc snd similarities)).

(** The [while queue:] loop shared, up to the neighbour function, by
    [get_upstream_dependencies] and [get_downstream_dependencies].
    [acc] is the set [upstream] (resp. [downstream]). *)
Fixpoint dependency_loop (fuel : nat) (neighbours : string → outcome (list string))
    (max_depth : Z) (queue : list (string * Z)) (visited acc : gset string)
    : outcome (gset string) :=
  match fuel with
  | O => Diverge
  | S fuel' =>
      match queue with
      | [] => Return acc
      | (current, depth) :: queue' =>
          if bool_decide (current ∈ visited) || (max_depth <=? depth)
          then dependency_loop fuel' neighbours max_depth queue' visited acc
          else
            let visited' := visited ∪ {[current]} in
            match neighbours current with
            | Return ns =>
                dependency_loop fuel' neighbours max_depth
                  (queue' ++ map (λ n, (n, depth + 1))
                                 (filter (λ n, n ∉ visited') ns))
                  visited' (acc ∪ list_to_set ns)
            | Raise e => Raise e
            | Diverge => Diverge
            end
      end
  end.

(** Iterations granted to the loops over a graph. *)
Definition traversal_fuel {NA EA} (G : DiGraph.t NA EA) : nat :=
  S (S (length (DiGraph._node G)) * S (length (DiGraph._adj G))).

(** The result is the Python set [upstream]; the list the method
    returns enumerates it in an unspecified order. *)
Definition get_upstream_dependencies (self : t) (node_id : string) (max_depth : Z)
    : outcome (gset string) :=
  if negb (DiGraph.has_node (call_graph self) node_id) then Return ∅
  else dependency_loop (traversal_fuel (call_graph self))
         (DiGraph.predecessors (call_graph self)) max_depth [(node_id, 0)] ∅ ∅.

Definition get_downstream_dependencies (self : t) (node_id : string) (max_depth : Z)
    : outcome (gset string) :=
  if negb (DiGraph.has_node (call_graph self) node_id) then Return ∅
  else dependency_loop (traversal_fuel (call_graph self))
         (DiGraph.successors (call_graph self)) max_depth [(node_id, 0)] ∅ ∅.

(** [nx.shortest_path(G, source, target)]: [NodeNotFound] when an
    endpoint is not a node, [NetworkXNoPath] when the target is out of
    reach. Of several shortest paths the model returns the one a
    forward breadth-first search meets first; the loop is bounded like
    the traversal loop. *)
Fixpoint path_loop (fuel : nat) (G : DiGraph.t CodeNode.t edge_attr) (target : string)
    (queue : list (list string)) (visited : gset string) : outcome (list string) :=
  match fuel with
  | O => Diverge
  | S fuel' =>
      match queue with
      | [] => Raise NetworkXNoPath
      | [] :: queue' => path_loop fuel' G target queue' visited
      | (current :: back) :: queue' =>
          if bool_decide (current = target) then Return (reverse (current :: back))
          else if bool_decide (current ∈ visited)
          then path_loop fuel' G target queue' visited
          else path_loop fuel' G target
                 (queue' ++ map (λ n, n :: current :: back) (DiGraph.succ_list G current))
                 (visited ∪ {[current]})
      end
  end.

Definition nx_shortest_path (G : DiGraph.t CodeNode.t edge_attr) (source target : string)
    : outcome (list string) :=
  if negb (DiGraph.has_node G source) || negb (DiGraph.has_node G target)
  then Raise NodeNotFound
  else path_loop (traversal_fuel G) G target [[source]] ∅.

Definition get_call_path (self : t) (source_id target_id : string)
    : outcome (list string) :=
  match nx_shortest_path (call_graph self) source_id target_id with
  | Raise NetworkXNoPath => Return []
  | r => r
  end.

Record impact : Type := mk_impact {
  upstream : gset string;
  downstream : gset string;
  direct_callers : list string;
  direct_callees : list string;
}.

Definition analyze_impact (self : t) (node_id : string) : outcome impact :=
  up ← get_upstream_dependencies self node_id 3;
  down ← get_downstream_dependencies self node_id 3;
  callers ← DiGraph.predecessors (call_graph self) node_id;
  callees ← DiGraph.successors (call_graph self) node_id;
  Return (mk_impact up down callers callees).

(** [dataclasses.asdict]: the fields by name; the array of
    [embedding] is copied as it is, an [ndarray]. *)
Definition asdict_node (node : CodeNode.t) : pyval :=
  PyDict [("id", PyStr (CodeNode.id node));
          ("file_path", PyStr (CodeNode.file_path node));
          ("node_type", PyStr (CodeNode.node_type node));
          ("name", PyStr (CodeNode.name node));
          ("code", PyStr (CodeNode.code node));
          ("start_line", PyInt (CodeNode.start_line node));
          ("end_line", PyInt (CodeNode.end_line node));
          ("embedding", match CodeNode.embedding node with
                        | Some a => PyNdarray a
                        | None => PyNone
                        end)].

Definition asdict_relation (rel : CodeRelation.t) : pyval :=
  PyDict [("source_id", PyStr (CodeRelation.source_id rel));
          ("target_id", PyStr (CodeRelation.target_id rel));
          ("relation_type", PyStr (CodeRelation.relation_type rel));
          ("confidence", PyFloat (CodeRelation.confidence rel))].

(** [a.tolist()] *)
Definition tolist (a : list float) : pyval := PyList (map PyFloat a).

(** One entry of the dict comprehension over [code_nodes.items()]. *)
Definition node_entry (item : string * CodeNode.t) : string * pyval :=
  (item.1,
   PyDict [("metadata", asdict_node item.2);
           ("embedding", match CodeNode.embedding item.2 with
                         | Some a => tolist a
                         | None => PyNone
                         end)]).

(** The dict [data] that [export_embeddings] builds. *)
Definition export_data (self : t) : pyval :=
  PyDict [("nodes", PyDict (map node_entry (code_nodes self)));
          ("relations", PyList (map asdict_relation (code_relations self)))].

(** [export_embeddings]: the outcome is the document [json.dump]
    writes to [output_path]. *)
Definition export_embeddings (self : t) : outcome json :=
  json_dump (export_data self).

Definition node_fields : list string :=
  ["id"; "file_path"; "node_type"; "name"; "code"; "start_line"; "end_line";
   "embedding"].

Definition kwarg (field : string) (kwargs : list (string * json)) : outcome json :=
  match odict.get field kwargs with
  | Some v => Return v
  | None => Raise (TypeError "missing required argument")
  end.

Definition check_kwargs (fields : list string) (kwargs : list (string * json))
    : outcome unit :=
  if forallb (λ k, bool_decide (k ∈ fields)) (odict.keys kwargs) then Return ()
  else Raise (TypeError "unexpected keyword argument").

(** The outcome of a call, with what it returns read at the types
    of the records: [None] when the call returns a value they do not
    hold. *)
Definition typed {A B} (m : outcome A) (read : A → option B) : option (outcome B) :=
  match m with
  | Return a => Return <$> read a
  | Raise e => Some (Raise e)
  | Diverge => Some Diverge
  end.

(** The constructor call on the unpacked [metadata]: every key must
    be a field and every field without a default must be given, or
    the call raises [TypeError]; the values are stored unchecked. The
    value passed for [embedding] is not kept here: the only caller
    assigns [node.embedding] right after the call. The result is
    [None] when the object built holds, in some field, a value of
    another type than the annotation. *)
Definition CodeNode_of_kwargs (metadata : json) : option (outcome CodeNode.t) :=
  match metadata with
  | JDict kw =>
      typed
        (_ ← check_kwargs node_fields kw;
         id ← kwarg "id" kw;
         file_path ← kwarg "file_path" kw;
         node_type ← kwarg "node_type" kw;
         name ← kwarg "name" kw;
         code ← kwarg "code" kw;
         start_line ← kwarg "start_line" kw;
         end_line ← kwarg "end_line" kw;
         Return (id, file_path, node_type, name, code, start_line, end_line))
        (λ '(id, file_path, node_type, name, code, start_line, end_line),
           id ← as_str id;
           file_path ← as_str file_path;
           node_type ← as_str node_type;
           name ← as_str name;
           code ← as_str code;
           start_line ← as_int start_line;
           end_line ← as_int end_line;
           Some (CodeNode.mk id file_path node_type name code start_line end_line
                   None))
  | _ => Some (Raise (TypeError "argument after ** must be a mapping"))
  end.

Definition relation_fields : list string :=
  ["source_id"; "target_id"; "relation_type"; "confidence"].

Definition CodeRelation_of_kwargs (rel_data : json) : option (outcome CodeRelation.t) :=
  match rel_data with
  | JDict kw =>
      typed
        (_ ← check_kwargs relation_fields kw;
         source_id ← kwarg "source_id" kw;
         target_id ← kwarg "target_id" kw;
         relation_type ← kwarg "relation_type" kw;
         confidence ← kwarg "confidence" kw;
         Return (source_id, target_id, relation_type, confidence))
        (λ '(source_id, target_id, relation_type, confidence),
           source_id ← as_str source_id;
           target_id ← as_str target_id;
           relation_type ← as_str relation_type;
           confidence ← as_float confidence;
           Some (CodeRelation.mk source_id target_id relation_type confidence))
  | _ => Some (Raise (TypeError "argument after ** must be a mapping"))
  end.

(** The body of the first [for] loop of [load_embeddings], up to the
    store: what it computes from one entry of [data['nodes']]. The
    two subscripts raise [KeyError] on a record without the key;
    [None] when the array or the node built is not one of the typed
    records. *)
Definition load_node (node_data : json) : option (outcome CodeNode.t) :=
  match json_getitem "metadata" node_data with
  | Return metadata =>
      match json_getitem "embedding" node_data with
      | Return e =>
          match (if json_truthy e then Some <$> np_array e else Some None) with
          | Some embedding =>
              match CodeNode_of_kwargs metadata with
              | Some (Return node) =>
                  Some (Return (CodeNode.with_embedding embedding node))
              | r => r
              end
          | None => None
          end
      | Raise e => Some (Raise e)
      | Diverge => Some Diverge
      end
  | Raise e => Some (Raise e)
  | Diverge => Some Diverge
  end.

(** The first loop: an exception leaves the loop with the store as
    the records before have made it. *)
Fixpoint load_nodes (items : list (string * json)) (self : t)
    : option (outcome unit * t) :=
  match items with
  | [] => Some (Return (), self)
  | (node_id, node_data) :: items' =>
      match load_node node_data with
      | Some (Return node) =>
          load_nodes items'
            (mk (odict.set node_id node (code_nodes self))
                (code_relations self)
                (DiGraph.add_node node_id node (call_graph self)))
      | Some (Raise e) => Some (Raise e, self)
      | Some Diverge => Some (Diverge, self)
      | None => None
      end
  end.

(** The second loop. *)
Fixpoint load_relations (rels : list json) (self : t) : option (outcome unit * t) :=
  match rels with
  | [] => Some (Return (), self)
  | rel_data :: rels' =>
      match CodeRelation_of_kwargs rel_data with
      | Some (Return relation) =>
          load_relations rels' (snd (add_code_relation relation self))
      | Some (Raise e) => Some (Raise e, self)
      | Some Diverge => Some (Diverge, self)
      | None => None
      end
  end.

(** [for x in v] over a loaded value: a list yields its elements, a
    dict its keys, a string its characters; nothing else is iterable. *)
Definition json_iter (v : json) : outcome (list json) :=
  match v with
  | JList l => Return l
  | JDict d => Return (map (λ kv, JStr kv.1) d)
  | JStr s => Return (map (λ c, JStr (String c EmptyString)) (String.list_ascii_of_string s))
  | _ => Raise (TypeError "object is not iterable")
  end.

(** [load_embeddings], from the document [json.load] returns: the
    outcome and the store it leaves, or [None] for a document that
    makes it store a value the typed records do not hold. *)
Definition load_embeddings (data : json) (self : t) : option (outcome unit * t) :=
  match json_getitem "nodes" data ≫= json_items with
  | Return items =>
      match load_nodes items self with
      | Some (Return _, self1) =>
          match json_getitem "relations" data ≫= json_iter with
          | Return rels => load_relations rels self1
          | Raise e => Some (Raise e, self1)
          | Diverge => Some (Diverge, self1)
          end
      | r => r
      end
  | Raise e => Some (Raise e, self)
  | Diverge => Some (Diverge, self)
  end.

(** Connected components, as [get_statistics] counts them: the nodes
    within reach of a set, by saturation. *)
Fixpoint saturate (fuel : nat) (neighbours : string → list string) (R : gset string)
    : gset string :=
  match fuel with
  | O => R
  | S fuel' =>
      saturate fuel' neighbours
        (R ∪ list_to_set (concat (map neighbours (elements R))))
  end.

Definition reach (G : DiGraph.t CodeNode.t edge_attr)
    (neighbours : string → list string) (n : string) : gset string :=
  saturate (length (DiGraph._node G)) neighbours {[n]}.

(** The number of nodes that are first, in node order, of their class. *)
Fixpoint count_classes (same : string → string → bool) (seen nodes : list string) : Z :=
  match nodes with
  | [] => 0
  | n :: nodes' =>
      (if existsb (same n) seen then 0 else 1)
      + count_classes same (seen ++ [n]) nodes'
  end.

Definition number_strongly_connected_components
    (G : DiGraph.t CodeNode.t edge_attr) : Z :=
  let r := reach G (DiGraph.succ_list G) in
  count_classes (λ n m, bool_decide (m ∈ r n) && bool_decide (n ∈ r m))
    [] (odict.keys (DiGraph._node G)).

Definition number_weakly_connected_components
    (G : DiGraph.t CodeNode.t edge_attr) : Z :=
  let r := reach G (λ n, DiGraph.succ_list G n ++ DiGraph.pred_list G n) in
  count_classes (λ n m, bool_decide (m ∈ r n)) [] (odict.keys (DiGraph._node G)).

Record statistics : Type := mk_statistics {
  total_nodes : Z;
  total_relations : Z;
  total_edges : Z;
  strongly_connected_components : Z;
  weakly_connected_components : Z;
}.

Definition get_statistics (self : t) : statistics :=
  mk_statistics
    (Z.of_nat (length (code_nodes self)))
    (Z.of_nat (length (code_relations self)))
    (DiGraph.number_of_edges (call_graph self))
    (number_strongly_connected_components (call_graph self))
    (number_weakly_connected_components (call_graph self)).
End Embedder.
Arguments t : clear implicits.
Arguments t {N}.
Arguments init {N}.
Arguments method {N} A.

Section Encoder.
Context {N : Numeric}.

(** [_preprocess_code] on the characters of [code]: the lines of the
    stripped text, each stripped, the empty ones dropped, joined by one
    space. *)
Definition preprocess_chars (code : list ascii) : list ascii :=
  let lines := pystr.split pystr.newline (pystr.strip code) in
  let cleaned_lines := filter (λ line, line ≠ []) (map pystr.strip lines) in
  pystr.join [" "%char] cleaned_lines.

Definition _preprocess_code (code : string) : string :=
  String.string_of_list_ascii (preprocess_chars (String.list_ascii_of_string code)).

(** The tokenizer followed by the model and the selection of the
    first hidden state: on one text, and on a batch of texts (one row
    per text). Both can fail. *)
Variable embed : string → outcome (list float).
Variable embed_batch : list string → outcome (list (list float)).

Definition encode_code (code : string) : outcome (list float) :=
  embed (_preprocess_code code).

(** [range(0, n, step)] for [n >= 0] *)
Definition range_from_0 (n step : Z) : outcome (list Z) :=
  if step =? 0 then Raise (ValueError "range() arg 3 must not be zero")
  else if step <? 0 then Return []
  else Return (map (λ j : nat, Z.of_nat j * step)
                 (seq 0 (Z.to_nat ((n + step - 1) `div` step)))).

(** [l[i:j]] for [0 <= i <= j] *)
Definition slice {A} (i j : Z) (l : list A) : list A :=
  take (Z.to_nat (j - i)) (drop (Z.to_nat i) l).

(** [np.array(rows)] for a list of one-dimensional arrays *)
Definition np_array_rows (rows : list (list float)) : outcome (list (list float)) :=
  match rows with
  | [] => Return []
  | r :: rest =>
      if forallb (λ r', bool_decide (length r' = length r)) rest then Return rows
      else Raise (ValueError "inhomogeneous shape")
  end.

(** The [for i in range(0, len(codes), batch_size)] loop. *)
Fixpoint batch_loop (starts : list Z) (codes : list string) (batch_size : Z)
    (embeddings : list (list float)) : outcome (list (list float)) :=
  match starts with
  | [] => Return embeddings
  | i :: starts' =>
      let batch_codes := slice i (i + batch_size) codes in
      let processed_codes := map _preprocess_code batch_codes in
      batch_embeddings ← embed_batch processed_codes;
      batch_loop starts' codes batch_size (embeddings ++ batch_embeddings)
  end.

Definition encode_code_batch (codes : list string) (batch_size : Z)
    : outcome (list (list float)) :=
  starts ← range_from_0 (Z.of_nat (length codes)) batch_size;
  embeddings ← batch_loop starts codes batch_size [];
  np_array_rows embeddings.
End Encoder.
End GraphCodeBERTEmbedder.

(** ** The vector database interface and its FAISS implementation *)

Class VectorDatabaseInterface {N : Numeric} (S : Type) : Type := {
  add_embeddings : list CodeNode.t → S → outcome unit * S;
  search : S → list float → Z → outcome (list (string * float));
  get_node : S → string → option CodeNode.t;
  update_node : CodeNode.t → S → outcome unit * S;
  delete_node : string → S → outcome unit * S;
  get_all_nodes : S → list CodeNode.t;
}.

Module FAISSInterface.
Section FAISS.
Context {N : Numeric}.

(** [faiss.IndexFlatIP]: the dimension and the rows added so far;
    [ntotal] is their number. The library offers no removal here. *)
Record IndexFlatIP : Type := mk_index {
  d : Z;
  xb : list (list float);
}.

Definition ntotal (index : IndexFlatIP) : Z := Z.of_nat (length (xb index)).

(** [index.add(x)] asserts the row width. *)
Definition index_add (x : list (list float)) (index : IndexFlatIP)
    : outcome IndexFlatIP :=
  if forallb (λ row, Z.of_nat (length row) =? d index) x
  then Return (mk_index (d index) (xb index ++ x))
  else Raise AssertionError.

(** [index.search(x, k)] for one query row asserts its width and [k > 0]. *)
Definition index_search (index : IndexFlatIP) (q : list float) (k : Z)
    : outcome (list (float * Z)) :=
  if negb (Z.of_nat (length q) =? d index) then Raise AssertionError
  else if negb (0 <? k) then Raise AssertionError
  else Return (flat_ip_search (xb index) q k).

(** [np.array(rows).astype('float32')] for a list of vectors: the
    rows must have one length. *)
Definition np_array_float32 (rows : list (list float)) : outcome (list (list float)) :=
  match rows with
  | [] => Return []
  | r :: rest =>
      if forallb (λ r', bool_decide (length r' = length r)) rest
      then Return (map (map as_float32) rows)
      else Raise (ValueError "inhomogeneous shape")
  end.

(** What [_save_index] writes to [index_file] and [metadata_file]. *)
Record image : Type := mk_image {
  saved_index : IndexFlatIP;
  saved_node_metadata : gmap Z CodeNode.t;
  saved_id_to_index : gmap string Z;
  saved_index_to_id : gmap Z string;
  saved_next_index : Z;
}.

Record t : Type := mk {
  dimension : Z;
  index : IndexFlatIP;
  node_metadata : gmap Z CodeNode.t;
  id_to_index : gmap string Z;
  index_to_id : gmap Z string;
  next_index : Z;
  disk : option image;
}.

(** A new instance over no saved files. *)
Definition init (dimension : Z) : t :=
  mk dimension (mk_index dimension []) ∅ ∅ ∅ 0 None.

Definition _save_index (self : t) : t :=
  mk (dimension self) (index self) (node_metadata self) (id_to_index self)
     (index_to_id self) (next_index self)
     (Some (mk_image (index self) (node_metadata self) (id_to_index self)
              (index_to_id self) (next_index self))).

(** One turn of the loop [for node in valid_nodes]. *)
Definition register (self : t) (node : CodeNode.t) : t :=
  let index_ := next_index self in
  mk (dimension self) (index self)
     (<[index_ := node]> (node_metadata self))
     (<[CodeNode.id node := index_]> (id_to_index self))
     (<[index_ := CodeNode.id node]> (index_to_id self))
     (next_index self + 1)
     (disk self).

Definition set_index (index' : IndexFlatIP) (self : t) : t :=
  mk (dimension self) index' (node_metadata self) (id_to_index self)
     (index_to_id self) (next_index self) (disk self).

Definition add_embeddings (nodes : list CodeNode.t) (self : t) : outcome unit * t :=
  let valid_nodes :=
    filter (λ node, is_Some (CodeNode.embedding node)) nodes in
  let embeddings := omap CodeNode.embedding nodes in
  match embeddings with
  | [] => (Return (), self)
  | _ =>
      match np_array_float32 embeddings ≫= λ a, index_add a (index self) with
      | Return index' =>
          (Return (), _save_index (fold_left register valid_nodes (set_index index' self)))
      | Raise e => (Raise e, self)
      | Diverge => (Diverge, self)
      end
  end.

Definition search (self : t) (query_embedding : list float) (top_k : Z)
    : outcome (list (string * float)) :=
  rows ← index_search (index self) (map as_float32 query_embedding) top_k;
  Return (omap (M := list) (λ row : float * Z,
                  (λ node_id : string, (node_id, fst row)) <$> index_to_id self !! snd row)
            rows).

Definition get_node (self : t) (node_id : string) : option CodeNode.t :=
  match id_to_index self !! node_id with
  | Some index_ => node_metadata self !! index_
  | None => None
  end.

Definition update_node (node : CodeNode.t) (self : t) : outcome unit * t :=
  match id_to_index self !! CodeNode.id node with
  | Some index_ =>
      (Return (),
       _save_index
         (mk (dimension self) (index self)
             (<[index_ := node]> (node_metadata self))
             (id_to_index self) (index_to_id self) (next_index self) (disk self)))
  | None => (Return (), self)
  end.

(** [del d[k]] raises [KeyError] on a missing key; what was deleted
    before stays deleted. *)
Definition delete_node (node_id : string) (self : t) : outcome unit * t :=
  match id_to_index self !! node_id with
  | Some index_ =>
      match node_metadata self !! index_ with
      | None => (Raise (KeyError (pretty index_)), self)
      | Some _ =>
          let self2 :=
            mk (dimension self) (index self)
               (delete index_ (node_metadata self))
               (delete node_id (id_to_index self))
               (index_to_id self) (next_index self) (disk self) in
          match index_to_id self !! index_ with
          | None => (Raise (KeyError (pretty index_)), self2)
          | Some _ =>
              (Return (),
               mk (dimension self) (index self)
                  (node_metadata self2) (id_to_index self2)
                  (delete index_ (index_to_id self)) (next_index self) (disk self))
          end
      end
  | None => (Return (), self)
  end.

(** The values of [node_metadata], in an order the model does not fix. *)
Definition get_all_nodes (self : t) : list CodeNode.t :=
  snd <$> map_to_list (node_metadata self).

(** The slot count the index tracks. *)
Definition slots (self : t) : Z := ntotal (index self).

(** The calls that can change an instance, and the state a call leaves. *)
Inductive operation : Type :=
  | AddEmbeddings (nodes : list CodeNode.t)
  | UpdateNode (node : CodeNode.t)
  | DeleteNode (node_id : string).

Definition run (op : operation) (self : t) : t :=
  match op with
  | AddEmbeddings nodes => (add_embeddings nodes self).2
  | UpdateNode node => (update_node node self).2
  | DeleteNode node_id => (delete_node node_id self).2
  end.

(** [add_embeddings([node])] followed by [delete_node(node.id)]. *)
Definition upsert_remove (node : CodeNode.t) (self : t) : t :=
  (delete_node (CodeNode.id node) (add_embeddings [node] self).2).2.

(** One saved record read back by [_load_index]: an [embedding] that
    is the empty list, like a missing one, is read as [None]. *)
Definition loaded_node (v : CodeNode.t) : CodeNode.t :=
  CodeNode.with_embedding
    (match CodeNode.embedding v with
     | Some [] => None
     | embedding => embedding
     end) v.

(** [_load_index]: when the files are there, the index read replaces
    the one [__init__] made, every saved record is filed under its
    slot, and the two id tables and [next_index] are replaced. *)
Definition _load_index (self : t) : t :=
  match disk self with
  | None => self
  | Some files =>
      mk (dimension self) (saved_index files)
         ((loaded_node <$> saved_node_metadata files) ∪ node_metadata self)
         (saved_id_to_index files) (saved_index_to_id files)
         (saved_next_index files) (disk self)
  end.

(** [FAISSInterface(dimension, index_file, metadata_file)] over the
    files [files]. *)
Definition __init__ (dimension : Z) (files : option image) : t :=
  _load_index (mk dimension (mk_index dimension []) ∅ ∅ ∅ 0 files).

End FAISS.
End FAISSInterface.

Global Instance faiss_backend {N : Numeric}
    : VectorDatabaseInterface FAISSInterface.t := {|
  add_embeddings := FAISSInterface.add_embeddings;
  search := FAISSInterface.search;
  get_node := FAISSInterface.get_node;
  update_node := FAISSInterface.update_node;
  delete_node := FAISSInterface.delete_node;
  get_all_nodes := FAISSInterface.get_all_nodes;
|}.

(** ** [JavaCodeEmbeddingSystem] *)

Module JavaCodeEmbeddingSystem.
Section System.
Context {N : Numeric} {S : Type} {DB : VectorDatabaseInterface S}.
Variable encode_code : string → outcome (list float).

Record t : Type := mk {
  embedder : GraphCodeBERTEmbedder.t;
  vector_db : S;
}.

(** One entry of the list [search_similar_code] returns. *)
Record hit : Type := mk_hit {
  node_id : string;
  similarity : float;
  node_type : string;
  name : string;
  file_path : string;
  code : string;
}.

(** The merge loop: an instance of a dataclass is always true. *)
Definition hydrate (self : t) (embedder_results : list (string * float)) : list hit :=
  omap (λ '(node_id, similarity),
          (λ node, mk_hit node_id similarity (CodeNode.node_type node)
                     (CodeNode.name node) (CodeNode.file_path node)
                     (CodeNode.code node))
          <$> odict.get node_id (GraphCodeBERTEmbedder.code_nodes (embedder self)))
       embedder_results.

Definition search_similar_code (self : t) (query_code : string) (top_k : Z)
    : outcome (list hit) :=
  embedder_results ←
    GraphCodeBERTEmbedder.get_similar_nodes encode_code (embedder self) query_code top_k;
  query_embedding ← encode_code query_code;
  db_results ← search (vector_db self) query_embedding top_k;
  Return (hydrate self embedder_results).

(** The ranking the embedder computes on its own nodes, with the
    node fields filled in. *)
Definition local_ranking (self : t) (query_code : string) (top_k : Z)
    : outcome (list hit) :=
  embedder_results ←
    GraphCodeBERTEmbedder.get_similar_nodes encode_code (embedder self) query_code top_k;
  Return (hydrate self embedder_results).
End System.
Arguments t {N} S.
End JavaCodeEmbeddingSystem.

(** ** [java_parser] *)

Module JavaMethod.
Record t : Type := mk {
  name : string;
  class_name : string;
  parameters : list string;
  return_type : string;
  modifiers : gset string;
  body : string;
  start_line : Z;
  end_line : Z;
}.
End JavaMethod.

Module JavaClass.
Record t : Type := mk {
  name : string;
  package : string;
  methods : list JavaMethod.t;
  fields : list string;
  imports : list string;
  extends : option string;
  implements : list string;
  start_line : Z;
  end_line : Z;
}.
End JavaClass.

(** What the parser reads of a [javalang] syntax tree: of a formal
    parameter the text of its type ([type.name], or [str(type)]) and
    its name; of a method its modifiers in the order the set yields
    them, the name of its return type, whether it has a body with
    statements, and the line of its position; of a class or interface
    the names it extends and implements; of a compilation unit the
    class and the interface declarations in the order [tree.filter]
    yields them. *)
Module javalang.
Record FormalParameter : Type := mk_parameter {
  parameter_type : string;
  parameter_name : string;
}.

Record MethodDeclaration : Type := mk_method {
  method_modifiers : list string;
  method_return_type : option string;
  method_name : string;
  method_parameters : list FormalParameter;
  method_body : bool;
  method_position : option Z;
}.

Record ClassDeclaration : Type := mk_class {
  class_name : string;
  class_methods : list MethodDeclaration;
  class_fields : list (list string);
  class_extends : option string;
  class_implements : list string;
  class_position : option Z;
}.

Record InterfaceDeclaration : Type := mk_interface {
  interface_name : string;
  interface_methods : list MethodDeclaration;
  interface_extends : list string;
  interface_position : option Z;
}.

Record CompilationUnit : Type := mk_unit {
  package : option string;
  imports : list string;
  classes : list ClassDeclaration;
  interfaces : list InterfaceDeclaration;
}.
End javalang.

Module JavaCodeParser.
Import javalang.

Record t : Type := mk {
  parsed_files : list (string * JavaClass.t);
  method_calls : list (string * string);
  type_references : list (string * string);
}.

Definition init : t := mk [] [] [].

Definition parameter_text (param : FormalParameter) : string :=
  parameter_type param +:+ " " +:+ parameter_name param.

Definition _extract_method_body (method_node : MethodDeclaration) : string :=
  if negb (method_body method_node) then ""
  else
    let params := map parameter_text (method_parameters method_node) in
    let return_type := default "void" (method_return_type method_node) in
    let modifiers := String.concat " " (method_modifiers method_node) in
    modifiers +:+ " " +:+ return_type +:+ " " +:+ method_name method_node
      +:+ "(" +:+ String.concat ", " params +:+ ")".

Definition _extract_method_info (method_node : MethodDeclaration) (class_name : string)
    : JavaMethod.t :=
  let parameters := map parameter_text (method_parameters method_node) in
  let return_type := default "void" (method_return_type method_node) in
  let modifiers := list_to_set (method_modifiers method_node) in
  let body := _extract_method_body method_node in
  let start_line := default 1 (method_position method_node) in
  JavaMethod.mk (method_name method_node) class_name parameters return_type modifiers
    body start_line (start_line + pystr.count pystr.newline (pystr.chars body)).

Definition _extract_class_info (class_node : ClassDeclaration) (tree : CompilationUnit)
    (content : string) : JavaClass.t :=
  let package := default "" (package tree) in
  let methods :=
    map (λ method, _extract_method_info method (class_name class_node))
      (class_methods class_node) in
  let fields := concat (class_fields class_node) in
  let start_line := default 1 (class_position class_node) in
  JavaClass.mk (class_name class_node) package methods fields (imports tree)
    (class_extends class_node) (class_implements class_node)
    start_line (start_line + pystr.count pystr.newline (pystr.chars content)).

Definition _extract_interface_info (interface_node : InterfaceDeclaration)
    (tree : CompilationUnit) (content : string) : JavaClass.t :=
  let package := default "" (package tree) in
  let methods :=
    map (λ method, _extract_method_info method (interface_name interface_node))
      (interface_methods interface_node) in
  let start_line := default 1 (interface_position interface_node) in
  JavaClass.mk (interface_name interface_node) package methods [] (imports tree)
    None (interface_extends interface_node)
    start_line (start_line + pystr.count pystr.newline (pystr.chars content)).

(** [parse_java_file]: [source] is the content of the file and its
    syntax tree, or [None] when reading or parsing raises. The first
    class declaration is the result, the first interface declaration
    when there is no class. *)
Definition parse_java_file (file_path : string)
    (source : option (string * CompilationUnit)) (self : t) : option JavaClass.t * t :=
  match source with
  | None => (None, self)
  | Some (content, tree) =>
      let found :=
        match classes tree with
        | node :: _ => Some (_extract_class_info node tree content)
        | [] =>
            match interfaces tree with
            | node :: _ => Some (_extract_interface_info node tree content)
            | [] => None
            end
        end in
      match found with
      | Some java_class =>
          (Some java_class,
           mk (odict.set file_path java_class (parsed_files self))
              (method_calls self) (type_references self))
      | None => (None, self)
      end
  end.

(** [re.match] of the pattern [(\w+)\.(\w+)\s*\(] at the start of
    [s]: the two groups and the length of the match. *)
Definition match_call (s : list ascii) : option (list ascii * list ascii * nat) :=
  let '(object_name, s1) := pystr.span pystr.isword s in
  match object_name, s1 with
  | _ :: _, "."%char :: s2 =>
      let '(method_name, s3) := pystr.span pystr.isword s2 in
      match method_name with
      | _ :: _ =>
          let '(spaces, s4) := pystr.span pystr.isspace s3 in
          match s4 with
          | "("%char :: _ =>
              Some (object_name, method_name,
                    (length object_name + 1 + length method_name + length spaces + 1)%nat)
          | _ => None
          end
      | [] => None
      end
  | _, _ => None
  end.

(** [re.findall] of the pattern: the matches from left to right, the
    search resuming where a match ended; [skip] characters still
    belong to the last match. *)
Fixpoint findall (skip : nat) (s : list ascii) : list (list ascii * list ascii) :=
  match s with
  | [] => []
  | _ :: s' =>
      match skip with
      | S n => findall n s'
      | O =>
          match match_call s with
          | Some (object_name, method_name, len) =>
              (object_name, method_name) :: findall (len - 1) s'
          | None => findall 0 s'
          end
      end
  end.

Definition _find_method_calls_in_body (method_body caller_id : string) (self : t) : t :=
  let matches := findall 0 (pystr.chars method_body) in
  mk (parsed_files self)
     (method_calls self
      ++ map (λ '(object_name, method_name),
                (caller_id, pystr.str object_name +:+ "." +:+ pystr.str method_name))
           matches)
     (type_references self).

Definition _analyze_method_calls (self : t) : t :=
  fold_left (λ self '(file_path, java_class),
    fold_left (λ self method,
      _find_method_calls_in_body (JavaMethod.body method)
        (JavaClass.name java_class +:+ "." +:+ JavaMethod.name method) self)
      (JavaClass.methods java_class) self)
    (parsed_files self) self.

(** The references of one class: what it extends, what it
    implements, the last component of each import. *)
Definition references_of (java_class : JavaClass.t) : list (string * string) :=
  let class_id := JavaClass.name java_class in
  match JavaClass.extends java_class with
  | Some extends => [(class_id, extends)]
  | None => []
  end
  ++ map (λ impl, (class_id, impl)) (JavaClass.implements java_class)
  ++ map (λ imp,
       (class_id,
        pystr.str (default [] (last (pystr.split "."%char (pystr.chars imp))))))
       (JavaClass.imports java_class).

Definition _analyze_type_references (self : t) : t :=
  mk (parsed_files self) (method_calls self)
     (type_references self
      ++ concat (map (λ '(file_path, java_class), references_of java_class)
                   (parsed_files self))).

(** [parse_java_directory]: [files] are the paths [rglob] yields,
    each with its content and tree. *)
Definition parse_java_directory
    (files : list (string * option (string * CompilationUnit))) (self : t)
    : list JavaClass.t * t :=
  let '(parsed_classes, self) :=
    fold_left (λ '(parsed_classes, self) '(java_file, source),
      match parse_java_file java_file source self with
      | (Some java_class, self) => (parsed_classes ++ [java_class], self)
      | (None, self) => (parsed_classes, self)
      end) files ([], self) in
  (parsed_classes, _analyze_type_references (_analyze_method_calls self)).

Section Conversion.
Context {N : Numeric}.
(** The literals 0.8 and 0.9. *)
Variable call_confidence reference_confidence : float.

Definition nodes_of (file_path : string) (java_class : JavaClass.t) : list CodeNode.t :=
  CodeNode.mk (JavaClass.package java_class +:+ "." +:+ JavaClass.name java_class)
    file_path "class" (JavaClass.name java_class)
    ("class " +:+ JavaClass.name java_class)
    (JavaClass.start_line java_class) (JavaClass.end_line java_class) None
  :: map (λ method,
       CodeNode.mk
         (JavaClass.package java_class +:+ "." +:+ JavaClass.name java_class
            +:+ "." +:+ JavaMethod.name method)
         file_path "method" (JavaMethod.name method) (JavaMethod.body method)
         (JavaMethod.start_line method) (JavaMethod.end_line method) None)
       (JavaClass.methods java_class).

Definition convert_to_code_nodes (self : t) : list CodeNode.t :=
  concat (map (λ '(file_path, java_class), nodes_of file_path java_class)
            (parsed_files self)).

Definition convert_to_code_relations (self : t) : list CodeRelation.t :=
  map (λ '(caller, callee), CodeRelation.mk caller callee "call" call_confidence)
    (method_calls self)
  ++ map (λ '(referrer, referenced),
       CodeRelation.mk referrer referenced "reference" reference_confidence)
       (type_references self).
End Conversion.
End JavaCodeParser.

(** ** [JavaCodeEmbeddingSystem.process_java_repository] *)

Module Repository.
Section Repository.
Context {N : Numeric} {S : Type} {DB : VectorDatabaseInterface S}.
Variable encode_code : string → outcome (list float).
Variable call_confidence reference_confidence : float.

(** The loop [for node in code_nodes: self.embedder.add_code_node(node)].
    [add_code_node] assigns the embedding to the object it is given
    and files that object under its id, so the list [code_nodes]
    holds the nodes with their embeddings afterwards. *)
Fixpoint embed_nodes (code_nodes : list CodeNode.t) (embedder : GraphCodeBERTEmbedder.t)
    : outcome (list CodeNode.t) * GraphCodeBERTEmbedder.t :=
  match code_nodes with
  | [] => (Return [], embedder)
  | node :: rest =>
      match GraphCodeBERTEmbedder.add_code_node encode_code node embedder with
      | (Return _, embedder) =>
          let node :=
            default node
              (odict.get (CodeNode.id node) (GraphCodeBERTEmbedder.code_nodes embedder)) in
          match embed_nodes rest embedder with
          | (Return rest, embedder) => (Return (node :: rest), embedder)
          | (Raise e, embedder) => (Raise e, embedder)
          | (Diverge, embedder) => (Diverge, embedder)
          end
      | (Raise e, embedder) => (Raise e, embedder)
      | (Diverge, embedder) => (Diverge, embedder)
      end
  end.

(** [if output_file:] *)
Definition truthy (output_file : option string) : bool :=
  match output_file with
  | Some path => negb (String.eqb path "")
  | None => false
  end.

(** [process_java_repository]: [files] are the Java files under
    [repo_path] with their contents and trees. The state is the
    parser and the system; it is kept as it is when a step raises. *)
Definition process_java_repository
    (files : list (string * option (string * javalang.CompilationUnit)))
    (output_file : option string)
    (parser : JavaCodeParser.t) (self : JavaCodeEmbeddingSystem.t S)
    : outcome unit * (JavaCodeParser.t * JavaCodeEmbeddingSystem.t S) :=
  let '(parsed_classes, parser) := JavaCodeParser.parse_java_directory files parser in
  let code_nodes := JavaCodeParser.convert_to_code_nodes parser in
  match embed_nodes code_nodes (JavaCodeEmbeddingSystem.embedder self) with
  | (Return code_nodes, embedder) =>
      let code_relations :=
        JavaCodeParser.convert_to_code_relations call_confidence reference_confidence
          parser in
      let embedder :=
        fold_left (λ embedder relation,
                     (GraphCodeBERTEmbedder.add_code_relation relation embedder).2)
          code_relations embedder in
      match add_embeddings code_nodes (JavaCodeEmbeddingSystem.vector_db self) with
      | (Return _, vector_db) =>
          let self := JavaCodeEmbeddingSystem.mk embedder vector_db in
          if truthy output_file then
            match GraphCodeBERTEmbedder.export_embeddings embedder with
            | Return _ => (Return (), (parser, self))
            | Raise e => (Raise e, (parser, self))
            | Diverge => (Diverge, (parser, self))
            end
          else (Return (), (parser, self))
      | (Raise e, vector_db) =>
          (Raise e, (parser, JavaCodeEmbeddingSystem.mk embedder vector_db))
      | (Diverge, vector_db) =>
          (Diverge, (parser, JavaCodeEmbeddingSystem.mk embedder vector_db))
      end
  | (Raise e, embedder) =>
      (Raise e,
       (parser,
        JavaCodeEmbeddingSystem.mk embedder (JavaCodeEmbeddingSystem.vector_db self)))
  | (Diverge, embedder) =>
      (Diverge,
       (parser,
        JavaCodeEmbeddingSystem.mk embedder (JavaCodeEmbeddingSystem.vector_db self)))
  end.
End Repository.
End Repository.

(** ** Reference instances *)

(** Binary64 arithmetic for the numeric interface, with sums taken
    left to right and an exhaustive inner-product search that breaks
    ties by slot. Used where a statement needs concrete numbers. *)
Definition dot64 (u v : list PrimFloat.float) : PrimFloat.float :=
  fold_left (λ acc p, PrimFloat.add acc (PrimFloat.mul p.1 p.2)) (zip u v)
    PrimFloat.zero.

Fixpoint insert_row (x : PrimFloat.float * Z) (l : list (PrimFloat.float * Z))
    : list (PrimFloat.float * Z) :=
  match l with
  | [] => [x]
  | y :: l' =>
      if PrimFloat.ltb y.1 x.1 then x :: y :: l' else y :: insert_row x l'
  end.

Definition search64 (xb : list (list PrimFloat.float)) (q : list PrimFloat.float)
    (k : Z) : list (PrimFloat.float * Z) :=
  let scored := imap (λ i row, (dot64 q row, Z.of_nat i)) xb in
  let ranked := fold_left (λ acc x, insert_row x acc) scored [] in
  let best := take (Z.to_nat k) ranked in
  best ++ replicate (Z.to_nat k - length best) (PrimFloat.neg_infinity, -1).

Definition binary64 : Numeric := {|
  float := PrimFloat.float;
  np_dot u v :=
    if bool_decide (length u = length v) then Return (dot64 u v)
    else Raise (ValueError "shapes not aligned");
  np_linalg_norm v := PrimFloat.sqrt (dot64 v v);
  float_mul := PrimFloat.mul;
  float_div := PrimFloat.div;
  float_zero := PrimFloat.zero;
  float_eqb := PrimFloat.eqb;
  float_ltb := PrimFloat.ltb;
  as_float32 x := x;
  flat_ip_search := search64;
|}.

(** A backend whose every call fails. *)
Definition unavailable : exn := BackendError "unavailable".

Definition failing_backend {N : Numeric} : VectorDatabaseInterface unit := {|
  add_embeddings _ s := (Raise unavailable, s);
  search _ _ _ := Raise unavailable;
  get_node _ _ := None;
  update_node _ s := (Raise unavailable, s);
  delete_node _ s := (Raise unavailable, s);
  get_all_nodes _ := [];
|}.

(** A two-dimensional stand-in for the model. *)
Definition encode64 (code : string) : outcome (list (@float binary64)) :=
  if String.prefix "class" code then Return [1%float; 0%float]
  else Return [0%float; 1%float].

Definition node64 (id code : string) (embedding : option (list (@float binary64)))
    : CodeNode.t (N := binary64) :=
  CodeNode.mk (N := binary64) id "Demo.java" "method" id code 1 2 embedding.

(** A populated system over a backend that is down, and the same
    embedder over a FAISS index of another width than the model's. *)
Definition system64 : JavaCodeEmbeddingSystem.t (N := binary64) unit :=
  let add node self :=
    (GraphCodeBERTEmbedder.add_code_node (N := binary64) encode64 node self).2 in
  JavaCodeEmbeddingSystem.mk
    (add (node64 "Demo.g" "int g()" None)
       (add (node64 "Demo" "class Demo" None) (GraphCodeBERTEmbedder.init (N := binary64))))
    ().

Definition faiss_system64
    : JavaCodeEmbeddingSystem.t (N := binary64) (FAISSInterface.t (N := binary64)) :=
  JavaCodeEmbeddingSystem.mk (JavaCodeEmbeddingSystem.embedder system64)
    (FAISSInterface.init 768).

Definition hits64 : list (JavaCodeEmbeddingSystem.hit (N := binary64)) :=
  [JavaCodeEmbeddingSystem.mk_hit (N := binary64)
     "Demo" 1%float "method" "Demo" "Demo.java" "class Demo";
   JavaCodeEmbeddingSystem.mk_hit (N := binary64)
     "Demo.g" 0%float "method" "Demo.g" "Demo.java" "int g()"].

(** Import documents: a well-formed node record; a document without
    [relations]; a document whose second node record has no [metadata]. *)
Definition record64 : json (N := binary64) :=
  JDict [("metadata",
          JDict [("id", JStr "Demo.f"); ("file_path", JStr "Demo.java");
                 ("node_type", JStr "method"); ("name", JStr "f");
                 ("code", JStr "int f()"); ("start_line", JInt 1);
                 ("end_line", JInt 2); ("embedding", JNull)]);
         ("embedding", JList [JFloat (N := binary64) 1%float;
                              JFloat (N := binary64) 0%float])].



(** The records [export_embeddings] writes for a node without an
    embedding and for a relation, and the call graph [load_embeddings]
    builds from nodes and relations. *)
Definition node_record {N : Numeric} (node : CodeNode.t) : json :=
  JDict [("metadata",
          JDict [("id", JStr (CodeNode.id node));
                 ("file_path", JStr (CodeNode.file_path node));
                 ("node_type", JStr (CodeNode.node_type node));
                 ("name", JStr (CodeNode.name node));
                 ("code", JStr (CodeNode.code node));
                 ("start_line", JInt (CodeNode.start_line node));
                 ("end_line", JInt (CodeNode.end_line node));
                 ("embedding", JNull)]);
         ("embedding", JNull)].

Definition relation_record {N : Numeric} (rel : CodeRelation.t) : json :=
  JDict [("source_id", JStr (CodeRelation.source_id rel));
         ("target_id", JStr (CodeRelation.target_id rel));
         ("relation_type", JStr (CodeRelation.relation_type rel));
         ("confidence", JFloat (CodeRelation.confidence rel))].

Definition snapshot_of {N : Numeric} (self : GraphCodeBERTEmbedder.t) : json :=
  JDict [("nodes",
          JDict (map (λ item, (item.1, node_record item.2))
                   (GraphCodeBERTEmbedder.code_nodes self)));
         ("relations",
          JList (map relation_record (GraphCodeBERTEmbedder.code_relations self)))].

Definition loaded_store {N : Numeric} (nodes : list (string * CodeNode.t))
    (relations : list CodeRelation.t) : GraphCodeBERTEmbedder.t :=
  fold_left (λ self r, (GraphCodeBERTEmbedder.add_code_relation r self).2) relations
    (fold_left
       (λ self item,
          GraphCodeBERTEmbedder.mk
            (odict.set item.1 item.2 (GraphCodeBERTEmbedder.code_nodes self))
            (GraphCodeBERTEmbedder.code_relations self)
            (DiGraph.add_node item.1 item.2 (GraphCodeBERTEmbedder.call_graph self)))
       nodes GraphCodeBERTEmbedder.init).

(** The chain A→B→C→D and the cycle A→B→C→A, built by
    [add_code_relation] on an empty store. *)
Definition calls {N : Numeric} (c : float) (source target : string) : CodeRelation.t :=
  CodeRelation.mk source target "calls" c.

Definition store_of {N : Numeric} (relations : list CodeRelation.t)
    : GraphCodeBERTEmbedder.t :=
  fold_left (λ self r, (GraphCodeBERTEmbedder.add_code_relation r self).2)
    relations GraphCodeBERTEmbedder.init.

Definition chain_store {N : Numeric} (c : float) : GraphCodeBERTEmbedder.t :=
  store_of [calls c "A" "B"; calls c "B" "C"; calls c "C" "D"].

Definition cycle_store {N : Numeric} (c : float) : GraphCodeBERTEmbedder.t :=
  store_of [calls c "A" "B"; calls c "B" "C"; calls c "C" "A"].

(** * Proofs *)

(** ** The traversal loop *)

Section dependency_loop.
Import GraphCodeBERTEmbedder.
Variable neighbours : string → outcome (list string).
Variable max_depth : Z.
Variable start : string.

(** One call of [neighbours] leads from [u] to [v]. *)
Definition step (u v : string) : Prop :=
  ∃ ns, neighbours u = Return ns ∧ v ∈ ns.

(** [hops k n]: [k] steps lead from [start] to [n]. *)
Inductive hops : nat → string → Prop :=
  | hops_O : hops 0 start
  | hops_S k m n : hops k m → step m n → hops (S k) n.

(** Depths in the queue never decrease and span at most two levels. *)
Fixpoint queue_ok (q : list (string * Z)) : Prop :=
  match q with
  | [] => True
  | x :: q' => Forall (λ y, x.2 ≤ y.2 ≤ x.2 + 1) q' ∧ queue_ok q'
  end.

Record inv (queue : list (string * Z)) (visited acc : gset string) : Prop := {
  inv_queue : ∀ n d, (n, d) ∈ queue → ∃ k : nat, d = Z.of_nat k ∧ hops k n;
  inv_acc : ∀ v, v ∈ acc →
    ∃ k : nat, (1 ≤ k)%nat ∧ Z.of_nat k ≤ max_depth ∧ hops k v;
  inv_sorted : queue_ok queue;
  inv_start : start ∈ visited ∨ (start, 0) ∈ queue ∨ max_depth ≤ 0;
  inv_closed : ∀ k m s, hops k m → m ∈ visited → step m s →
    Z.of_nat (S k) < max_depth →
    s ∈ visited ∨ ∃ d, (s, d) ∈ queue ∧ d ≤ Z.of_nat (S k);
  inv_expanded : ∀ m s, m ∈ visited → step m s → s ∈ acc;
}.

Lemma queue_ok_const (l : list string) (h : Z) :
  queue_ok (map (λ n, (n, h)) l).
Proof.
  induction l as [|n l IH]; simpl; [done|]. split; [|done].
  apply Forall_forall. intros y Hy. apply list_elem_of_fmap in Hy as (m & -> & _).
  simpl. lia.
Qed.

Lemma queue_ok_app (q : list (string * Z)) (l : list string) (h : Z) :
  queue_ok q → Forall (λ y, h ≤ y.2 ≤ h + 1) q →
  queue_ok (q ++ map (λ n, (n, h + 1)) l).
Proof.
  induction q as [|x q IH]; simpl.
  - intros _ _. apply queue_ok_const.
  - intros [Hx Hq] Hall. apply Forall_cons in Hall as [Hxh Hall]. split.
    + apply Forall_app. split; [done|].
      apply Forall_forall. intros y Hy.
      apply list_elem_of_fmap in Hy as (m & -> & _). simpl. lia.
    + by apply IH.
Qed.

Lemma queue_ok_head (x : string * Z) (q : list (string * Z)) (y : string * Z) :
  queue_ok (x :: q) → y ∈ x :: q → x.2 ≤ y.2 ≤ x.2 + 1.
Proof.
  intros [Hall _] [->|Hy]%elem_of_cons; [lia|].
  by apply (proj1 (Forall_forall _ _) Hall).
Qed.

(** While the queue holds work, a node within reach below the bound is
    visited or some entry of the queue is no deeper than its walk. *)
Lemma inv_frontier queue visited acc k n :
  inv queue visited acc → hops k n → Z.of_nat k < max_depth →
  n ∈ visited ∨ ∃ x d, (x, d) ∈ queue ∧ d ≤ Z.of_nat k.
Proof.
  intros I Hh. induction Hh as [|k m n Hm IH Hs]; intros Hk.
  - destruct (inv_start _ _ _ I) as [?|[?|?]]; [by left| |lia].
    right. exists start, 0. split; [done|lia].
  - destruct IH as [Hv|(x & d & Hx & Hd)]; [lia| |].
    + destruct (inv_closed _ _ _ I k m n Hm Hv Hs Hk) as [?|(d & ? & ?)];
        [by left|]. right. by exists n, d.
    + right. exists x, d. split; [done|lia].
Qed.

Lemma inv_initial : inv [(start, 0)] ∅ ∅.
Proof.
  split.
  - intros n d [= -> ->]%list_elem_of_singleton. exists 0%nat. split; [done|constructor].
  - intros v Hv. set_solver.
  - simpl. split; [constructor|done].
  - right. left. set_solver.
  - intros k m s _ Hm. set_solver.
  - intros m s Hm. set_solver.
Qed.

Lemma inv_skip current depth queue visited acc :
  inv ((current, depth) :: queue) visited acc →
  current ∈ visited ∨ max_depth ≤ depth →
  inv queue visited acc.
Proof.
  intros I Hskip. split.
  - intros n d Hin. apply (inv_queue _ _ _ I). by right.
  - apply (inv_acc _ _ _ I).
  - apply (inv_sorted _ _ _ I).
  - destruct (inv_start _ _ _ I) as [?|[Hq|?]]; [by left| |by right; right].
    apply elem_of_cons in Hq as [[= <- <-]|?]; [|by right; left].
    destruct Hskip; [by left|by right; right].
  - intros k m s Hm Hv Hs Hk.
    destruct (inv_closed _ _ _ I k m s Hm Hv Hs Hk) as [?|(d & Hq & Hd)]; [by left|].
    apply elem_of_cons in Hq as [[= -> ->]|?]; [|right; by exists d].
    destruct Hskip; [by left|lia].
  - apply (inv_expanded _ _ _ I).
Qed.

Lemma inv_expand current depth queue visited acc ns :
  inv ((current, depth) :: queue) visited acc →
  current ∉ visited → depth < max_depth →
  neighbours current = Return ns →
  inv (queue ++ map (λ n, (n, depth + 1))
                    (filter (λ n, n ∉ visited ∪ {[current]}) ns))
      (visited ∪ {[current]}) (acc ∪ list_to_set ns).
Proof.
  intros I Hnv Hd Hns.
  destruct (inv_queue _ _ _ I current depth) as (kc & -> & Hc); [by left|].
  assert (Hstep : ∀ s, s ∈ ns → step current s) by (intros s ?; by exists ns).
  split.
  - intros n d [Hin|Hin]%elem_of_app.
    + apply (inv_queue _ _ _ I). by right.
    + apply list_elem_of_fmap in Hin as (s & [= -> ->] & Hs).
      apply list_elem_of_filter in Hs as [_ Hs].
      exists (S kc). split; [lia|]. econstructor; eauto.
  - intros v [Hv|Hv]%elem_of_union; [by apply (inv_acc _ _ _ I)|].
    apply elem_of_list_to_set in Hv.
    exists (S kc). split; [lia|]. split; [lia|]. econstructor; eauto.
  - destruct (inv_sorted _ _ _ I) as [Hall Hq]. by apply queue_ok_app.
  - destruct (inv_start _ _ _ I) as [?|[Hq|?]]; [left; set_solver| |by right; right].
    apply elem_of_cons in Hq as [[= <- _]|?]; [left; set_solver|].
    right; left. set_solver.
  - intros k m s Hm Hv Hs Hk. apply elem_of_union in Hv as [Hv|Hv].
    + destruct (inv_closed _ _ _ I k m s Hm Hv Hs Hk) as [?|(d & Hq & Hle)];
        [left; set_solver|].
      apply elem_of_cons in Hq as [[= -> _]|?]; [left; set_solver|].
      right. exists d. split; [set_solver|done].
    + apply elem_of_singleton in Hv as ->.
      destruct Hs as (ns' & Hns' & Hs). rewrite Hns in Hns'. injection Hns' as <-.
      destruct (decide (s ∈ visited ∪ {[current]})) as [?|Hnew]; [by left|].
      right. exists (Z.of_nat kc + 1). split.
      * apply elem_of_app. right. apply list_elem_of_fmap. exists s. split; [done|].
        by apply list_elem_of_filter.
      * assert (Z.of_nat kc ≤ Z.of_nat k); [|lia].
        destruct (inv_frontier _ _ _ k current I Hm) as [?|(x & d & Hx & Hle)];
          [lia|done|].
        pose proof (queue_ok_head _ _ _ (inv_sorted _ _ _ I) Hx) as Hhd.
        simpl in Hhd. lia.
  - intros m s [Hv|Hv]%elem_of_union Hs.
    + apply elem_of_union. left. by apply (inv_expanded _ _ _ I m).
    + apply elem_of_singleton in Hv as ->.
      destruct Hs as (ns' & Hns' & Hs). rewrite Hns in Hns'. injection Hns' as <-.
      apply elem_of_union. right. by apply elem_of_list_to_set.
Qed.

(** What the loop returns satisfies the invariant on the empty queue. *)
Lemma dependency_loop_inv fuel queue visited acc r :
  inv queue visited acc →
  dependency_loop fuel neighbours max_depth queue visited acc = Return r →
  ∃ visited', inv [] visited' r.
Proof.
  revert queue visited acc.
  induction fuel as [|fuel IH]; intros queue visited acc I; simpl; [done|].
  destruct queue as [|[current depth] queue].
  - intros [= <-]. by exists visited.
  - destruct (bool_decide (current ∈ visited) || (max_depth <=? depth)) eqn:Hc.
    + apply IH. apply (inv_skip current depth); [done|].
      apply orb_true_iff in Hc as [Hc|Hc].
      * left. by apply bool_decide_eq_true in Hc.
      * right. lia.
    + apply orb_false_iff in Hc as [Hc1 Hc2].
      apply bool_decide_eq_false in Hc1.
      destruct (neighbours current) as [ns| |] eqn:Hns; [|done..].
      apply IH. apply inv_expand; [done|done|lia|done].
Qed.

(** The set a completed traversal returns: the nodes some walk of one
    to [max_depth] steps reaches. *)
Lemma inv_final visited r v :
  inv [] visited r →
  v ∈ r ↔ ∃ k : nat, (1 ≤ k)%nat ∧ Z.of_nat k ≤ max_depth ∧ hops k v.
Proof.
  intros I. split; [apply (inv_acc _ _ _ I)|].
  intros (k & Hk1 & Hk & Hh). inversion Hh as [|k' m n Hm Hs]; subst; [lia|].
  apply (inv_expanded _ _ _ I m); [|done].
  destruct (inv_frontier _ _ _ k' m I Hm) as [?|(x & d & Hx & _)]; [lia|done|].
  by apply elem_of_nil in Hx.
Qed.

Lemma dependency_loop_spec fuel r v :
  dependency_loop fuel neighbours max_depth [(start, 0)] ∅ ∅ = Return r →
  v ∈ r ↔ ∃ k : nat, (1 ≤ k)%nat ∧ Z.of_nat k ≤ max_depth ∧ hops k v.
Proof.
  intros Hr. destruct (dependency_loop_inv _ _ _ _ _ inv_initial Hr) as [visited I].
  by apply (inv_final visited).
Qed.
End dependency_loop.

(** The fuel suffices: over a set of nodes closed under [neighbours],
    with at most [B] neighbours each, the loop returns. *)
Section dependency_loop_returns.
Import GraphCodeBERTEmbedder.
Variable neighbours : string → outcome (list string).
Variable max_depth : Z.
Variable U : gset string.
Variable B : nat.
Hypothesis closed : ∀ u, u ∈ U →
  ∃ ns, neighbours u = Return ns ∧ (∀ v, v ∈ ns → v ∈ U) ∧ (length ns ≤ B)%nat.

Lemma dependency_loop_returns fuel queue visited acc :
  (∀ n d, (n, d) ∈ queue → n ∈ U) →
  (size (U ∖ visited) * S B + length queue < fuel)%nat →
  ∃ r, dependency_loop fuel neighbours max_depth queue visited acc = Return r.
Proof.
  revert queue visited acc.
  induction fuel as [|fuel IH]; intros queue visited acc HU Hfuel; [lia|].
  simpl. destruct queue as [|[current depth] queue]; [by eexists|].
  destruct (bool_decide (current ∈ visited) || (max_depth <=? depth)) eqn:Hc.
  - apply IH.
    + intros n d Hin. apply (HU n d). by right.
    + simpl in Hfuel. lia.
  - apply orb_false_iff in Hc as [Hc _]. apply bool_decide_eq_false in Hc.
    assert (HcU : current ∈ U) by (apply (HU current depth); by left).
    destruct (closed current HcU) as (ns & -> & Hns & Hlen).
    apply IH.
    + intros n d [Hin|Hin]%elem_of_app.
      * apply (HU n d). by right.
      * apply list_elem_of_fmap in Hin as (s & [= -> _] & Hs).
        apply list_elem_of_filter in Hs as [_ Hs]. by apply Hns.
    + rewrite length_app, length_map.
      pose proof (length_filter (λ n, n ∉ visited ∪ {[current]}) ns) as Hf.
      assert (Hsz : (size (U ∖ (visited ∪ {[current]})) < size (U ∖ visited))%nat).
      { apply subset_size. set_solver. }
      simpl in Hfuel. nia.
Qed.
End dependency_loop_returns.

(** ** The graph *)

Section DiGraph_facts.
Context {NA EA : Type}.
Implicit Types G : DiGraph.t NA EA.

Lemma odict_mem_keys {K V} `{EqDecision K} (k : K) (d : list (K * V)) :
  odict.mem k d = true ↔ k ∈ odict.keys d.
Proof.
  unfold odict.mem, odict.keys. induction d as [|[k' v] d IH]; simpl.
  - split; [done|]. by intros ?%elem_of_nil.
  - destruct (decide (k' = k)) as [->|Hne].
    + split; [left|done].
    + rewrite IH. split; [by right|].
      intros [?|?]%elem_of_cons; [congruence|done].
Qed.

Lemma succ_list_spec G u v : v ∈ DiGraph.succ_list G u ↔ DiGraph.has_edge G u v.
Proof.
  unfold DiGraph.succ_list, DiGraph.has_edge. rewrite list_elem_of_fmap. split.
  - intros ([[u' v'] d] & -> & [Hu He]%list_elem_of_filter). simpl in *. subst.
    by exists d.
  - intros [d Hd]. exists ((u, v), d). split; [done|].
    by apply list_elem_of_filter.
Qed.

Lemma pred_list_spec G u v : u ∈ DiGraph.pred_list G v ↔ DiGraph.has_edge G u v.
Proof.
  unfold DiGraph.pred_list, DiGraph.has_edge. rewrite list_elem_of_fmap. split.
  - intros ([[u' v'] d] & -> & [Hu He]%list_elem_of_filter). simpl in *. subst.
    by exists d.
  - intros [d Hd]. exists ((u, v), d). split; [done|].
    by apply list_elem_of_filter.
Qed.

Lemma succ_list_length G u : (length (DiGraph.succ_list G u) ≤ length (DiGraph._adj G))%nat.
Proof. unfold DiGraph.succ_list. rewrite length_map. apply length_filter. Qed.

Lemma pred_list_length G u : (length (DiGraph.pred_list G u) ≤ length (DiGraph._adj G))%nat.
Proof. unfold DiGraph.pred_list. rewrite length_map. apply length_filter. Qed.

Lemma walk_cons G k u m v :
  DiGraph.has_edge G u m → DiGraph.walk G k m v → DiGraph.walk G (S k) u v.
Proof.
  intros He Hw. induction Hw as [m|k m x v Hw IH Hx].
  - econstructor; [constructor|done].
  - econstructor; [by apply IH|done].
Qed.

Lemma walk_0_inv G u v : DiGraph.walk G 0 u v → u = v.
Proof. by inversion 1. Qed.

(** Forward steps are edges, backward steps are reversed edges. *)
Lemma hops_successors G start k n :
  DiGraph.wf G →
  hops (DiGraph.successors G) start k n ↔ DiGraph.walk G k start n.
Proof.
  intros Hwf. split.
  - induction 1 as [|k m n _ IH (ns & Hns & Hn)]; [constructor|].
    econstructor; [done|]. unfold DiGraph.successors in Hns.
    destruct (DiGraph.has_node G m); [|done]. injection Hns as <-.
    by apply succ_list_spec.
  - induction 1 as [|k u m v _ IH He]; [constructor|].
    econstructor; [done|]. exists (DiGraph.succ_list G m). split.
    + unfold DiGraph.successors. destruct He as [d Hd].
      by destruct (Hwf _ _ _ Hd) as [-> _].
    + by apply succ_list_spec.
Qed.

Lemma hops_predecessors_walk G start j m k n :
  DiGraph.wf G →
  hops (DiGraph.predecessors G) start j m → DiGraph.walk G k n m →
  hops (DiGraph.predecessors G) start (k + j) n.
Proof.
  intros Hwf Hj Hw. revert j Hj.
  induction Hw as [|k n x m _ IH He]; intros j Hj; [done|].
  replace (S k + j)%nat with (k + S j)%nat by lia. apply IH.
  econstructor; [done|]. exists (DiGraph.pred_list G m). split.
  - unfold DiGraph.predecessors. destruct He as [d Hd].
    by destruct (Hwf _ _ _ Hd) as [_ ->].
  - by apply pred_list_spec.
Qed.

Lemma hops_predecessors G start k n :
  DiGraph.wf G →
  hops (DiGraph.predecessors G) start k n ↔ DiGraph.walk G k n start.
Proof.
  intros Hwf. split.
  - induction 1 as [|k m n _ IH (ns & Hns & Hn)]; [constructor|].
    apply walk_cons with m; [|done]. unfold DiGraph.predecessors in Hns.
    destruct (DiGraph.has_node G m); [|done]. injection Hns as <-.
    by apply pred_list_spec.
  - intros Hw. replace k with (k + 0)%nat by lia.
    apply (hops_predecessors_walk G start 0 start); [done|constructor|done].
Qed.

Lemma node_set_size G :
  (size (list_to_set (C := gset string) (odict.keys (DiGraph._node G)))
   ≤ length (DiGraph._node G))%nat.
Proof.
  unfold odict.keys. rewrite <- (length_map fst (DiGraph._node G)).
  generalize (map fst (DiGraph._node G)). intros l.
  induction l as [|x l IH].
  - by rewrite list_to_set_nil, size_empty.
  - rewrite list_to_set_cons, size_union_alt, size_singleton.
    assert (size (list_to_set (C := gset string) l ∖ {[x]})
            ≤ size (list_to_set (C := gset string) l))%nat
      by (apply subseteq_size; set_solver).
    simpl. lia.
Qed.

(** Both traversals return over a well-formed graph. *)
Lemma traversal_returns G (neighbours : string → outcome (list string))
    (nlist : string → list string) max_depth start :
  DiGraph.has_node G start = true →
  (∀ u, neighbours u =
        if DiGraph.has_node G u then Return (nlist u) else Raise NetworkXError) →
  (∀ u v, v ∈ nlist u → DiGraph.has_node G v = true) →
  (∀ u, (length (nlist u) ≤ length (DiGraph._adj G))%nat) →
  ∃ r, GraphCodeBERTEmbedder.dependency_loop
         (GraphCodeBERTEmbedder.traversal_fuel G) neighbours max_depth
         [(start, 0)] ∅ ∅ = Return r.
Proof.
  intros Hstart Hn Hin Hlen.
  apply (dependency_loop_returns neighbours max_depth
           (list_to_set (odict.keys (DiGraph._node G))) (length (DiGraph._adj G))).
  - intros u Hu. apply elem_of_list_to_set, odict_mem_keys in Hu.
    exists (nlist u). rewrite Hn. unfold DiGraph.has_node. rewrite Hu.
    split; [done|]. split; [|done].
    intros v Hv. apply elem_of_list_to_set, odict_mem_keys. by apply (Hin u).
  - intros n d [= -> _]%list_elem_of_singleton.
    by apply elem_of_list_to_set, odict_mem_keys.
  - unfold GraphCodeBERTEmbedder.traversal_fuel.
    pose proof (node_set_size G) as Hsz.
    assert (size (list_to_set (C := gset string) (odict.keys (DiGraph._node G)) ∖ ∅)
            ≤ length (DiGraph._node G))%nat.
    { etrans; [|exact Hsz]. apply subseteq_size. set_solver. }
    simpl length. nia.
Qed.
End DiGraph_facts.

(** ** Upstream and downstream dependencies *)

Section traversal.
Import GraphCodeBERTEmbedder.
Context {N : Numeric}.
Implicit Types self : GraphCodeBERTEmbedder.t.

(** [get_downstream_dependencies] returns the nodes that a walk of one
    to [max_depth] edges reaches from the start. *)
Lemma get_downstream_dependencies_spec self start max_depth :
  DiGraph.wf (call_graph self) →
  DiGraph.has_node (call_graph self) start = true →
  ∃ r, get_downstream_dependencies self start max_depth = Return r ∧
    ∀ v, v ∈ r ↔ ∃ k : nat, (1 ≤ k)%nat ∧ Z.of_nat k ≤ max_depth ∧
                   DiGraph.walk (call_graph self) k start v.
Proof.
  intros Hwf Hstart. unfold get_downstream_dependencies. rewrite Hstart. simpl.
  destruct (traversal_returns (call_graph self)
              (DiGraph.successors (call_graph self))
              (DiGraph.succ_list (call_graph self)) max_depth start)
    as [r Hr]; [done|done| |apply succ_list_length|].
  { intros u v [d Hd]%succ_list_spec. by destruct (Hwf _ _ _ Hd). }
  exists r. split; [done|]. intros v.
  rewrite (dependency_loop_spec _ _ _ _ _ v Hr).
  by setoid_rewrite hops_successors.
Qed.

(** [get_upstream_dependencies] returns the nodes from which a walk of
    one to [max_depth] edges reaches the start. *)
Lemma get_upstream_dependencies_spec self start max_depth :
  DiGraph.wf (call_graph self) →
  DiGraph.has_node (call_graph self) start = true →
  ∃ r, get_upstream_dependencies self start max_depth = Return r ∧
    ∀ v, v ∈ r ↔ ∃ k : nat, (1 ≤ k)%nat ∧ Z.of_nat k ≤ max_depth ∧
                   DiGraph.walk (call_graph self) k v start.
Proof.
  intros Hwf Hstart. unfold get_upstream_dependencies. rewrite Hstart. simpl.
  destruct (traversal_returns (call_graph self)
              (DiGraph.predecessors (call_graph self))
              (DiGraph.pred_list (call_graph self)) max_depth start)
    as [r Hr]; [done|done| |apply pred_list_length|].
  { intros u v [d Hd]%pred_list_spec. by destruct (Hwf _ _ _ Hd). }
  exists r. split; [done|]. intros v.
  rewrite (dependency_loop_spec _ _ _ _ _ v Hr).
  by setoid_rewrite hops_predecessors.
Qed.
End traversal.

(** ** The class invariant of the call graph *)

Section wf.
Context {NA EA : Type}.
Implicit Types G : DiGraph.t NA EA.

Lemma odict_get_set {K V} `{EqDecision K} (k k' : K) (v : V) (d : list (K * V)) :
  odict.get k (odict.set k' v d) = if decide (k' = k) then Some v else odict.get k d.
Proof.
  induction d as [|[k0 v0] d IH]; simpl.
  - done.
  - destruct (decide (k0 = k')) as [->|Hne]; simpl.
    + by destruct (decide (k' = k)).
    + destruct (decide (k0 = k)) as [->|?].
      * by destruct (decide (k' = k)); [congruence|].
      * done.
Qed.

Lemma odict_mem_set {K V} `{EqDecision K} (k k' : K) (v : V) (d : list (K * V)) :
  odict.mem k d = true → odict.mem k (odict.set k' v d) = true.
Proof.
  unfold odict.mem. rewrite odict_get_set. by destruct (decide (k' = k)).
Qed.

Lemma odict_set_elem {K V} `{EqDecision K} (x : K * V) (k : K) (v : V) (d : list (K * V)) :
  x ∈ odict.set k v d → x = (k, v) ∨ x ∈ d.
Proof.
  induction d as [|[k0 v0] d IH]; simpl.
  - intros ->%list_elem_of_singleton. by left.
  - destruct (decide (k0 = k)) as [->|Hne].
    + intros [->|?]%elem_of_cons; [by left|right; by right].
    + intros [->|?]%elem_of_cons; [right; by left|].
      destruct IH as [?|?]; [done|by left|right; by right].
Qed.

Lemma touch_mem (n m : string) (nodes : list (string * option NA)) :
  odict.mem n (DiGraph.touch m nodes) = true ↔ n = m ∨ odict.mem n nodes = true.
Proof.
  unfold DiGraph.touch. destruct (odict.mem m nodes) eqn:Hm.
  - split; [by right|]. by intros [->|?].
  - rewrite !odict_mem_keys. unfold odict.keys. rewrite map_app. simpl.
    rewrite elem_of_app, list_elem_of_singleton. tauto.
Qed.

Lemma wf_empty : DiGraph.wf (DiGraph.empty (NA := NA) (EA := EA)).
Proof. intros u v d Hin. by apply elem_of_nil in Hin. Qed.

Lemma wf_add_node G n attr : DiGraph.wf G → DiGraph.wf (DiGraph.add_node n attr G).
Proof.
  intros Hwf u v d Hin. destruct (Hwf u v d Hin) as [Hu Hv].
  unfold DiGraph.has_node, DiGraph.add_node. simpl.
  split; by apply odict_mem_set.
Qed.

Lemma wf_add_edge G a b attr : DiGraph.wf G → DiGraph.wf (DiGraph.add_edge a b attr G).
Proof.
  intros Hwf u v d Hin. unfold DiGraph.has_node, DiGraph.add_edge in *. simpl in *.
  rewrite !touch_mem. apply odict_set_elem in Hin as [[= -> -> ->]|Hin].
  - split; [right; by left|by left].
  - destruct (Hwf u v d Hin) as [Hu Hv]. unfold DiGraph.has_node in *.
    split; right; by right.
Qed.
End wf.

(** Every method of the embedder keeps the call graph well formed. *)
Lemma add_code_node_wf {N : Numeric} (encode_code : string → outcome (list float))
    (node : CodeNode.t) (self : GraphCodeBERTEmbedder.t) :
  DiGraph.wf (GraphCodeBERTEmbedder.call_graph self) →
  DiGraph.wf (GraphCodeBERTEmbedder.call_graph
                (GraphCodeBERTEmbedder.add_code_node encode_code node self).2).
Proof.
  intros Hwf. unfold GraphCodeBERTEmbedder.add_code_node.
  destruct (encode_code _); simpl; [by apply wf_add_node|done..].
Qed.

Lemma add_code_relation_wf {N : Numeric} (relation : CodeRelation.t)
    (self : GraphCodeBERTEmbedder.t) :
  DiGraph.wf (GraphCodeBERTEmbedder.call_graph self) →
  DiGraph.wf (GraphCodeBERTEmbedder.call_graph
                (GraphCodeBERTEmbedder.add_code_relation relation self).2).
Proof. intros Hwf. simpl. by apply wf_add_edge. Qed.

Lemma load_embeddings_wf {N : Numeric} (data : json) (self : GraphCodeBERTEmbedder.t)
    (r : outcome unit) (loaded : GraphCodeBERTEmbedder.t) :
  DiGraph.wf (GraphCodeBERTEmbedder.call_graph self) →
  GraphCodeBERTEmbedder.load_embeddings data self = Some (r, loaded) →
  DiGraph.wf (GraphCodeBERTEmbedder.call_graph loaded).
Proof.
  assert (Hnodes : ∀ items self r s,
    DiGraph.wf (GraphCodeBERTEmbedder.call_graph self) →
    GraphCodeBERTEmbedder.load_nodes items self = Some (r, s) →
    DiGraph.wf (GraphCodeBERTEmbedder.call_graph s)).
  { induction items as [|[k v] items IH]; intros s r' s' Hwf; simpl.
    - by intros [= _ <-].
    - destruct (GraphCodeBERTEmbedder.load_node v) as [[node|e|]|];
        [|by intros [= _ <-]..|done].
      apply IH. simpl. by apply wf_add_node. }
  assert (Hrels : ∀ rels self r s,
    DiGraph.wf (GraphCodeBERTEmbedder.call_graph self) →
    GraphCodeBERTEmbedder.load_relations rels self = Some (r, s) →
    DiGraph.wf (GraphCodeBERTEmbedder.call_graph s)).
  { induction rels as [|rel rels IH]; intros s r' s' Hwf; simpl.
    - by intros [= _ <-].
    - destruct (GraphCodeBERTEmbedder.CodeRelation_of_kwargs rel) as [[relation|e|]|];
        [|by intros [= _ <-]..|done].
      apply IH. simpl. by apply wf_add_edge. }
  intros Hwf. unfold GraphCodeBERTEmbedder.load_embeddings.
  destruct (_ ≫= json_items) as [items| |]; [|by intros [= _ <-]..].
  destruct (GraphCodeBERTEmbedder.load_nodes items self) as [[r1 self1]|] eqn:Hn;
    [|done].
  specialize (Hnodes items self r1 self1 Hwf Hn).
  destruct r1 as [[]| |]; [|by intros [= _ <-]..].
  destruct (_ ≫= GraphCodeBERTEmbedder.json_iter) as [rels| |];
    [|by intros [= _ <-]..].
  by apply Hrels.
Qed.

Lemma store_of_wf {N : Numeric} (relations : list CodeRelation.t) :
  DiGraph.wf (GraphCodeBERTEmbedder.call_graph (store_of relations)).
Proof.
  unfold store_of.
  assert (H : ∀ self, DiGraph.wf (GraphCodeBERTEmbedder.call_graph self) →
    DiGraph.wf (GraphCodeBERTEmbedder.call_graph
      (fold_left (λ self r, (GraphCodeBERTEmbedder.add_code_relation r self).2)
         relations self))).
  { induction relations as [|r rs IH]; intros self Hwf; simpl; [done|].
    apply IH. simpl. by apply wf_add_edge. }
  apply H, wf_empty.
Qed.

(** ** Claims on the traversals *)

Section traversal_claims.
Import GraphCodeBERTEmbedder.

Lemma walk_1 {NA EA} (G : DiGraph.t NA EA) u v :
  DiGraph.walk G 1 u v ↔ DiGraph.has_edge G u v.
Proof.
  split.
  - inversion 1 as [|k u' m v' Hw He]; subst. by apply walk_0_inv in Hw as ->.
  - intros He. econstructor; [constructor|done].
Qed.

(** C3, on the code: for an id that is not a node of the call graph the
    two bounded traversals return the empty set, but [analyze_impact]
    raises [NetworkXError] (its direct [predecessors] call is unguarded)
    and [get_call_path] raises [NodeNotFound] for an absent endpoint
    (only [NetworkXNoPath] is caught). *)
Theorem unknown_id_outcomes {N : Numeric} (self : GraphCodeBERTEmbedder.t)
    (node_id other : string) (max_depth : Z) :
  DiGraph.has_node (call_graph self) node_id = false →
  get_upstream_dependencies self node_id max_depth = Return ∅ ∧
  get_downstream_dependencies self node_id max_depth = Return ∅ ∧
  analyze_impact self node_id = Raise NetworkXError ∧
  get_call_path self node_id other = Raise NodeNotFound ∧
  get_call_path self other node_id = Raise NodeNotFound.
Proof.
  intros Hno.
  unfold analyze_impact, get_call_path, nx_shortest_path,
    get_upstream_dependencies, get_downstream_dependencies,
    DiGraph.predecessors, DiGraph.successors.
  rewrite Hno. simpl. rewrite orb_true_r. done.
Qed.

Lemma unknown_id_outcomes_witness :
  DiGraph.has_node (call_graph (chain_store (N := binary64) 1%float)) "Z" = false ∧
  analyze_impact (chain_store (N := binary64) 1%float) "Z" = Raise NetworkXError ∧
  get_call_path (chain_store (N := binary64) 1%float) "A" "Z" = Raise NodeNotFound.
Proof.
  destruct (unknown_id_outcomes (chain_store (N := binary64) 1%float) "Z" "A" 3
              eq_refl) as (_ & _ & Himpact & _ & Hpath).
  split; [reflexivity|]. split; [exact Himpact|exact Hpath].
Defined.

(** C4, amended: over a well-formed call graph and a start that is a
    node, a node other than the start at shortest distance [d] from
    (resp. to) the start is in the result of
    [get_downstream_dependencies] (resp. [get_upstream_dependencies])
    exactly when [d <= max_depth]; both calls return. *)
Theorem depth_bound_membership {N : Numeric} (self : GraphCodeBERTEmbedder.t)
    (start : string) (max_depth : Z) (v : string) :
  DiGraph.wf (call_graph self) →
  DiGraph.has_node (call_graph self) start = true →
  v ≠ start →
  (∀ d, DiGraph.distance (call_graph self) start v d →
     ∃ r, get_downstream_dependencies self start max_depth = Return r ∧
          (v ∈ r ↔ Z.of_nat d ≤ max_depth)) ∧
  (∀ d, DiGraph.distance (call_graph self) v start d →
     ∃ r, get_upstream_dependencies self start max_depth = Return r ∧
          (v ∈ r ↔ Z.of_nat d ≤ max_depth)).
Proof.
  intros Hwf Hstart Hne. split; intros d [Hw Hmin].
  - destruct (get_downstream_dependencies_spec self start max_depth Hwf Hstart)
      as (r & Hr & Hspec).
    exists r. split; [done|]. rewrite Hspec. split.
    + intros (k & _ & Hk & Hwk). specialize (Hmin k Hwk). lia.
    + intros Hd. exists d. split; [|done].
      destruct d; [|lia]. by apply walk_0_inv in Hw.
  - destruct (get_upstream_dependencies_spec self start max_depth Hwf Hstart)
      as (r & Hr & Hspec).
    exists r. split; [done|]. rewrite Hspec. split.
    + intros (k & _ & Hk & Hwk). specialize (Hmin k Hwk). lia.
    + intros Hd. exists d. split; [|done].
      destruct d; [|lia]. by apply walk_0_inv in Hw.
Qed.

Lemma cycle_distance_A_B :
  DiGraph.distance (call_graph (cycle_store (N := binary64) 1%float)) "A" "B" 1.
Proof.
  split.
  - apply walk_1. exists ("calls", 1%float). vm_compute. set_solver.
  - intros [|k] Hw; [|lia]. by apply walk_0_inv in Hw.
Qed.

Lemma cycle_distance_B_A :
  DiGraph.distance (call_graph (cycle_store (N := binary64) 1%float)) "B" "A" 2.
Proof.
  split.
  - apply walk_cons with "C"; [|apply walk_1];
      exists ("calls", 1%float); vm_compute; set_solver.
  - intros [|[|k]] Hw; [|exfalso|lia].
    + by apply walk_0_inv in Hw.
    + apply walk_1, succ_list_spec in Hw. vm_compute in Hw. set_solver.
Qed.

Lemma depth_bound_membership_witness :
  (∃ r, get_downstream_dependencies (cycle_store (N := binary64) 1%float) "A" 2
        = Return r ∧ ("B" ∈ r ↔ Z.of_nat 1 ≤ 2)) ∧
  (∃ r, get_upstream_dependencies (cycle_store (N := binary64) 1%float) "A" 2
        = Return r ∧ ("B" ∈ r ↔ Z.of_nat 2 ≤ 2)).
Proof.
  destruct (depth_bound_membership (cycle_store (N := binary64) 1%float) "A" 2 "B")
    as [Hdown Hup].
  - apply store_of_wf.
  - reflexivity.
  - discriminate.
  - split; [apply Hdown, cycle_distance_A_B|apply Hup, cycle_distance_B_A].
Defined.

(** Counterexample to C4 with a strict bound, on the chain A→B→C→D: B
    is at distance 1 from A and is returned for [max_depth = 1],
    although [1 < 1] is false. *)
Lemma depth_bound_strict_fails :
  ∃ r, get_downstream_dependencies (chain_store (N := binary64) 1%float) "A" 1
       = Return r ∧
       DiGraph.distance (call_graph (chain_store (N := binary64) 1%float)) "A" "B" 1 ∧
       "B" ≠ "A" ∧
       ¬ ("B" ∈ r ↔ Z.of_nat 1 < 1).
Proof.
  exists {["B"]}. split; [reflexivity|]. split; [|split; [discriminate|]].
  - split.
    + apply walk_1. exists ("calls", 1%float). vm_compute. set_solver.
    + intros [|k] Hw; [|lia]. by apply walk_0_inv in Hw.
  - intros [H _]. assert (Z.of_nat 1 < 1); [apply H; set_solver|lia].
Qed.

(** C5: on the chain A→B→C→D the downstream set of A is {B, C} for
    [max_depth = 2] and {B} for [max_depth = 1]; with [max_depth = 0]
    both traversals return the empty set on every store and every id. *)
Theorem depth_bound_instances {N : Numeric} (c : float) :
  get_downstream_dependencies (chain_store c) "A" 2 = Return {["B"; "C"]} ∧
  get_downstream_dependencies (chain_store c) "A" 1 = Return {["B"]} ∧
  ∀ (self : GraphCodeBERTEmbedder.t) (node_id : string),
    get_downstream_dependencies self node_id 0 = Return ∅ ∧
    get_upstream_dependencies self node_id 0 = Return ∅.
Proof.
  split; [reflexivity|]. split; [reflexivity|].
  intros self node_id.
  unfold get_downstream_dependencies, get_upstream_dependencies.
  destruct (DiGraph.has_node (call_graph self) node_id); simpl; done.
Qed.

(** C6, amended: over a well-formed call graph the start is in the
    result of a traversal exactly when a closed walk of one to
    [max_depth] edges leads from the start back to it. *)
Theorem start_in_result_iff_cycle {N : Numeric} (self : GraphCodeBERTEmbedder.t)
    (start : string) (max_depth : Z) :
  DiGraph.wf (call_graph self) →
  DiGraph.has_node (call_graph self) start = true →
  (∃ r, get_downstream_dependencies self start max_depth = Return r ∧
        (start ∈ r ↔ ∃ k : nat, (1 ≤ k)%nat ∧ Z.of_nat k ≤ max_depth ∧
                        DiGraph.walk (call_graph self) k start start)) ∧
  (∃ r, get_upstream_dependencies self start max_depth = Return r ∧
        (start ∈ r ↔ ∃ k : nat, (1 ≤ k)%nat ∧ Z.of_nat k ≤ max_depth ∧
                        DiGraph.walk (call_graph self) k start start)).
Proof.
  intros Hwf Hstart. split.
  - destruct (get_downstream_dependencies_spec self start max_depth Hwf Hstart)
      as (r & Hr & Hspec). exists r. split; [done|apply Hspec].
  - destruct (get_upstream_dependencies_spec self start max_depth Hwf Hstart)
      as (r & Hr & Hspec). exists r. split; [done|apply Hspec].
Qed.

Lemma start_in_result_iff_cycle_witness :
  ∃ r, get_downstream_dependencies (chain_store (N := binary64) 1%float) "A" 3
       = Return r ∧
       ("A" ∈ r ↔ ∃ k : nat, (1 ≤ k)%nat ∧ Z.of_nat k ≤ 3 ∧
          DiGraph.walk (call_graph (chain_store (N := binary64) 1%float)) k "A" "A").
Proof.
  exact (proj1 (start_in_result_iff_cycle (chain_store (N := binary64) 1%float)
                  "A" 3 (store_of_wf _) eq_refl)).
Defined.

(** Counterexample to C6 without the cycle condition, on the cycle
    A→B→C→A: with [max_depth = 3] the start A is in both results. *)
Lemma start_node_returned_on_cycle :
  (∃ r, get_downstream_dependencies (cycle_store (N := binary64) 1%float) "A" 3
        = Return r ∧ "A" ∈ r) ∧
  (∃ r, get_upstream_dependencies (cycle_store (N := binary64) 1%float) "A" 3
        = Return r ∧ "A" ∈ r).
Proof.
  split; exists {["A"; "B"; "C"]}; (split; [reflexivity|set_solver]).
Qed.
(** Both traversals return on every well-formed call graph, cyclic or
    not, for every bound, and every node they return is within reach. *)
Theorem traversals_return {N : Numeric} (self : GraphCodeBERTEmbedder.t)
    (start : string) (max_depth : Z) :
  DiGraph.wf (call_graph self) →
  DiGraph.has_node (call_graph self) start = true →
  (∃ r, get_downstream_dependencies self start max_depth = Return r ∧
        ∀ v, v ∈ r → ∃ k, DiGraph.walk (call_graph self) k start v) ∧
  (∃ r, get_upstream_dependencies self start max_depth = Return r ∧
        ∀ v, v ∈ r → ∃ k, DiGraph.walk (call_graph self) k v start).
Proof.
  intros Hwf Hstart. split.
  - destruct (get_downstream_dependencies_spec self start max_depth Hwf Hstart)
      as (r & Hr & Hspec). exists r. split; [done|].
    intros v (k & _ & _ & Hw)%Hspec. by exists k.
  - destruct (get_upstream_dependencies_spec self start max_depth Hwf Hstart)
      as (r & Hr & Hspec). exists r. split; [done|].
    intros v (k & _ & _ & Hw)%Hspec. by exists k.
Qed.

Lemma traversals_return_witness :
  returns (get_downstream_dependencies (cycle_store (N := binary64) 1%float) "A" 100) ∧
  returns (get_upstream_dependencies (cycle_store (N := binary64) 1%float) "A" 100).
Proof.
  destruct (traversals_return (cycle_store (N := binary64) 1%float) "A" 100
              (store_of_wf _) eq_refl) as [(r1 & H1 & _) (r2 & H2 & _)].
  split; [by exists r1|by exists r2].
Defined.

(** On the chain A→B→C→D the call path from A to D is the chain, and
    there is none from D to A. *)
Theorem call_path_on_chain {N : Numeric} (c : float) :
  get_call_path (chain_store c) "A" "D" = Return ["A"; "B"; "C"; "D"] ∧
  get_call_path (chain_store c) "D" "A" = Return [].
Proof. split; reflexivity. Qed.
End traversal_claims.

(** ** Relations and edges *)

Section relations.
Import GraphCodeBERTEmbedder.
Context {N : Numeric}.
Implicit Types self : GraphCodeBERTEmbedder.t.

Lemma odict_set_length {K V} `{EqDecision K} (k : K) (v : V) (d : list (K * V)) :
  length (odict.set k v d) = (length d + if odict.mem k d then 0 else 1)%nat.
Proof.
  unfold odict.mem. induction d as [|[k0 v0] d IH]; simpl; [done|].
  destruct (decide (k0 = k)); simpl; [lia|]. rewrite IH. lia.
Qed.

Lemma odict_mem_set_eq {K V} `{EqDecision K} (k : K) (v : V) (d : list (K * V)) :
  odict.mem k (odict.set k v d) = true.
Proof. unfold odict.mem. rewrite odict_get_set. by destruct (decide (k = k)). Qed.

(** C7, amended: two relations on the same ordered pair with different
    kinds are both kept in [code_relations] and both counted by
    [total_relations]; the call graph keeps one edge for the pair, with
    the attributes of the later relation, and [total_edges] grows by
    one if the pair had no edge and not at all if it had one. *)
Theorem parallel_relations_one_edge self (r1 r2 : CodeRelation.t) :
  CodeRelation.source_id r1 = CodeRelation.source_id r2 →
  CodeRelation.target_id r1 = CodeRelation.target_id r2 →
  CodeRelation.relation_type r1 ≠ CodeRelation.relation_type r2 →
  let self2 := (add_code_relation r2 (add_code_relation r1 self).2).2 in
  code_relations self2 = code_relations self ++ [r1; r2] ∧
  total_relations (get_statistics self2) = total_relations (get_statistics self) + 2 ∧
  DiGraph.get_edge_data (call_graph self2)
    (CodeRelation.source_id r1) (CodeRelation.target_id r1)
  = Some (CodeRelation.relation_type r2, CodeRelation.confidence r2) ∧
  total_edges (get_statistics self2)
  = total_edges (get_statistics self)
    + (if odict.mem (CodeRelation.source_id r1, CodeRelation.target_id r1)
            (DiGraph._adj (call_graph self))
       then 0 else 1).
Proof.
  intros Hs Ht _ self2. subst self2. unfold add_code_relation, get_statistics. simpl.
  rewrite <- Hs, <- Ht. split; [by rewrite <- app_assoc|].
  split; [rewrite !length_app, !length_cons, !length_nil; lia|].
  split.
  - unfold DiGraph.get_edge_data, DiGraph.add_edge. simpl.
    rewrite odict_get_set. by destruct (decide _).
  - unfold DiGraph.number_of_edges, DiGraph.add_edge. simpl.
    rewrite !odict_set_length, odict_mem_set_eq.
    destruct (odict.mem _ _); unfold edge_attr; lia.
Qed.

End relations.

Section relations_examples.
Import GraphCodeBERTEmbedder.
Local Existing Instance binary64.

Lemma parallel_relations_one_edge_witness :
  let r1 := calls (N := binary64) 1%float "A" "B" in
  let r2 := CodeRelation.mk (N := binary64) "A" "B" "references" 0.5%float in
  let self2 := (add_code_relation r2 (add_code_relation r1 init).2).2 in
  code_relations self2 = [r1; r2] ∧
  DiGraph.get_edge_data (call_graph self2) "A" "B" = Some ("references", 0.5%float) ∧
  total_edges (get_statistics self2) = 1.
Proof.
  intros r1 r2 self2.
  destruct (parallel_relations_one_edge init r1 r2 eq_refl eq_refl)
    as (Hrel & _ & Hdata & Hedges); [discriminate|].
  split; [exact Hrel|]. split; [exact Hdata|exact Hedges].
Defined.

(** Counterexample to C7 for the edge count, on the empty store: after
    a calls and a references relation from A to B, [get_statistics]
    reports one edge, and the edge carries the later kind only. *)
Lemma parallel_edges_collapse :
  let r1 := calls (N := binary64) 1%float "A" "B" in
  let r2 := CodeRelation.mk (N := binary64) "A" "B" "references" 0.5%float in
  let self2 := (add_code_relation r2 (add_code_relation r1 init).2).2 in
  total_relations (get_statistics self2) = 2 ∧
  total_edges (get_statistics self2) = 1 ∧
  total_edges (get_statistics self2) ≠ total_edges (get_statistics init) + 2 ∧
  DiGraph._adj (call_graph self2) = [(("A", "B"), ("references", 0.5%float))].
Proof. cbv zeta. split; [|split; [|split]]; try reflexivity. vm_compute. discriminate. Qed.
End relations_examples.

(** ** The FAISS backend *)

Section faiss.
Import FAISSInterface.
Context {N : Numeric}.
Implicit Types self : FAISSInterface.t.

Lemma fold_register_next_index (l : list CodeNode.t) self :
  next_index (fold_left register l self) = next_index self + Z.of_nat (length l).
Proof.
  revert self. induction l as [|n l IH]; intros self; simpl; [lia|].
  rewrite IH. simpl. lia.
Qed.

Lemma fold_register_index (l : list CodeNode.t) self :
  index (fold_left register l self) = index self.
Proof.
  revert self. induction l as [|n l IH]; intros self; simpl; [done|].
  by rewrite IH.
Qed.

(** A vector-bearing node of the right width is stored in a new slot. *)
Lemma add_embeddings_single self (node : CodeNode.t) (e : list float) :
  CodeNode.embedding node = Some e →
  Z.of_nat (length e) = d (index self) →
  add_embeddings [node] self
  = (Return (),
     _save_index
       (register
          (set_index (mk_index (d (index self)) (xb (index self) ++ [map as_float32 e]))
             self)
          node)).
Proof.
  intros He Hd. unfold add_embeddings. simpl. rewrite He. simpl.
  unfold index_add. simpl. rewrite length_map.
  rewrite (proj2 (Z.eqb_eq _ _) Hd). simpl.
  rewrite filter_cons. destruct (decide (is_Some (CodeNode.embedding node))) as [?|Hn].
  - done.
  - destruct Hn. by rewrite He.
Qed.

Lemma run_next_index (op : operation) self :
  next_index self ≤ next_index (run op self).
Proof.
  destruct op as [nodes|node|node_id]; simpl.
  - unfold add_embeddings. destruct (omap CodeNode.embedding nodes); [done|].
    destruct (_ ≫= _); simpl; [|done..].
    rewrite fold_register_next_index. simpl. lia.
  - unfold update_node. by destruct (id_to_index self !! _).
  - unfold delete_node. destruct (id_to_index self !! _); [|done].
    destruct (node_metadata self !! _); [|done].
    by destruct (index_to_id self !! _).
Qed.

Lemma run_index_prefix (op : operation) self :
  d (index (run op self)) = d (index self) ∧
  xb (index self) `prefix_of` xb (index (run op self)).
Proof.
  destruct op as [nodes|node|node_id]; simpl.
  - unfold add_embeddings. destruct (omap CodeNode.embedding nodes); [done|].
    destruct (np_array_float32 _) as [a| |]; simpl; [|done..].
    unfold index_add. destruct (forallb _ a); simpl; [|done].
    rewrite fold_register_index. simpl. split; [done|]. by apply prefix_app_r.
  - unfold update_node. by destruct (id_to_index self !! _).
  - unfold delete_node. destruct (id_to_index self !! _); [|done].
    destruct (node_metadata self !! _); [|done].
    by destruct (index_to_id self !! _).
Qed.

(** A vector of another width is refused by [index.add]: nothing is
    stored. *)
Lemma add_embeddings_width self (node : CodeNode.t) (e : list float) :
  CodeNode.embedding node = Some e →
  Z.of_nat (length e) ≠ d (index self) →
  add_embeddings [node] self = (Raise AssertionError, self).
Proof.
  intros He Hd. unfold add_embeddings. simpl. rewrite He. simpl.
  unfold index_add. simpl. rewrite length_map.
  by rewrite (proj2 (Z.eqb_neq _ _) Hd).
Qed.

(** [delete_node] leaves the index and [next_index] as they are. *)
Lemma delete_node_index (node_id : string) self :
  index (delete_node node_id self).2 = index self ∧
  next_index (delete_node node_id self).2 = next_index self.
Proof.
  unfold delete_node. destruct (id_to_index self !! _); [|done].
  destruct (node_metadata self !! _); [|done].
  by destruct (index_to_id self !! _).
Qed.

(** When it returns for an id with a slot, it has deleted the entry
    of the id and the two entries of the slot. *)
Lemma delete_node_tables (node_id : string) (slot : Z) self :
  id_to_index self !! node_id = Some slot →
  (delete_node node_id self).1 = Return () →
  node_metadata (delete_node node_id self).2 = delete slot (node_metadata self) ∧
  id_to_index (delete_node node_id self).2 = delete node_id (id_to_index self) ∧
  index_to_id (delete_node node_id self).2 = delete slot (index_to_id self).
Proof.
  intros Hslot. unfold delete_node. rewrite Hslot.
  destruct (node_metadata self !! slot); [|done].
  by destruct (index_to_id self !! slot).
Qed.

(** An id filed under another slot keeps its record. *)
Lemma delete_node_other (node_id other : string) self :
  id_to_index self !! other ≠ id_to_index self !! node_id →
  get_node (delete_node node_id self).2 other = get_node self other.
Proof.
  intros Hne. unfold delete_node.
  destruct (id_to_index self !! node_id) as [slot|] eqn:Hslot; [|done].
  assert (Hother : other ≠ node_id) by (intros ->; by rewrite Hslot in Hne).
  assert (Hget : ∀ nm : gmap Z CodeNode.t,
            match delete node_id (id_to_index self) !! other with
            | Some index_ => delete slot nm !! index_
            | None => None
            end
            = match id_to_index self !! other with
              | Some index_ => nm !! index_
              | None => None
              end).
  { intros nm. rewrite lookup_delete_ne by done.
    destruct (id_to_index self !! other) as [slot'|] eqn:Hslot'; [|done].
    apply lookup_delete_ne. congruence. }
  destruct (node_metadata self !! slot); [|done].
  destruct (index_to_id self !! slot); unfold get_node; simpl; apply Hget.
Qed.

Lemma upsert_remove_spec self (node : CodeNode.t) (e : list float) :
  CodeNode.embedding node = Some e →
  Z.of_nat (length e) = d (index self) →
  (add_embeddings [node] self).1 = Return () ∧
  (delete_node (CodeNode.id node) (add_embeddings [node] self).2).1 = Return () ∧
  next_index (upsert_remove node self) = next_index self + 1 ∧
  xb (index (upsert_remove node self)) = xb (index self) ++ [map as_float32 e] ∧
  d (index (upsert_remove node self)) = d (index self) ∧
  get_node (upsert_remove node self) (CodeNode.id node) = None ∧
  node_metadata (upsert_remove node self)
  = delete (next_index self) (node_metadata self) ∧
  id_to_index (upsert_remove node self)
  = delete (CodeNode.id node) (id_to_index self) ∧
  index_to_id (upsert_remove node self)
  = delete (next_index self) (index_to_id self).
Proof.
  intros He Hd. unfold upsert_remove.
  rewrite (add_embeddings_single self node e He Hd). simpl.
  unfold delete_node. simpl. rewrite !lookup_insert_eq. simpl.
  split; [done|]. split; [done|]. split; [done|]. split; [done|]. split; [done|].
  split; [unfold get_node; simpl; by rewrite lookup_delete_eq|].
  by rewrite !delete_insert_eq.
Qed.

Lemma upsert_remove_iter self (node : CodeNode.t) (e : list float) (n : nat) :
  CodeNode.embedding node = Some e →
  Z.of_nat (length e) = d (index self) →
  d (index (Nat.iter n (upsert_remove node) self)) = d (index self) ∧
  next_index (Nat.iter n (upsert_remove node) self) = next_index self + Z.of_nat n ∧
  slots (Nat.iter n (upsert_remove node) self) = slots self + Z.of_nat n.
Proof.
  intros He Hd. induction n as [|n (IHd & IHn & IHs)]; simpl; [lia|].
  rewrite <- IHd in Hd.
  destruct (upsert_remove_spec _ node e He Hd) as (_ & _ & Hn & Hxb & Hd' & _).
  split; [congruence|]. split; [lia|].
  unfold slots, ntotal in *. rewrite Hxb, length_app. simpl. lia.
Qed.

(** C9, amended: on the FAISS backend no call lowers [next_index] or
    the number of vectors in the index, whose rows only grow at the
    end. [delete_node] leaves the index and [next_index] as they are;
    when it returns for an id that has a slot it has deleted the
    entry of the id in [id_to_index] and the entries of that slot in
    [node_metadata] and [index_to_id], nothing else, and for an id
    without a slot it changes nothing; the record [get_node] finds
    for an id filed under another slot is the one it found before.
    One [add_embeddings([node])] then [delete_node(node.id)] of a node
    whose vector has the width of the index succeeds, raises
    [next_index] and the number of vectors by one, and leaves the
    tables as they were but for the id and the new slot; [n] such
    cycles raise both by [n]. With a vector of another width
    [add_embeddings] raises and the cycle raises neither. *)
Theorem exact_backend_slot_growth self :
  (∀ op : operation,
     next_index self ≤ next_index (run op self) ∧
     slots self ≤ slots (run op self) ∧
     xb (index self) `prefix_of` xb (index (run op self))) ∧
  (∀ node_id : string,
     index (delete_node node_id self).2 = index self ∧
     next_index (delete_node node_id self).2 = next_index self ∧
     (id_to_index self !! node_id = None →
      delete_node node_id self = (Return (), self)) ∧
     (∀ slot : Z,
        id_to_index self !! node_id = Some slot →
        (delete_node node_id self).1 = Return () →
        node_metadata (delete_node node_id self).2
        = delete slot (node_metadata self) ∧
        id_to_index (delete_node node_id self).2
        = delete node_id (id_to_index self) ∧
        index_to_id (delete_node node_id self).2
        = delete slot (index_to_id self)) ∧
     (∀ other : string,
        id_to_index self !! other ≠ id_to_index self !! node_id →
        get_node (delete_node node_id self).2 other = get_node self other)) ∧
  (∀ (node : CodeNode.t) (e : list float),
     CodeNode.embedding node = Some e →
     (Z.of_nat (length e) = d (index self) →
      (add_embeddings [node] self).1 = Return () ∧
      (delete_node (CodeNode.id node) (add_embeddings [node] self).2).1 = Return () ∧
      next_index (upsert_remove node self) = next_index self + 1 ∧
      slots (upsert_remove node self) = slots self + 1 ∧
      xb (index (upsert_remove node self)) = xb (index self) ++ [map as_float32 e] ∧
      get_node (upsert_remove node self) (CodeNode.id node) = None ∧
      node_metadata (upsert_remove node self)
      = delete (next_index self) (node_metadata self) ∧
      id_to_index (upsert_remove node self)
      = delete (CodeNode.id node) (id_to_index self) ∧
      index_to_id (upsert_remove node self)
      = delete (next_index self) (index_to_id self) ∧
      ∀ n : nat,
        next_index (Nat.iter n (upsert_remove node) self)
        = next_index self + Z.of_nat n ∧
        slots (Nat.iter n (upsert_remove node) self) = slots self + Z.of_nat n) ∧
     (Z.of_nat (length e) ≠ d (index self) →
      add_embeddings [node] self = (Raise AssertionError, self) ∧
      next_index (upsert_remove node self) = next_index self ∧
      slots (upsert_remove node self) = slots self)).
Proof.
  split; [|split].
  - intros op. split; [apply run_next_index|].
    destruct (run_index_prefix op self) as [_ Hp]. split; [|done].
    unfold slots, ntotal. apply prefix_length in Hp. lia.
  - intros node_id.
    destruct (delete_node_index node_id self) as [Hi Hn].
    split; [done|]. split; [done|]. split; [|split].
    + intros Hnone. unfold delete_node. by rewrite Hnone.
    + intros slot. apply delete_node_tables.
    + intros other. apply delete_node_other.
  - intros node e He. split.
    + intros Hd.
      destruct (upsert_remove_spec self node e He Hd)
        as (Ha & Hdel & Hn & Hxb & _ & Hg & Hnm & Hid & Hix).
      split; [done|]. split; [done|]. split; [done|]. split.
      { unfold slots, ntotal. rewrite Hxb, length_app. simpl. lia. }
      split; [done|]. split; [done|]. split; [done|]. split; [done|].
      split; [done|].
      intros n. by destruct (upsert_remove_iter self node e n He Hd) as (_ & ? & ?).
    + intros Hd. pose proof (add_embeddings_width self node e He Hd) as Hadd.
      split; [done|]. unfold upsert_remove, slots. rewrite Hadd. simpl.
      destruct (delete_node_index (CodeNode.id node) self) as [Hi Hn].
      by rewrite Hi, Hn.
Qed.

End faiss.

Section faiss_examples.
Import FAISSInterface.
Local Existing Instance binary64.

(** Three cycles of "a" on an instance that holds "b": the counters
    go from 1 to 4, and "b" keeps its record through the
    [delete_node] of "a". *)
Lemma exact_backend_slot_growth_witness :
  let a := node64 "a" "int f()" (Some [1%float; 0%float]) in
  let b := node64 "b" "int g()" (Some [0%float; 1%float]) in
  let self := (add_embeddings [b] (init 2)).2 in
  let added := (add_embeddings [a] self).2 in
  next_index (Nat.iter 3 (upsert_remove a) self) = 4 ∧
  slots (Nat.iter 3 (upsert_remove a) self) = 4 ∧
  id_to_index (upsert_remove a self) = id_to_index self ∧
  node_metadata (delete_node "a" added).2 = delete 1 (node_metadata added) ∧
  get_node (delete_node "a" added).2 "b" = Some b.
Proof.
  intros a b self added.
  destruct (exact_backend_slot_growth self) as (_ & _ & Hcycle).
  destruct (Hcycle a [1%float; 0%float] eq_refl) as [Hgrow _].
  destruct (Hgrow eq_refl) as (_ & _ & _ & _ & _ & _ & _ & Hid & _ & Hn).
  destruct (Hn 3%nat) as [Hnext Hslots].
  destruct (exact_backend_slot_growth added) as (_ & Hdelete & _).
  destruct (Hdelete "a") as (_ & _ & _ & Htables & Hother).
  destruct (Htables 1 eq_refl eq_refl) as (Hnm & _ & _).
  split; [exact Hnext|]. split; [exact Hslots|].
  split; [rewrite Hid; reflexivity|]. split; [exact Hnm|].
  rewrite Hother; [reflexivity|]. vm_compute. discriminate.
Defined.

(** Counterexample to C9 for every vector-bearing node: the vector of
    "a" has one component, the index two. [add_embeddings] raises and
    nothing is stored: after the cycle [next_index] and the number of
    vectors are what they were. *)
Lemma slot_growth_needs_width :
  let node := node64 "a" "int f()" (Some [1%float]) in
  let self := (add_embeddings [node64 "b" "int g()" (Some [0%float; 1%float])]
                 (init 2)).2 in
  CodeNode.embedding node = Some [1%float] ∧
  (add_embeddings [node] self).1 = Raise AssertionError ∧
  next_index self = 1 ∧
  slots self = 1 ∧
  next_index (upsert_remove node self) = 1 ∧
  slots (upsert_remove node self) = 1.
Proof. repeat split; reflexivity. Qed.

End faiss_examples.

(** ** Hybrid search *)

Section hybrid.
Import JavaCodeEmbeddingSystem.
Context {N : Numeric} {S : Type} {DB : VectorDatabaseInterface S}.
Variable encode_code : string → outcome (list float).
Implicit Types self : JavaCodeEmbeddingSystem.t S.

(** C2, amended: when the query is embedded and the local ranking
    succeeds, a failure of the backend's [search] is the outcome of
    [search_similar_code] (the exception propagates, no result list is
    returned); when the backend's [search] returns, the result is the
    local ranking, whatever the backend returned. *)
Theorem backend_failure_propagates self (query_code : string) (top_k : Z)
    (query_embedding : list float) :
  encode_code query_code = Return query_embedding →
  (∀ e, search (vector_db self) query_embedding top_k = Raise e →
        returns (local_ranking encode_code self query_code top_k) →
        search_similar_code encode_code self query_code top_k = Raise e) ∧
  (∀ db_results, search (vector_db self) query_embedding top_k = Return db_results →
        search_similar_code encode_code self query_code top_k
        = local_ranking encode_code self query_code top_k).
Proof.
  intros Hq. unfold search_similar_code, local_ranking. split.
  - intros e He [hits Hhits].
    destruct (GraphCodeBERTEmbedder.get_similar_nodes _ _ _ _); simpl in *; [|done..].
    by rewrite Hq; simpl; rewrite He.
  - intros db_results Hdb.
    destruct (GraphCodeBERTEmbedder.get_similar_nodes _ _ _ _); simpl; [|done..].
    by rewrite Hq; simpl; rewrite Hdb.
Qed.
End hybrid.

Section hybrid_examples.
Import JavaCodeEmbeddingSystem.
Local Existing Instance binary64.

Lemma backend_failure_propagates_witness :
  local_ranking encode64 system64 "class X" 2 = Return hits64 ∧
  search_similar_code (DB := failing_backend) encode64 system64 "class X" 2
  = Raise unavailable.
Proof.
  split; [reflexivity|].
  apply (proj1 (backend_failure_propagates (DB := failing_backend) encode64 system64
                  "class X" 2 [1%float; 0%float] eq_refl));
    [reflexivity|by exists hits64].
Defined.

(** Counterexample to C2 with a degraded result: with the backend
    down, the local ranking of the populated system is a list of two
    hits, and [search_similar_code] raises instead of returning it; the
    same happens over the FAISS wrapper when its [search] raises. *)
Lemma hybrid_degrade_fails :
  local_ranking encode64 system64 "class X" 2 = Return hits64 ∧
  @search binary64 unit failing_backend (vector_db system64) [1%float; 0%float] 2
  = Raise unavailable ∧
  search_similar_code (DB := failing_backend) encode64 system64 "class X" 2
  = Raise unavailable ∧
  local_ranking encode64 faiss_system64 "class X" 2 = Return hits64 ∧
  FAISSInterface.search (vector_db faiss_system64) [1%float; 0%float] 2
  = Raise AssertionError ∧
  search_similar_code encode64 faiss_system64 "class X" 2 = Raise AssertionError.
Proof. repeat split; reflexivity. Qed.
End hybrid_examples.

(** ** Snapshots *)

Section snapshot.
Import GraphCodeBERTEmbedder.
Context {N : Numeric}.
Implicit Types self : GraphCodeBERTEmbedder.t.

Lemma json_dump_PyDict_cons (k : string) (v : pyval) (d : list (string * pyval)) :
  json_dump (PyDict ((k, v) :: d))
  = j ← json_dump v;
    r ← json_dump (PyDict d);
    match r with
    | JDict js => Return (JDict ((k, j) :: js))
    | _ => Return r
    end.
Proof.
  simpl. destruct (json_dump v) as [j| |]; simpl; [|done..].
  match goal with |- context [mbind _ (?f d)] => destruct (f d) end; done.
Qed.

Lemma json_dump_node_entry (item : string * CodeNode.t) :
  json_dump (node_entry item).2
  = match CodeNode.embedding item.2 with
    | Some _ => Raise ndarray_error
    | None => json_dump (node_entry item).2
    end.
Proof.
  unfold node_entry. destruct item as [k [i f t n c sl el [a|]]]; reflexivity.
Qed.

Lemma json_dump_node_entry_total (item : string * CodeNode.t) :
  json_dump (node_entry item).2 = Raise ndarray_error ∨
  returns (json_dump (node_entry item).2).
Proof.
  unfold node_entry. destruct item as [k [i f t n c sl el [a|]]]; simpl.
  - by left.
  - right. by eexists.
Qed.

Lemma json_dump_nodes_raise (items : list (string * CodeNode.t)) :
  (∃ item e, item ∈ items ∧ CodeNode.embedding item.2 = Some e) →
  json_dump (PyDict (map node_entry items)) = Raise ndarray_error.
Proof.
  induction items as [|item items IH]; intros (x & e & Hin & He).
  - by apply elem_of_nil in Hin.
  - change (map node_entry (item :: items))
      with (((node_entry item).1, (node_entry item).2) :: map node_entry items).
    rewrite json_dump_PyDict_cons.
    apply elem_of_cons in Hin as [->|Hin].
    + by rewrite json_dump_node_entry, He.
    + rewrite IH by (by exists x, e).
      by destruct (json_dump_node_entry_total item) as [->|[j ->]].
Qed.

(** C1, on the code: [export_embeddings] raises [TypeError] on every
    store that holds a node with an embedding, since the metadata
    built by [asdict] carries the array itself. *)
Theorem export_embeddings_raises self (node_id : string) (node : CodeNode.t)
    (e : list float) :
  (node_id, node) ∈ code_nodes self →
  CodeNode.embedding node = Some e →
  export_embeddings self = Raise ndarray_error.
Proof.
  intros Hin He. unfold export_embeddings, export_data.
  rewrite json_dump_PyDict_cons.
  rewrite json_dump_nodes_raise; [done|].
  by exists (node_id, node), e.
Qed.

Lemma odict_set_elem_self {K V} `{EqDecision K} (k : K) (v : V) (d : list (K * V)) :
  (k, v) ∈ odict.set k v d.
Proof.
  induction d as [|[k0 v0] d IH]; simpl; [by left|].
  destruct (decide (k0 = k)) as [->|?]; [by left|by right].
Qed.

(** Every node stored by [add_code_node] carries an embedding, so no
    store can be exported once a node has been added. *)
Lemma export_after_add_code_node (encode_code : string → outcome (list float)) self
    (node : CodeNode.t) (e : list float) :
  encode_code (CodeNode.code node) = Return e →
  export_embeddings (add_code_node encode_code node self).2 = Raise ndarray_error.
Proof.
  intros He. unfold add_code_node. rewrite He.
  unfold export_embeddings, export_data.
  rewrite json_dump_PyDict_cons, json_dump_nodes_raise; [done|].
  exists (CodeNode.id node, CodeNode.with_embedding (Some e) node), e.
  split; [|done]. simpl. apply odict_set_elem_self.
Qed.

Lemma load_nodes_cons (k : string) (v : json) (items : list (string * json)) self :
  load_nodes ((k, v) :: items) self
  = match load_node v with
    | Some (Return node) =>
        load_nodes items
          (mk (odict.set k node (code_nodes self)) (code_relations self)
              (DiGraph.add_node k node (call_graph self)))
    | Some (Raise e) => Some (Raise e, self)
    | Some Diverge => Some (Diverge, self)
    | None => None
    end.
Proof. done. Qed.

Lemma load_relations_cons (rel_data : json) (rels : list json) self :
  load_relations (rel_data :: rels) self
  = match CodeRelation_of_kwargs rel_data with
    | Some (Return relation) => load_relations rels (add_code_relation relation self).2
    | Some (Raise e) => Some (Raise e, self)
    | Some Diverge => Some (Diverge, self)
    | None => None
    end.
Proof. done. Qed.






End snapshot.

(** ** Round trip of a store without embeddings *)

Section round_trip.
Import GraphCodeBERTEmbedder.
Context {N : Numeric}.
Implicit Types self : GraphCodeBERTEmbedder.t.

Lemma json_dump_PyList_cons (v : pyval) (l : list pyval) :
  json_dump (PyList (v :: l))
  = j ← json_dump v;
    r ← json_dump (PyList l);
    match r with
    | JList js => Return (JList (j :: js))
    | _ => Return r
    end.
Proof.
  simpl. destruct (json_dump v) as [j| |]; simpl; [|done..].
  match goal with |- context [mbind _ (?f l)] => destruct (f l) end; done.
Qed.

Lemma json_dump_nodes_ok (items : list (string * CodeNode.t)) :
  (∀ item, item ∈ items → CodeNode.embedding item.2 = None) →
  json_dump (PyDict (map node_entry items))
  = Return (JDict (map (λ item, (item.1, node_record item.2)) items)).
Proof.
  induction items as [|item items IH]; intros Hnone; [done|].
  change (map node_entry (item :: items))
    with (((node_entry item).1, (node_entry item).2) :: map node_entry items).
  rewrite json_dump_PyDict_cons, IH by (intros x Hx; apply Hnone; by right).
  assert (He : CodeNode.embedding item.2 = None) by (apply Hnone; by left).
  destruct item as [k [i f t n c sl el e]]. simpl in He. by subst e.
Qed.

Lemma json_dump_relations_ok (rels : list CodeRelation.t) :
  json_dump (PyList (map asdict_relation rels))
  = Return (JList (map relation_record rels)).
Proof.
  induction rels as [|[s t k c] rels IH]; [done|].
  change (map asdict_relation (CodeRelation.mk s t k c :: rels))
    with (asdict_relation (CodeRelation.mk s t k c) :: map asdict_relation rels).
  by rewrite json_dump_PyList_cons, IH.
Qed.

Lemma export_embeddings_ok self :
  (∀ item, item ∈ code_nodes self → CodeNode.embedding item.2 = None) →
  export_embeddings self = Return (snapshot_of self).
Proof.
  intros Hnone. unfold export_embeddings, export_data.
  rewrite !json_dump_PyDict_cons, json_dump_nodes_ok, json_dump_relations_ok; done.
Qed.

Lemma load_node_record (node : CodeNode.t) :
  CodeNode.embedding node = None → load_node (node_record node) = Some (Return node).
Proof. destruct node as [i f t n c sl el e]. simpl. by intros ->. Qed.

Lemma CodeRelation_of_record (rel : CodeRelation.t) :
  CodeRelation_of_kwargs (relation_record rel) = Some (Return rel).
Proof. by destruct rel. Qed.

Lemma load_nodes_records (items : list (string * CodeNode.t)) self :
  (∀ item, item ∈ items → CodeNode.embedding item.2 = None) →
  load_nodes (map (λ item, (item.1, node_record item.2)) items) self
  = Some
      (Return (),
       fold_left
         (λ self item,
            mk (odict.set item.1 item.2 (code_nodes self)) (code_relations self)
               (DiGraph.add_node item.1 item.2 (call_graph self)))
         items self).
Proof.
  revert self. induction items as [|[k node] items IH]; intros self Hnone; [done|].
  change (map (λ item, (item.1, node_record item.2)) ((k, node) :: items))
    with ((k, node_record node) :: map (λ item, (item.1, node_record item.2)) items).
  rewrite load_nodes_cons, load_node_record by (apply (Hnone (k, node)); by left).
  apply IH. intros x Hx. apply Hnone. by right.
Qed.

Lemma load_relations_records (rels : list CodeRelation.t) self :
  load_relations (map relation_record rels) self
  = Some (Return (), fold_left (λ self r, (add_code_relation r self).2) rels self).
Proof.
  revert self. induction rels as [|r rels IH]; intros self; [done|].
  change (map relation_record (r :: rels))
    with (relation_record r :: map relation_record rels).
  rewrite load_relations_cons, CodeRelation_of_record. apply IH.
Qed.

Lemma odict_set_fresh {K V} `{EqDecision K} (k : K) (v : V) (d : list (K * V)) :
  k ∉ odict.keys d → odict.set k v d = d ++ [(k, v)].
Proof.
  unfold odict.keys. induction d as [|[k0 v0] d IH]; simpl; [done|].
  intros Hk. apply not_elem_of_cons in Hk as [Hne Hk].
  destruct (decide (k0 = k)); [congruence|]. by rewrite IH.
Qed.

Lemma fold_add_nodes (items d : list (string * CodeNode.t))
    (rels : list CodeRelation.t) (G : DiGraph.t CodeNode.t edge_attr) :
  NoDup (odict.keys (d ++ items)) →
  let self' :=
    fold_left
      (λ self item,
         mk (odict.set item.1 item.2 (code_nodes self)) (code_relations self)
            (DiGraph.add_node item.1 item.2 (call_graph self)))
      items (mk d rels G) in
  code_nodes self' = d ++ items ∧ code_relations self' = rels.
Proof.
  revert d G. induction items as [|[k node] items IH]; intros d G Hnd; simpl.
  - by rewrite app_nil_r.
  - assert (Hk : k ∉ odict.keys d).
    { unfold odict.keys in *. rewrite map_app in Hnd.
      apply NoDup_app in Hnd as (_ & Hdis & _). intros Hin.
      apply (Hdis k Hin). by left. }
    rewrite (odict_set_fresh k node d Hk).
    replace (d ++ (k, node) :: items) with ((d ++ [(k, node)]) ++ items)
      by (by rewrite <- app_assoc).
    apply IH. by rewrite <- app_assoc.
Qed.

Lemma fold_add_relations (rels : list CodeRelation.t) self :
  let self' := fold_left (λ self r, (add_code_relation r self).2) rels self in
  code_nodes self' = code_nodes self ∧
  code_relations self' = code_relations self ++ rels.
Proof.
  revert self. induction rels as [|r rels IH]; intros self; simpl.
  - by rewrite app_nil_r.
  - destruct (IH (add_code_relation r self).2) as [Hn Hr].
    simpl in *. rewrite Hn, Hr. by rewrite <- app_assoc.
Qed.

(** A store whose nodes carry no embedding is exported, and loading
    the document into an empty store gives back its nodes, in order,
    and its relations, in order. *)
Theorem round_trip_without_embeddings self :
  (∀ item, item ∈ code_nodes self → CodeNode.embedding item.2 = None) →
  NoDup (odict.keys (code_nodes self)) →
  export_embeddings self = Return (snapshot_of self) ∧
  load_embeddings (snapshot_of self) init
  = Some (Return (), loaded_store (code_nodes self) (code_relations self)) ∧
  code_nodes (loaded_store (code_nodes self) (code_relations self))
  = code_nodes self ∧
  code_relations (loaded_store (code_nodes self) (code_relations self))
  = code_relations self.
Proof.
  intros Hnone Hnd. split; [by apply export_embeddings_ok|].
  split.
  - unfold load_embeddings, snapshot_of, loaded_store. simpl.
    rewrite load_nodes_records by done. simpl.
    by rewrite load_relations_records.
  - unfold loaded_store, init.
    destruct (fold_add_nodes (code_nodes self) [] [] DiGraph.empty Hnd) as [Hn Hr].
    match goal with |- context [fold_left ?f (code_relations self) ?s] =>
      destruct (fold_add_relations (code_relations self) s) as [Hn' Hr'] end.
    cbv zeta in *. rewrite Hn', Hr', Hn, Hr. done.
Qed.
End round_trip.

Section snapshot_examples.
Import GraphCodeBERTEmbedder.
Local Existing Instance binary64.

Lemma export_embeddings_raises_witness :
  let node := node64 "Demo.f" "int f()" None in
  let self := (add_code_node encode64 node init).2 in
  code_nodes self = [("Demo.f", node64 "Demo.f" "int f()" (Some [0%float; 1%float]))] ∧
  export_embeddings self = Raise ndarray_error.
Proof.
  intros node self. split; [reflexivity|].
  apply (export_embeddings_raises self "Demo.f"
           (node64 "Demo.f" "int f()" (Some [0%float; 1%float])) [0%float; 1%float]);
    [by left|reflexivity].
Defined.



End snapshot_examples.

Section round_trip_examples.
Import GraphCodeBERTEmbedder.
Local Existing Instance binary64.

Lemma round_trip_without_embeddings_witness :
  let self :=
    mk [("Demo.f", node64 "Demo.f" "int f()" None)]
       [calls 1%float "Demo.f" "Demo.g"] DiGraph.empty in
  export_embeddings self = Return (snapshot_of self) ∧
  ∃ loaded,
    load_embeddings (snapshot_of self) init = Some (Return (), loaded) ∧
    code_nodes loaded = code_nodes self ∧
    code_relations loaded = code_relations self.
Proof.
  intros self.
  destruct (round_trip_without_embeddings self) as (Hexp & Hload & Hn & Hr).
  - intros item ->%list_elem_of_singleton. reflexivity.
  - apply NoDup_singleton.
  - split; [exact Hexp|]. eexists. split; [exact Hload|]. split; [exact Hn|exact Hr].
Defined.
End round_trip_examples.

(** ** Preprocessing of code text *)

Section preprocess.
Import pystr GraphCodeBERTEmbedder.

Lemma lstrip_head (s : list ascii) (c : ascii) :
  head (lstrip s) = Some c → isspace c = false.
Proof.
  induction s as [|a s IH]; simpl; [done|].
  destruct (isspace a) eqn:Ha; [done|]. simpl. by intros [= <-].
Qed.

Lemma lstrip_id (s : list ascii) :
  (∀ c, head s = Some c → isspace c = false) → lstrip s = s.
Proof.
  destruct s as [|a s]; simpl; [done|]. intros H. by rewrite (H a eq_refl).
Qed.

Lemma lstrip_suffix (s : list ascii) : lstrip s `suffix_of` s.
Proof.
  induction s as [|a s IH]; simpl; [done|].
  destruct (isspace a); [by apply suffix_cons_r|done].
Qed.

Lemma rstrip_prefix (s : list ascii) : rstrip s `prefix_of` s.
Proof.
  unfold rstrip. destruct (lstrip_suffix (reverse s)) as [k Hk].
  exists (reverse k). apply (inj reverse).
  by rewrite reverse_app, !reverse_involutive.
Qed.

Lemma rstrip_last (s : list ascii) (c : ascii) :
  last (rstrip s) = Some c → isspace c = false.
Proof. unfold rstrip. rewrite last_reverse. apply lstrip_head. Qed.

Lemma rstrip_id (s : list ascii) :
  (∀ c, last s = Some c → isspace c = false) → rstrip s = s.
Proof.
  intros H. unfold rstrip. rewrite lstrip_id; [apply reverse_involutive|].
  intros c Hc. apply H. by rewrite <- head_reverse.
Qed.

(** A text is trimmed when neither end is a space. *)
Definition trimmed (s : list ascii) : Prop :=
  (∀ c, head s = Some c → isspace c = false) ∧
  (∀ c, last s = Some c → isspace c = false).

Lemma strip_trimmed (s : list ascii) : trimmed (strip s).
Proof.
  unfold strip. split; [|apply rstrip_last].
  intros c Hc. apply (lstrip_head s).
  destruct (rstrip_prefix (lstrip s)) as [k Hk].
  destruct (rstrip (lstrip s)) as [|a r]; [done|].
  rewrite Hk. simpl in *. done.
Qed.

Lemma trimmed_strip (s : list ascii) : trimmed s → strip s = s.
Proof. intros [Hh Hl]. unfold strip. by rewrite lstrip_id, rstrip_id. Qed.

Lemma strip_sublist (s : list ascii) (c : ascii) : c ∈ strip s → c ∈ s.
Proof.
  intros Hc. unfold strip in Hc.
  destruct (rstrip_prefix (lstrip s)) as [k Hk].
  destruct (lstrip_suffix s) as [k' Hk'].
  rewrite Hk', Hk. set_solver.
Qed.

Lemma split_not_nil (sep : ascii) (s : list ascii) : split sep s ≠ [].
Proof.
  induction s as [|c s IH]; simpl; [done|].
  destruct (decide (c = sep)); [done|]. by destruct (split sep s).
Qed.

Lemma split_no_sep (sep : ascii) (s piece : list ascii) :
  piece ∈ split sep s → sep ∉ piece.
Proof.
  revert piece. induction s as [|c s IH]; intros piece; simpl.
  - intros ->%list_elem_of_singleton. by intros ?%elem_of_nil.
  - destruct (decide (c = sep)) as [->|Hne].
    + intros [->|?]%elem_of_cons; [by intros ?%elem_of_nil|by apply IH].
    + destruct (split sep s) as [|p ps] eqn:Hsp.
      * intros ->%list_elem_of_singleton. set_solver.
      * intros [->|?]%elem_of_cons.
        -- intros [?|?]%elem_of_cons; [done|]. apply (IH p); [by left|done].
        -- apply IH. by right.
Qed.

Lemma split_one (sep : ascii) (s : list ascii) : sep ∉ s → split sep s = [s].
Proof.
  induction s as [|c s IH]; simpl; [done|].
  intros Hs. apply not_elem_of_cons in Hs as [Hc Hs].
  rewrite decide_False by done. by rewrite IH.
Qed.

Lemma join_elem (sep : list ascii) (pieces : list (list ascii)) (c : ascii) :
  c ∈ join sep pieces → c ∈ sep ∨ ∃ piece, piece ∈ pieces ∧ c ∈ piece.
Proof.
  induction pieces as [|p ps IH]; simpl; [by intros ?%elem_of_nil|].
  destruct ps as [|p' ps'].
  - intros Hc. right. exists p. split; [by left|done].
  - intros [Hc|[Hc|Hc]%elem_of_app]%elem_of_app.
    + right. exists p. split; [by left|done].
    + by left.
    + destruct (IH Hc) as [?|(q & Hq & ?)]; [by left|].
      right. exists q. split; [by right|done].
Qed.

Lemma join_trimmed (sep : list ascii) (pieces : list (list ascii)) :
  Forall (λ piece, piece ≠ [] ∧ trimmed piece) pieces →
  trimmed (join sep pieces).
Proof.
  induction pieces as [|p ps IH]; intros Hall; [by split|].
  apply Forall_cons in Hall as [[Hp [Hh Hl]] Hall].
  specialize (IH Hall). destruct ps as [|p' ps']; [by split|].
  change (join sep (p :: p' :: ps')) with (p ++ sep ++ join sep (p' :: ps')).
  apply Forall_cons in Hall as [[Hp' _] _].
  assert (Hj : join sep (p' :: ps') ≠ []).
  { simpl. destruct ps'; [done|]. by destruct p'. }
  split.
  - intros c Hc. apply Hh. by destruct p.
  - intros c Hc. apply (proj2 IH).
    rewrite !last_app in Hc.
    destruct (last (join sep (p' :: ps'))) eqn:Hlast; [done|].
    by apply last_None in Hlast.
Qed.

Lemma preprocess_chars_pieces (code : list ascii) :
  Forall (λ piece, piece ≠ [] ∧ trimmed piece)
    (filter (λ line, line ≠ []) (map strip (split newline (strip code)))).
Proof.
  apply Forall_forall. intros piece [Hne Hin]%list_elem_of_filter.
  split; [done|]. apply list_elem_of_fmap in Hin as (line & -> & _).
  apply strip_trimmed.
Qed.

Lemma preprocess_chars_no_newline (code : list ascii) :
  newline ∉ preprocess_chars code.
Proof.
  unfold preprocess_chars.
  intros [Hc|(piece & Hin & Hc)]%join_elem.
  - by apply list_elem_of_singleton in Hc.
  - apply list_elem_of_filter in Hin as [_ Hin].
    apply list_elem_of_fmap in Hin as (line & -> & Hline).
    apply strip_sublist in Hc. by apply (split_no_sep _ _ _ Hline).
Qed.

Lemma preprocess_chars_trimmed (code : list ascii) :
  trimmed (preprocess_chars code).
Proof. apply join_trimmed, preprocess_chars_pieces. Qed.

Lemma preprocess_chars_idempotent (code : list ascii) :
  preprocess_chars (preprocess_chars code)
  = preprocess_chars code.
Proof.
  set (p := preprocess_chars code).
  unfold preprocess_chars at 1.
  rewrite (trimmed_strip p) by apply preprocess_chars_trimmed.
  rewrite (split_one newline p) by apply preprocess_chars_no_newline.
  simpl map. rewrite (trimmed_strip p) by apply preprocess_chars_trimmed.
  rewrite filter_cons, filter_nil. destruct (decide (p ≠ [])) as [?|Hp]; [done|].
  apply dec_stable in Hp. by rewrite Hp.
Qed.

(** [_preprocess_code] is idempotent; its result holds no newline and
    neither starts nor ends with a space character. *)
Theorem preprocess_code_idempotent (code : string) :
  _preprocess_code (_preprocess_code code)
  = _preprocess_code code ∧
  (newline ∉ String.list_ascii_of_string (_preprocess_code code)) ∧
  trimmed (String.list_ascii_of_string (_preprocess_code code)).
Proof.
  unfold _preprocess_code.
  rewrite !String.list_ascii_of_string_of_list_ascii, preprocess_chars_idempotent.
  split; [done|]. split; [apply preprocess_chars_no_newline|apply preprocess_chars_trimmed].
Qed.
End preprocess.

(** ** Batched encoding *)

Section batches.
Import GraphCodeBERTEmbedder.
Context {N : Numeric}.
Variable embed : string → outcome (list float).
Variable embed_batch : list string → outcome (list (list float)).

Lemma mapM_app {A B} (f : A → outcome B) (l1 l2 : list A) :
  mapM f (l1 ++ l2) = a ← mapM f l1; b ← mapM f l2; Return (a ++ b).
Proof.
  induction l1 as [|x l1 IH]; simpl.
  - by destruct (mapM f l2).
  - destruct (f x); simpl; [|done..]. rewrite IH.
    destruct (mapM f l1); simpl; [|done..]. by destruct (mapM f l2).
Qed.

Lemma mapM_fmap {A B C} (g : A → B) (f : B → outcome C) (l : list A) :
  mapM f (map g l) = mapM (λ a, f (g a)) l.
Proof. induction l as [|x l IH]; simpl; [done|]. by rewrite IH. Qed.

Lemma take_add_drop {A} (n m : nat) (l : list A) :
  take (n + m) l = take n l ++ take m (drop n l).
Proof.
  revert l. induction n as [|n IH]; intros l; [done|].
  destruct l as [|x l]; simpl; [by rewrite take_nil|]. by rewrite IH.
Qed.

(** The batches are the consecutive blocks of [b] codes. *)
Lemma batch_loop_blocks (b : nat) (codes : list string) (m k : nat)
    (embeddings : list (list float)) :
  (0 < b)%nat →
  (∀ l, embed_batch l = mapM embed l) →
  batch_loop embed_batch
    (map (λ j : nat, Z.of_nat (k + j) * Z.of_nat b) (seq 0 m)) codes (Z.of_nat b)
    embeddings
  = r ← mapM (encode_code embed) (take (m * b) (drop (k * b) codes));
    Return (embeddings ++ r).
Proof.
  intros Hb Hrow. revert k embeddings.
  induction m as [|m IH]; intros k embeddings.
  - simpl. by rewrite app_nil_r.
  - rewrite <- cons_seq, <- fmap_S_seq. simpl map.
    rewrite <- list_fmap_compose. unfold compose.
    change (S m * b)%nat with (b + m * b)%nat.
    rewrite take_add_drop, mapM_app, drop_drop.
    unfold batch_loop; fold (batch_loop embed_batch).
    unfold slice.
    replace (Z.to_nat (Z.of_nat (k + 0) * Z.of_nat b + Z.of_nat b
                       - Z.of_nat (k + 0) * Z.of_nat b)) with b by lia.
    replace (Z.to_nat (Z.of_nat (k + 0) * Z.of_nat b)) with (k * b)%nat by lia.
    rewrite Hrow, mapM_fmap.
    change (λ a : string, embed (_preprocess_code a)) with (encode_code embed).
    destruct (mapM (encode_code embed) (take b (drop (k * b) codes))) as [a| |];
      simpl; [|done..].
    rewrite (list_fmap_ext _ (λ j : nat, Z.of_nat (S k + j) * Z.of_nat b) (seq 0 m))
      by (intros; f_equal; lia).
    rewrite IH. replace (k * b + b)%nat with (S k * b)%nat by lia.
    destruct (mapM _ _); simpl; [|done..]. by rewrite app_assoc.
Qed.

(** With a model that embeds the rows of a batch one by one, a
    positive batch size does not show in the result:
    [encode_code_batch] returns the array of the [encode_code] of each
    code, in order. A batch size of zero raises [ValueError]; a
    negative one returns the empty array whatever the codes. *)
Theorem encode_code_batch_rows (codes : list string) (batch_size : Z) :
  (∀ l, embed_batch l = mapM embed l) →
  (0 < batch_size →
   encode_code_batch embed_batch codes batch_size
   = mapM (encode_code embed) codes ≫= np_array_rows) ∧
  (batch_size = 0 → raises (encode_code_batch embed_batch codes batch_size)) ∧
  (batch_size < 0 → encode_code_batch embed_batch codes batch_size = Return []).
Proof.
  intros Hrow. split; [|split].
  - intros Hpos. unfold encode_code_batch, range_from_0.
    rewrite (proj2 (Z.eqb_neq _ _)), (proj2 (Z.ltb_ge _ _)) by lia. simpl.
    assert (∃ b : nat, batch_size = Z.of_nat b ∧ (0 < b)%nat) as (b & Hbs & Hb)
      by (exists (Z.to_nat batch_size); lia).
    rewrite Hbs.
    set (m := Z.to_nat ((Z.of_nat (length codes) + Z.of_nat b - 1) `div` Z.of_nat b)).
    pose proof (batch_loop_blocks b codes m 0 [] Hb Hrow) as Hloop.
    simpl in Hloop. rewrite Hloop.
    rewrite drop_0, take_ge; [by destruct (mapM (encode_code embed) codes)|].
    assert (Z.of_nat (length codes) ≤ Z.of_nat m * batch_size); [|nia].
    subst m. rewrite <- Hbs. rewrite Z2Nat.id by (apply Z.div_pos; lia).
    pose proof (Z.mul_div_le (Z.of_nat (length codes) + batch_size - 1) batch_size Hpos).
    pose proof (Z.mod_pos_bound (Z.of_nat (length codes) + batch_size - 1)
                  batch_size Hpos).
    pose proof (Z.div_mod (Z.of_nat (length codes) + batch_size - 1) batch_size).
    nia.
  - intros ->. by eexists.
  - intros Hneg. unfold encode_code_batch, range_from_0.
    by rewrite (proj2 (Z.eqb_neq _ _)), (proj2 (Z.ltb_lt _ _)) by lia.
Qed.
End batches.

Lemma encode_code_batch_rows_witness :
  GraphCodeBERTEmbedder.encode_code_batch (N := binary64) (mapM encode64)
    ["class A {}"; "  int x;"; "class B"] 2
  = mapM (GraphCodeBERTEmbedder.encode_code encode64)
      ["class A {}"; "  int x;"; "class B"]
    ≫= GraphCodeBERTEmbedder.np_array_rows.
Proof.
  apply (proj1 (encode_code_batch_rows (N := binary64) encode64 (mapM encode64)
                  ["class A {}"; "  int x;"; "class B"] 2 (λ _, eq_refl))).
  reflexivity.
Defined.

(** ** Ranking by similarity *)

Section ranking.
Import GraphCodeBERTEmbedder.
Context {N : Numeric}.
Variable encode_code : string → outcome (list float).

(** No element of [l] has a key smaller than the key of a later one. *)
Definition descending {A} (key : A → float) (l : list A) : Prop :=
  ∀ i j x y, (i < j)%nat → l !! i = Some x → l !! j = Some y →
    float_ltb (key x) (key y) = false.

(** [<] orders the scores [ks]: it is asymmetric and being not
    smaller is transitive (no NaN among comparable scores). *)
Definition ordered_scores (ks : list float) : Prop :=
  (∀ a b, a ∈ ks → b ∈ ks → float_ltb a b = true → float_ltb b a = false) ∧
  (∀ a b c, a ∈ ks → b ∈ ks → c ∈ ks →
     float_ltb a b = false → float_ltb b c = false → float_ltb a c = false).

Lemma ordered_scores_subseteq (ks ks' : list float) :
  ks' ⊆ ks → ordered_scores ks → ordered_scores ks'.
Proof.
  intros Hsub [Ha Ht]. split.
  - intros a b Hin1 Hin2. apply Ha; by apply Hsub.
  - intros a b c Hin1 Hin2 Hin3. apply Ht; by apply Hsub.
Qed.

Lemma insert_desc_perm {A} (key : A → float) (x : A) (l : list A) :
  insert_desc key x l ≡ₚ x :: l.
Proof.
  induction l as [|y l IH]; simpl; [done|].
  destruct (float_ltb (key y) (key x)); [done|].
  by rewrite IH, Permutation_swap.
Qed.

Lemma insert_desc_sorted {A} (key : A → float) (x : A) (l : list A) :
  ordered_scores (map key (x :: l)) →
  StronglySorted (λ a b, float_ltb (key a) (key b) = false) l →
  StronglySorted (λ a b, float_ltb (key a) (key b) = false) (insert_desc key x l).
Proof.
  intros Hord Hs. induction Hs as [|y l Hs IH Hall]; simpl.
  - repeat constructor.
  - destruct Hord as [Ha Ht].
    assert (Hx : key x ∈ map key (x :: y :: l)) by (simpl; left).
    assert (Hy : key y ∈ map key (x :: y :: l)) by (simpl; right; left).
    destruct (float_ltb (key y) (key x)) eqn:Hlt.
    + constructor; [by constructor|].
      assert (Hxy : float_ltb (key x) (key y) = false) by by apply Ha.
      constructor; [done|].
      rewrite Forall_forall in Hall |- *. intros z Hz.
      apply (Ht _ (key y)); try done.
      * simpl. right; right. by apply list_elem_of_fmap_2.
      * by apply Hall.
    + constructor.
      * apply IH. eapply ordered_scores_subseteq; [|by split].
        simpl. set_solver.
      * rewrite Forall_forall in Hall |- *. intros z Hz.
        rewrite insert_desc_perm in Hz. apply elem_of_cons in Hz as [->|Hz]; [done|].
        by apply Hall.
Qed.

Lemma sort_desc_fold {A} (key : A → float) (l acc : list A) :
  ordered_scores (map key (l ++ acc)) →
  StronglySorted (λ a b, float_ltb (key a) (key b) = false) acc →
  StronglySorted (λ a b, float_ltb (key a) (key b) = false)
    (fold_left (λ acc x, insert_desc key x acc) l acc) ∧
  fold_left (λ acc x, insert_desc key x acc) l acc ≡ₚ l ++ acc.
Proof.
  revert acc. induction l as [|x l IH]; intros acc Hord Hs; simpl; [done|].
  destruct (IH (insert_desc key x acc)) as [H1 H2].
  - eapply ordered_scores_subseteq; [|exact Hord].
    simpl. rewrite !fmap_app, insert_desc_perm. simpl. set_solver.
  - apply insert_desc_sorted; [|done].
    eapply ordered_scores_subseteq; [|exact Hord].
    simpl. rewrite fmap_app. set_solver.
  - split; [done|]. rewrite H2, insert_desc_perm. by rewrite Permutation_middle.
Qed.

Lemma sorted_descending {A} (key : A → float) (l : list A) :
  StronglySorted (λ a b, float_ltb (key a) (key b) = false) l → descending key l.
Proof.
  induction 1 as [|x l Hs IH Hall]; intros i j a b Hij Hi Hj.
  - by rewrite lookup_nil in Hi.
  - destruct j as [|j]; [lia|]. simpl in Hj. destruct i as [|i]; simpl in Hi.
    + injection Hi as ->. rewrite Forall_forall in Hall.
      apply Hall. by eapply list_elem_of_lookup_2.
    + apply (IH i j); [lia|done..].
Qed.

(** Each similarity belongs to a stored node with an embedding, and
    is the cosine of the query and that embedding. *)
Lemma similarities_of_elem (query_embedding : list float)
    (items : list (string * CodeNode.t)) (sims : list (string * float))
    (h : string * float) :
  similarities_of query_embedding items = Return sims → h ∈ sims →
  ∃ node e, (h.1, node) ∈ items ∧ CodeNode.embedding node = Some e ∧
    _cosine_similarity query_embedding e = Return h.2.
Proof.
  revert sims. induction items as [|[node_id node] items IH]; intros sims Hs Hin.
  - injection Hs as <-. by apply elem_of_nil in Hin.
  - simpl in Hs. destruct (CodeNode.embedding node) as [e|] eqn:He.
    + destruct (_cosine_similarity query_embedding e) as [s| |] eqn:Hc;
        simpl in Hs; [|done..].
      destruct (similarities_of query_embedding items) as [rest| |];
        simpl in Hs; [|done..].
      injection Hs as <-. apply elem_of_cons in Hin as [->|Hin].
      * exists node, e. split; [left|done].
      * destruct (IH rest eq_refl Hin) as (node' & e' & ? & ? & ?).
        exists node', e'. split; [by right|done].
    + destruct (IH sims Hs Hin) as (node' & e' & ? & ? & ?).
      exists node', e'. split; [by right|done].
Qed.

(** When the query is encoded, every stored embedding can be compared
    with it and the scores are ordered by [<], [get_similar_nodes]
    returns. Its result [hits] is the head of a rearrangement
    [hits ++ rest] of all the similarities in which no score is
    smaller than a later one, so no dropped node scores higher than a
    returned one. For [top_k >= 0] it has [top_k] entries, or all if
    there are fewer; a negative [top_k] drops the [-top_k] lowest.
    Every hit is a stored node with an embedding, scored by the
    cosine of the query and that embedding. *)
Theorem get_similar_nodes_ranked (self : t) (query_code : string) (top_k : Z)
    (query_embedding : list float) (similarities : list (string * float)) :
  encode_code query_code = Return query_embedding →
  similarities_of query_embedding (code_nodes self) = Return similarities →
  ordered_scores (map snd similarities) →
  ∃ hits rest,
    get_similar_nodes encode_code self query_code top_k = Return hits ∧
    hits ++ rest ≡ₚ similarities ∧
    descending snd (hits ++ rest) ∧
    length hits
    = (if (0 <=? top_k)%Z then Z.to_nat top_k `min` length similarities
       else length similarities - Z.to_nat (- top_k)%Z)%nat ∧
    (∀ h, h ∈ hits →
       ∃ node e, (h.1, node) ∈ code_nodes self ∧ CodeNode.embedding node = Some e ∧
         _cosine_similarity query_embedding e = Return h.2).
Proof.
  intros Henc Hsims Hord.
  destruct (sort_desc_fold snd similarities []) as [Hsorted Hperm];
    [by rewrite app_nil_r|constructor|].
  fold (sort_desc snd similarities) in Hsorted, Hperm.
  rewrite app_nil_r in Hperm.
  set (n := if 0 <=? top_k then Z.to_nat top_k
            else Z.to_nat (Z.of_nat (length (sort_desc snd similarities)) + top_k)).
  assert (Hslice : slice_to top_k (sort_desc snd similarities)
                   = take n (sort_desc snd similarities)).
  { unfold slice_to, n. by destruct (0 <=? top_k). }
  exists (take n (sort_desc snd similarities)), (drop n (sort_desc snd similarities)).
  split; [|split; [|split; [|split]]].
  - unfold get_similar_nodes. rewrite Henc. simpl. rewrite Hsims. simpl.
    by rewrite Hslice.
  - by rewrite take_drop.
  - rewrite take_drop. by apply sorted_descending.
  - rewrite length_take, (Permutation_length Hperm). unfold n.
    rewrite (Permutation_length Hperm).
    destruct (0 <=? top_k) eqn:Hk; [done|].
    apply Z.leb_gt in Hk. lia.
  - intros h Hin. apply (similarities_of_elem _ _ similarities); [done|].
    rewrite <- Hperm.
    apply elem_of_take in Hin as (i & Hi & _).
    by eapply list_elem_of_lookup_2.
Qed.
End ranking.

Lemma get_similar_nodes_ranked_witness :
  ∃ hits,
    GraphCodeBERTEmbedder.get_similar_nodes (N := binary64) encode64
      (JavaCodeEmbeddingSystem.embedder system64) "class X" 1 = Return hits ∧
    length hits = 1%nat.
Proof.
  destruct (get_similar_nodes_ranked (N := binary64) encode64
              (JavaCodeEmbeddingSystem.embedder system64) "class X" 1
              [1%float; 0%float] [("Demo", 1%float); ("Demo.g", 0%float)]
              eq_refl eq_refl)
    as (hits & rest & Hret & _ & _ & Hlen & _).
  - split.
    + intros a b Ha Hb; apply list_elem_of_In in Ha, Hb; simpl in Ha, Hb.
      destruct Ha as [<-|[<-|[]]], Hb as [<-|[<-|[]]]; intros H;
        vm_compute in H |- *; congruence.
    + intros a b c Ha Hb Hc; apply list_elem_of_In in Ha, Hb, Hc; simpl in Ha, Hb, Hc.
      destruct Ha as [<-|[<-|[]]], Hb as [<-|[<-|[]]], Hc as [<-|[<-|[]]];
        intros H1 H2; vm_compute in H1, H2 |- *; congruence.
  - exists hits. split; [exact Hret|exact Hlen].
Defined.

(** ** Call paths *)

Section call_path.
Import GraphCodeBERTEmbedder.
Context {N : Numeric}.
Variable G : DiGraph.t CodeNode.t edge_attr.
Variable source target : string.

(** The entries of the queue: paths from [source], last node first. *)
Inductive rpath : list string → Prop :=
  | rpath_source : rpath [source]
  | rpath_step n m back :
      rpath (m :: back) → DiGraph.has_edge G m n → rpath (n :: m :: back).

(** [p] follows edges of [G]. *)
Definition follows_edges (p : list string) : Prop :=
  ∀ i u v, p !! i = Some u → p !! S i = Some v → DiGraph.has_edge G u v.

Definition entry (q : list string) : string * Z :=
  (default "" (head q), Z.of_nat (length q)).

Record pinv (queue : list (list string)) (visited : gset string) : Prop := {
  pinv_queue : ∀ q, q ∈ queue → rpath q;
  pinv_sorted : queue_ok (map entry queue);
  pinv_start : source ∈ visited ∨ [source] ∈ queue;
  pinv_closed : ∀ k m s, DiGraph.walk G k source m → m ∈ visited →
    DiGraph.has_edge G m s →
    s ∈ visited ∨ ∃ q, q ∈ queue ∧ head q = Some s ∧ (length q ≤ S (S k))%nat;
  pinv_target : target ∉ visited;
}.

Lemma rpath_walk q :
  rpath q → ∃ n, head q = Some n ∧ DiGraph.walk G (length q - 1) source n.
Proof.
  induction 1 as [|n m back _ (m' & Hm & Hw) He].
  - exists source. split; [done|constructor].
  - injection Hm as <-. exists n. split; [done|].
    simpl in *. rewrite Nat.sub_0_r in Hw. econstructor; eauto.
Qed.

Lemma rpath_forward q :
  rpath q →
  head (reverse q) = Some source ∧ last (reverse q) = head q ∧
  follows_edges (reverse q).
Proof.
  induction 1 as [|n m back Hq (Hh & Hl & Hf) He].
  - split; [done|]. split; [done|]. intros i u v Hu Hv.
    destruct i; simpl in Hv; by rewrite ?lookup_nil in Hv.
  - rewrite (reverse_cons _ n). split; [|split].
    + destruct (reverse (m :: back)); [done|by simpl in *].
    + by rewrite last_snoc.
    + intros i u v Hu Hv.
      destruct (decide (S i < length (reverse (m :: back)))%nat) as [Hlt|Hge].
      * rewrite lookup_app_l in Hu, Hv by lia. by apply (Hf i).
      * assert (Hi : S i = length (reverse (m :: back))).
        { apply lookup_lt_Some in Hv. rewrite length_app in Hv. simpl in Hv. lia. }
        rewrite lookup_app_l in Hu by lia.
        rewrite lookup_app_r, Hi, Nat.sub_diag in Hv by lia. injection Hv as <-.
        rewrite last_lookup in Hl. simpl in Hl.
        replace (Init.Nat.pred (length (reverse (m :: back)))) with i in Hl by lia.
        rewrite Hu in Hl. by injection Hl as ->.
Qed.

Lemma pinv_frontier queue visited k n :
  pinv queue visited → DiGraph.walk G k source n →
  n ∈ visited ∨ ∃ q, q ∈ queue ∧ (length q ≤ S k)%nat.
Proof.
  intros I Hw. remember source as u eqn:Hu.
  induction Hw as [u|k u m n Hm IH He].
  - subst u. destruct (pinv_start _ _ I) as [?|?]; [by left|].
    right. by exists [source].
  - specialize (IH Hu). subst u. destruct IH as [Hv|(q & Hq & Hle)].
    + destruct (pinv_closed _ _ I k m n Hm Hv He) as [?|(q & ? & _ & ?)];
        [by left|]. right. by exists q.
    + right. exists q. split; [done|lia].
Qed.

Lemma pinv_initial : pinv [[source]] ∅.
Proof.
  split.
  - intros q ->%list_elem_of_singleton. constructor.
  - simpl. split; [constructor|done].
  - right. set_solver.
  - intros k m s _ Hm. set_solver.
  - set_solver.
Qed.

Lemma pinv_skip current back queue visited :
  pinv ((current :: back) :: queue) visited → current ∈ visited →
  pinv queue visited.
Proof.
  intros I Hv. split.
  - intros q Hq. apply (pinv_queue _ _ I). by right.
  - apply (pinv_sorted _ _ I).
  - destruct (pinv_start _ _ I) as [?|Hq]; [by left|].
    apply elem_of_cons in Hq as [Heq|?]; [|by right].
    injection Heq as Heq _. left. by rewrite Heq.
  - intros k m s Hm Hvm He.
    destruct (pinv_closed _ _ I k m s Hm Hvm He) as [?|(q & Hq & Hh & Hle)];
      [by left|].
    apply elem_of_cons in Hq as [->|?]; [|right; by exists q].
    injection Hh as ->. by left.
  - apply (pinv_target _ _ I).
Qed.

Lemma pinv_expand current back queue visited :
  pinv ((current :: back) :: queue) visited →
  current ≠ target → current ∉ visited →
  pinv (queue ++ map (λ n, n :: current :: back) (DiGraph.succ_list G current))
       (visited ∪ {[current]}).
Proof.
  intros I Hnt Hnv.
  assert (Hc : rpath (current :: back)) by (apply (pinv_queue _ _ I); by left).
  split.
  - intros q [Hq|Hq]%elem_of_app.
    + apply (pinv_queue _ _ I). by right.
    + apply list_elem_of_fmap in Hq as (s & -> & Hs).
      constructor; [done|]. by apply succ_list_spec.
  - destruct (pinv_sorted _ _ I) as [Hall Hq]. simpl in Hall.
    rewrite map_app, map_map.
    rewrite (map_ext _ (λ n, (n, Z.of_nat (length (current :: back)) + 1))).
    + rewrite <- (map_map (λ n, n) (λ n, (n, Z.of_nat (length (current :: back)) + 1))).
      rewrite map_id. by apply queue_ok_app.
    + intros n. unfold entry. simpl. f_equal. lia.
  - destruct (pinv_start _ _ I) as [?|Hq]; [left; set_solver|].
    apply elem_of_cons in Hq as [Heq|?]; [|right; set_solver].
    injection Heq as Heq _. left. rewrite Heq. set_solver.
  - intros k m s Hm Hvm He. apply elem_of_union in Hvm as [Hvm|Hvm].
    + destruct (pinv_closed _ _ I k m s Hm Hvm He) as [?|(q & Hq & Hh & Hle)];
        [left; set_solver|].
      apply elem_of_cons in Hq as [->|?].
      * injection Hh as ->. left. set_solver.
      * right. exists q. split; [set_solver|done].
    + apply elem_of_singleton in Hvm as ->. right.
      exists (s :: current :: back). split; [|split; [done|]].
      * apply elem_of_app. right. apply list_elem_of_fmap. exists s.
        split; [done|]. by apply succ_list_spec.
      * destruct (pinv_frontier _ _ k current I Hm) as [?|(x & Hx & Hle)]; [done|].
        pose proof (queue_ok_head _ _ (entry x) (pinv_sorted _ _ I)) as Hhd.
        simpl in Hhd. destruct Hhd as [Hhd _].
        { change (entry x ∈ map entry ((current :: back) :: queue)).
          by apply list_elem_of_fmap_2. }
        simpl in *. lia.
  - pose proof (pinv_target _ _ I). set_solver.
Qed.

(** What the search returns: a shortest path, or [NetworkXNoPath]
    when no walk leads to the target. *)
Lemma path_loop_sound fuel queue visited :
  pinv queue visited →
  match path_loop fuel G target queue visited with
  | Return p =>
      rpath (reverse p) ∧ head (reverse p) = Some target ∧
      ∀ k, DiGraph.walk G k source target → (length p ≤ S k)%nat
  | Raise e => e = NetworkXNoPath ∧ ∀ k, ¬ DiGraph.walk G k source target
  | Diverge => True
  end.
Proof.
  revert queue visited.
  induction fuel as [|fuel IH]; intros queue visited I; simpl; [done|].
  destruct queue as [|[|current back] queue].
  - split; [done|]. intros k Hw.
    destruct (pinv_frontier _ _ k target I Hw) as [Hv|(q & Hq & _)].
    + by apply (pinv_target _ _ I).
    + by apply elem_of_nil in Hq.
  - assert (Hq : rpath []) by (apply (pinv_queue _ _ I); by left).
    inversion Hq.
  - case_bool_decide as Ht.
    + subst current. rewrite reverse_involutive.
      split; [apply (pinv_queue _ _ I); by left|]. split; [done|].
      intros k Hw. rewrite length_reverse.
      destruct (pinv_frontier _ _ k target I Hw) as [Hv|(x & Hx & Hle)].
      * by destruct (pinv_target _ _ I).
      * pose proof (queue_ok_head _ _ (entry x) (pinv_sorted _ _ I)) as Hhd.
        simpl in Hhd. destruct Hhd as [Hhd _].
        { change (entry x ∈ map entry ((target :: back) :: queue)).
          by apply list_elem_of_fmap_2. }
        simpl in *. lia.
    + case_bool_decide as Hv.
      * apply IH. by apply (pinv_skip current back).
      * apply IH. by apply pinv_expand.
Qed.

(** The fuel suffices over a set of nodes closed under successors. *)
Lemma path_loop_returns (U : gset string) fuel queue visited :
  (∀ u v, u ∈ U → DiGraph.has_edge G u v → v ∈ U) →
  (∀ q n, q ∈ queue → head q = Some n → n ∈ U) →
  (size (U ∖ visited) * S (length (DiGraph._adj G)) + length queue < fuel)%nat →
  path_loop fuel G target queue visited ≠ Diverge.
Proof.
  intros Hclosed. revert queue visited.
  induction fuel as [|fuel IH]; intros queue visited HU Hfuel; [lia|].
  simpl. destruct queue as [|[|current back] queue]; [done| |].
  - apply IH.
    + intros q n Hq. apply HU. by right.
    + simpl in Hfuel. lia.
  - case_bool_decide as Ht; [done|]. case_bool_decide as Hv.
    + apply IH.
      * intros q n Hq. apply HU. by right.
      * simpl in Hfuel. lia.
    + assert (HcU : current ∈ U) by (apply (HU (current :: back)); [left|done]).
      apply IH.
      * intros q n [Hq|Hq]%elem_of_app.
        -- apply HU. by right.
        -- apply list_elem_of_fmap in Hq as (s & -> & Hs). intros [= <-].
           apply (Hclosed current); [done|]. by apply succ_list_spec.
      * rewrite length_app, length_map.
        pose proof (succ_list_length G current) as Hlen.
        assert (Hsz : (size (U ∖ (visited ∪ {[current]})) < size (U ∖ visited))%nat).
        { apply subset_size. set_solver. }
        simpl in Hfuel. nia.
Qed.
End call_path.

Section call_path_result.
Import GraphCodeBERTEmbedder.
Context {N : Numeric}.

(** [nx.shortest_path] between two nodes of a well-formed graph: a
    shortest path, or [NetworkXNoPath] when there is no walk. *)
Lemma nx_shortest_path_spec (G : DiGraph.t CodeNode.t edge_attr)
    (source target : string) :
  DiGraph.wf G →
  DiGraph.has_node G source = true → DiGraph.has_node G target = true →
  match nx_shortest_path G source target with
  | Return p =>
      head p = Some source ∧ last p = Some target ∧ follows_edges G p ∧
      DiGraph.distance G source target (length p - 1)
  | Raise e => e = NetworkXNoPath ∧ ∀ k, ¬ DiGraph.walk G k source target
  | Diverge => False
  end.
Proof.
  intros Hwf Hs Ht. unfold nx_shortest_path. rewrite Hs, Ht. cbn [negb orb].
  pose proof (path_loop_sound G source target (traversal_fuel G)
                [[source]] ∅ (pinv_initial G source target)) as Hsound.
  pose proof (path_loop_returns G target
                (list_to_set (odict.keys (DiGraph._node G))) (traversal_fuel G)
                [[source]] ∅) as Hret.
  destruct (path_loop (traversal_fuel G) G target [[source]] ∅) as [p|e|].
  - destruct Hsound as (Hp & Hhd & Hmin).
    destruct (rpath_forward G source _ Hp) as (H1 & H2 & H3).
    destruct (rpath_walk G source _ Hp) as (n & Hn & Hw).
    rewrite reverse_involutive in H1, H2, H3. rewrite length_reverse in Hw.
    rewrite Hhd in Hn. injection Hn as <-.
    split; [done|]. split; [by rewrite H2|]. split; [done|].
    split; [done|]. intros k Hk. specialize (Hmin k Hk). lia.
  - done.
  - apply Hret; [| | |done].
    + intros u v Hu [d Hd]. apply elem_of_list_to_set, odict_mem_keys.
      by destruct (Hwf _ _ _ Hd).
    + intros q n ->%list_elem_of_singleton [= <-].
      by apply elem_of_list_to_set, odict_mem_keys.
    + unfold traversal_fuel. pose proof (node_set_size G) as Hsz.
      assert (size (list_to_set (C := gset string) (odict.keys (DiGraph._node G)) ∖ ∅)
              ≤ length (DiGraph._node G))%nat.
      { etrans; [|exact Hsz]. apply subseteq_size. set_solver. }
      simpl length. nia.
Qed.

(** Between two nodes of the call graph [get_call_path] returns, and
    what it returns is a shortest path: a list of nodes from
    [source_id] to [target_id] along edges, whose number of edges is
    the distance; or the empty list, exactly when no walk leads from
    [source_id] to [target_id]. *)
Theorem get_call_path_shortest (self : t) (source_id target_id : string) :
  DiGraph.wf (call_graph self) →
  DiGraph.has_node (call_graph self) source_id = true →
  DiGraph.has_node (call_graph self) target_id = true →
  ∃ p, get_call_path self source_id target_id = Return p ∧
    ((p = [] ∧ ∀ k, ¬ DiGraph.walk (call_graph self) k source_id target_id) ∨
     (head p = Some source_id ∧ last p = Some target_id ∧
      follows_edges (call_graph self) p ∧
      DiGraph.distance (call_graph self) source_id target_id (length p - 1))).
Proof.
  intros Hwf Hs Ht. unfold get_call_path.
  pose proof (nx_shortest_path_spec (call_graph self) source_id target_id Hwf Hs Ht)
    as Hspec.
  destruct (nx_shortest_path (call_graph self) source_id target_id) as [p|e|].
  - exists p. split; [done|]. by right.
  - destruct Hspec as [-> Hno]. exists []. split; [done|]. by left.
  - done.
Qed.
End call_path_result.

Lemma get_call_path_shortest_witness :
  ∃ p, GraphCodeBERTEmbedder.get_call_path (chain_store (N := binary64) 1%float) "A" "D"
       = Return p ∧
    ((p = [] ∧
      ∀ k, ¬ DiGraph.walk
               (GraphCodeBERTEmbedder.call_graph (chain_store (N := binary64) 1%float))
               k "A" "D") ∨
     (head p = Some "A" ∧ last p = Some "D" ∧
      follows_edges
        (GraphCodeBERTEmbedder.call_graph (chain_store (N := binary64) 1%float)) p ∧
      DiGraph.distance
        (GraphCodeBERTEmbedder.call_graph (chain_store (N := binary64) 1%float))
        "A" "D" (length p - 1))).
Proof.
  exact (get_call_path_shortest (chain_store (N := binary64) 1%float) "A" "D"
           (store_of_wf _) eq_refl eq_refl).
Defined.

(** ** Stores built by [add_code_node] and [add_code_relation] *)

Section population.
Import GraphCodeBERTEmbedder.
Context {N : Numeric}.
Variable encode_code : string → outcome (list float).

(** The calls that populate a store, and the store after a sequence
    of them; a call that raises leaves the store as it was. *)
Inductive population : Type :=
  | AddNode (node : CodeNode.t)
  | AddRelation (relation : CodeRelation.t).

Definition populate (calls : list population) (self : t) : t :=
  fold_left (λ self call,
    match call with
    | AddNode node => (add_code_node encode_code node self).2
    | AddRelation relation => (add_code_relation relation self).2
    end) calls self.

Definition relations_of (calls : list population) : list CodeRelation.t :=
  omap (λ call, match call with AddRelation r => Some r | AddNode _ => None end) calls.

Definition endpoints (r : CodeRelation.t) : string * string :=
  (CodeRelation.source_id r, CodeRelation.target_id r).

Definition attributes (r : CodeRelation.t) : edge_attr :=
  (CodeRelation.relation_type r, CodeRelation.confidence r).

Record consistent (self : t) : Prop := {
  consistent_wf : DiGraph.wf (call_graph self);
  consistent_nodes : ∀ id node, odict.get id (code_nodes self) = Some node →
    CodeNode.id node = id ∧
    odict.get id (DiGraph._node (call_graph self)) = Some (Some node) ∧
    ∃ e, CodeNode.embedding node = Some e ∧ encode_code (CodeNode.code node) = Return e;
  consistent_keys : NoDup (odict.keys (code_nodes self));
  consistent_adj : NoDup (odict.keys (DiGraph._adj (call_graph self)));
  consistent_edges : ∀ u v,
    DiGraph.get_edge_data (call_graph self) u v
    = attributes <$> last (filter (λ r, endpoints r = (u, v)) (code_relations self));
}.

Lemma odict_keys_set {K V} `{EqDecision K} (k : K) (v : V) (d : list (K * V)) :
  odict.keys (odict.set k v d)
  = if odict.mem k d then odict.keys d else odict.keys d ++ [k].
Proof.
  unfold odict.keys, odict.mem. induction d as [|[k0 v0] d IH]; simpl; [done|].
  destruct (decide (k0 = k)) as [->|Hne]; simpl; [done|].
  rewrite IH. by destruct (odict.get k d).
Qed.

Lemma odict_get_touch {NA} (n m : string) (nodes : list (string * option NA)) x :
  odict.get n nodes = Some x → odict.get n (DiGraph.touch m nodes) = Some x.
Proof.
  unfold DiGraph.touch. destruct (odict.mem m nodes); [done|].
  induction nodes as [|[k0 v0] d IH]; simpl; [done|].
  by destruct (decide (k0 = n)).
Qed.

Lemma odict_keys_set_NoDup {K V} `{EqDecision K} (k : K) (v : V) (d : list (K * V)) :
  NoDup (odict.keys d) → NoDup (odict.keys (odict.set k v d)).
Proof.
  intros Hd. rewrite odict_keys_set. destruct (odict.mem k d) eqn:Hm; [done|].
  apply NoDup_app. split; [done|]. split; [|apply NoDup_singleton].
  intros x Hx ->%list_elem_of_singleton. apply odict_mem_keys in Hx. congruence.
Qed.

Lemma consistent_init : consistent init.
Proof.
  split; simpl.
  - apply wf_empty.
  - done.
  - constructor.
  - constructor.
  - done.
Qed.

Lemma consistent_add_code_node node self :
  consistent self → consistent (add_code_node encode_code node self).2.
Proof.
  intros C. unfold add_code_node.
  destruct (encode_code (CodeNode.code node)) as [e| |] eqn:He; [|done..].
  split; simpl.
  - by apply wf_add_node, (consistent_wf _ C).
  - intros id n. rewrite !odict_get_set.
    destruct (decide (CodeNode.id node = id)) as [<-|Hne].
    + intros [= <-]. split; [done|]. split; [done|]. by exists e.
    + apply (consistent_nodes _ C).
  - apply odict_keys_set_NoDup, (consistent_keys _ C).
  - apply (consistent_adj _ C).
  - apply (consistent_edges _ C).
Qed.

Lemma consistent_add_code_relation relation self :
  consistent self → consistent (add_code_relation relation self).2.
Proof.
  intros C. split; simpl.
  - by apply wf_add_edge, (consistent_wf _ C).
  - intros id n Hn. destruct (consistent_nodes _ C id n Hn) as (H1 & H2 & H3).
    split; [done|]. split; [|done]. by do 2 apply odict_get_touch.
  - apply (consistent_keys _ C).
  - apply odict_keys_set_NoDup, (consistent_adj _ C).
  - intros u v. unfold DiGraph.get_edge_data. simpl.
    rewrite odict_get_set, filter_app.
    pose proof (consistent_edges _ C u v) as He.
    unfold DiGraph.get_edge_data in He.
    destruct (decide ((CodeRelation.source_id relation, CodeRelation.target_id relation)
                      = (u, v))) as [Heq|Hne].
    + rewrite (filter_cons_True _ relation) by done.
      by rewrite filter_nil, last_snoc.
    + rewrite (filter_cons_False _ relation) by done.
      by rewrite filter_nil, app_nil_r.
Qed.

Lemma populate_consistent calls self :
  consistent self → consistent (populate calls self).
Proof.
  revert self. induction calls as [|[node|relation] calls IH]; intros self C; [done|..];
    simpl; apply IH.
  - by apply consistent_add_code_node.
  - by apply consistent_add_code_relation.
Qed.

Lemma populate_relations calls self :
  code_relations (populate calls self) = code_relations self ++ relations_of calls.
Proof.
  revert self. induction calls as [|[node|relation] calls IH]; intros self; simpl.
  - by rewrite app_nil_r.
  - rewrite IH. unfold add_code_node. by destruct (encode_code _).
  - rewrite IH. simpl. by rewrite <- app_assoc.
Qed.

Lemma consistent_edge_count self :
  consistent self →
  length (DiGraph._adj (call_graph self))
  = size (list_to_set (C := gset (string * string))
            (map endpoints (code_relations self))).
Proof.
  intros C. rewrite <- (length_map fst).
  change (map fst (DiGraph._adj (call_graph self)))
    with (odict.keys (DiGraph._adj (call_graph self))).
  rewrite <- (size_list_to_set (C := gset (string * string)))
    by apply (consistent_adj _ C).
  f_equal. apply set_eq. intros [u v]. rewrite !elem_of_list_to_set.
  rewrite <- odict_mem_keys. unfold odict.mem.
  pose proof (consistent_edges _ C u v) as He. unfold DiGraph.get_edge_data in He.
  rewrite He, list_elem_of_fmap.
  destruct (last (filter _ _)) as [r|] eqn:Hl; simpl.
  - split; [intros _|done]. exists r.
    apply last_Some_elem_of, list_elem_of_filter in Hl as [Hr ?]. by split.
  - split; [done|]. intros (r & Hr & Hin). apply last_None in Hl.
    assert (r ∈ filter (λ r, endpoints r = (u, v)) (code_relations self))
      by by apply list_elem_of_filter.
    rewrite Hl in *. by apply elem_of_nil in H.
Qed.

Lemma odict_get_elem {K V} `{EqDecision K} (k : K) (v : V) (d : list (K * V)) :
  odict.get k d = Some v → (k, v) ∈ d.
Proof.
  induction d as [|[k0 v0] d IH]; simpl; [done|].
  destruct (decide (k0 = k)) as [->|?].
  - intros [= ->]. by left.
  - intros ?. right. by apply IH.
Qed.

Lemma consistent_has_edge self (u v : string) :
  consistent self →
  DiGraph.has_edge (call_graph self) u v ↔
  ∃ r, r ∈ code_relations self ∧ endpoints r = (u, v).
Proof.
  intros C.
  pose proof (consistent_edges _ C u v) as He. unfold DiGraph.get_edge_data in He.
  split.
  - intros [d Hd].
    assert (Hm : odict.mem (u, v) (DiGraph._adj (call_graph self)) = true).
    { apply odict_mem_keys. unfold odict.keys.
      by apply (list_elem_of_fmap_2 fst _ ((u, v), d)). }
    unfold odict.mem in Hm. rewrite He in Hm.
    destruct (last _) as [r|] eqn:Hl; [|done].
    apply last_Some_elem_of, list_elem_of_filter in Hl as [Hr ?]. by exists r.
  - intros (r & Hin & Hr).
    destruct (odict.get (u, v) (DiGraph._adj (call_graph self))) as [d|] eqn:Hg.
    + exists d. by apply odict_get_elem.
    + symmetry in He. apply fmap_None, last_None in He.
      assert (Hf : r ∈ filter (λ r, endpoints r = (u, v)) (code_relations self))
        by by apply list_elem_of_filter.
      rewrite He in Hf. by apply elem_of_nil in Hf.
Qed.

Lemma size_list_to_set_le `{Countable A} (l : list A) :
  (size (list_to_set (C := gset A) l) ≤ length l)%nat.
Proof.
  induction l as [|x l IH].
  - by rewrite list_to_set_nil, size_empty.
  - rewrite list_to_set_cons, size_union_alt, size_singleton.
    assert (size (list_to_set (C := gset A) l ∖ {[x]})
            ≤ size (list_to_set (C := gset A) l))%nat
      by (apply subseteq_size; set_solver).
    simpl. lia.
Qed.

Lemma consistent_node_count self :
  consistent self →
  (length (code_nodes self) ≤ length (DiGraph._node (call_graph self)))%nat.
Proof.
  intros C. rewrite <- (length_map fst (code_nodes self)).
  rewrite <- (length_map fst (DiGraph._node (call_graph self))).
  apply submseteq_length, NoDup_submseteq; [apply (consistent_keys _ C)|].
  intros id Hid. apply (odict_mem_keys id (code_nodes self)) in Hid.
  unfold odict.mem in Hid.
  destruct (odict.get id (code_nodes self)) as [node|] eqn:Hn; [|done].
  destruct (consistent_nodes _ C id node Hn) as (_ & Hg & _).
  apply (odict_mem_keys id (DiGraph._node (call_graph self))).
  unfold odict.mem. by rewrite Hg.
Qed.

(** Whatever calls of [add_code_node] and [add_code_relation] built
    the store, failed ones included: [code_relations] lists the
    relations added, in order; every stored node is filed under its
    own id, carries the embedding of its code, and is the attribute
    record of the graph node of that id; the edge of an ordered pair
    carries the attributes of the last relation added for the pair,
    and there is an edge exactly where there is a relation;
    [total_edges] is the number of distinct (source, target) pairs
    among the relations, so at most [total_relations]; and
    [total_nodes] is at most the number of nodes of the graph. *)
Theorem populated_store_consistent (calls : list population) :
  let self := populate calls init in
  code_relations self = relations_of calls ∧
  (∀ id node, odict.get id (code_nodes self) = Some node →
     CodeNode.id node = id ∧
     odict.get id (DiGraph._node (call_graph self)) = Some (Some node) ∧
     ∃ e, CodeNode.embedding node = Some e ∧
       encode_code (CodeNode.code node) = Return e) ∧
  (∀ u v,
     DiGraph.get_edge_data (call_graph self) u v
     = attributes <$> last (filter (λ r, endpoints r = (u, v)) (code_relations self))) ∧
  (∀ u v, DiGraph.has_edge (call_graph self) u v ↔
     ∃ r, r ∈ code_relations self ∧ endpoints r = (u, v)) ∧
  total_edges (get_statistics self)
  = Z.of_nat (size (list_to_set (C := gset (string * string))
                      (map endpoints (code_relations self)))) ∧
  total_edges (get_statistics self) ≤ total_relations (get_statistics self) ∧
  total_nodes (get_statistics self) ≤ DiGraph.number_of_nodes (call_graph self).
Proof.
  intros self.
  assert (C : consistent self) by apply populate_consistent, consistent_init.
  pose proof (consistent_edge_count self C) as Hcount.
  split; [apply (populate_relations calls init)|].
  split; [apply (consistent_nodes _ C)|].
  split; [apply (consistent_edges _ C)|].
  split; [|split; [|split]].
  - intros u v. by apply consistent_has_edge.
  - unfold get_statistics, DiGraph.number_of_edges. simpl. by rewrite Hcount.
  - unfold get_statistics, DiGraph.number_of_edges. simpl. rewrite Hcount.
    pose proof (size_list_to_set_le (map endpoints (code_relations self))) as Hle.
    rewrite length_map in Hle. lia.
  - unfold get_statistics, DiGraph.number_of_nodes. simpl.
    pose proof (consistent_node_count self C). lia.
Qed.
End population.

(** ** Impact analysis *)

Section impact.
Import GraphCodeBERTEmbedder.
Context {N : Numeric}.
Implicit Types self : GraphCodeBERTEmbedder.t.

Lemma walk_S_nodes {NA EA} (G : DiGraph.t NA EA) k u v :
  DiGraph.wf G → DiGraph.walk G (S k) u v →
  DiGraph.has_node G u = true ∧ DiGraph.has_node G v = true.
Proof.
  intros Hwf. revert v. induction k as [|k IH]; intros v Hw.
  - inversion Hw as [|k' u' m v' Hm [d Hd]]; subst.
    apply walk_0_inv in Hm as <-. by apply (Hwf u v d).
  - inversion Hw as [|k' u' m v' Hm [d Hd]]; subst.
    split; [by apply (IH m)|]. by apply (Hwf m v d).
Qed.

(** On a well-formed graph the traversals return for every id, known
    or not, the nodes a walk of one to [max_depth] edges connects. *)
Lemma downstream_of self start max_depth :
  DiGraph.wf (call_graph self) →
  ∃ r, get_downstream_dependencies self start max_depth = Return r ∧
    ∀ v, v ∈ r ↔ ∃ k : nat, (1 ≤ k)%nat ∧ Z.of_nat k ≤ max_depth ∧
                   DiGraph.walk (call_graph self) k start v.
Proof.
  intros Hwf. destruct (DiGraph.has_node (call_graph self) start) eqn:Hs.
  - by apply get_downstream_dependencies_spec.
  - exists ∅. split; [unfold get_downstream_dependencies; by rewrite Hs|].
    intros v. split; [set_solver|]. intros (k & Hk & _ & Hw).
    destruct k as [|k]; [lia|]. apply walk_S_nodes in Hw as [? _]; [congruence|done].
Qed.

Lemma upstream_of self start max_depth :
  DiGraph.wf (call_graph self) →
  ∃ r, get_upstream_dependencies self start max_depth = Return r ∧
    ∀ v, v ∈ r ↔ ∃ k : nat, (1 ≤ k)%nat ∧ Z.of_nat k ≤ max_depth ∧
                   DiGraph.walk (call_graph self) k v start.
Proof.
  intros Hwf. destruct (DiGraph.has_node (call_graph self) start) eqn:Hs.
  - by apply get_upstream_dependencies_spec.
  - exists ∅. split; [unfold get_upstream_dependencies; by rewrite Hs|].
    intros v. split; [set_solver|]. intros (k & Hk & _ & Hw).
    destruct k as [|k]; [lia|]. apply walk_S_nodes in Hw as [_ ?]; [congruence|done].
Qed.

(** The two traversals are each other's converse, for every pair of
    ids and every bound: [v] is downstream of [u] exactly when [u] is
    upstream of [v]. A larger bound only adds nodes. *)
Theorem dependencies_converse self (u v : string) (max_depth max_depth' : Z) :
  DiGraph.wf (call_graph self) →
  max_depth ≤ max_depth' →
  ∃ down up down' up',
    get_downstream_dependencies self u max_depth = Return down ∧
    get_upstream_dependencies self v max_depth = Return up ∧
    get_downstream_dependencies self u max_depth' = Return down' ∧
    get_upstream_dependencies self v max_depth' = Return up' ∧
    (v ∈ down ↔ u ∈ up) ∧ down ⊆ down' ∧ up ⊆ up'.
Proof.
  intros Hwf Hle.
  destruct (downstream_of self u max_depth Hwf) as (down & Hd & Hdown).
  destruct (upstream_of self v max_depth Hwf) as (up & Hu & Hup).
  destruct (downstream_of self u max_depth' Hwf) as (down' & Hd' & Hdown').
  destruct (upstream_of self v max_depth' Hwf) as (up' & Hu' & Hup').
  exists down, up, down', up'. repeat (split; [done|]). split; [|split].
  - by rewrite Hdown, Hup.
  - intros x. rewrite Hdown, Hdown'. intros (k & ? & ? & ?). exists k.
    split; [done|]. split; [lia|done].
  - intros x. rewrite Hup, Hup'. intros (k & ? & ? & ?). exists k.
    split; [done|]. split; [lia|done].
Qed.

(** For a node of a well-formed call graph [analyze_impact] returns:
    [direct_callers] and [direct_callees] are the sources and targets
    of the node's edges, [upstream] and [downstream] the nodes within
    one to three edges, so they contain the direct ones. *)
Theorem analyze_impact_of_node self (node_id : string) :
  DiGraph.wf (call_graph self) →
  DiGraph.has_node (call_graph self) node_id = true →
  ∃ r, analyze_impact self node_id = Return r ∧
    (∀ v, v ∈ direct_callers r ↔ DiGraph.has_edge (call_graph self) v node_id) ∧
    (∀ v, v ∈ direct_callees r ↔ DiGraph.has_edge (call_graph self) node_id v) ∧
    (∀ v, v ∈ upstream r ↔
       ∃ k : nat, (1 ≤ k ≤ 3)%nat ∧ DiGraph.walk (call_graph self) k v node_id) ∧
    (∀ v, v ∈ downstream r ↔
       ∃ k : nat, (1 ≤ k ≤ 3)%nat ∧ DiGraph.walk (call_graph self) k node_id v) ∧
    (∀ v, v ∈ direct_callers r → v ∈ upstream r) ∧
    (∀ v, v ∈ direct_callees r → v ∈ downstream r).
Proof.
  intros Hwf Hn.
  destruct (upstream_of self node_id 3 Hwf) as (up & Hu & Hup).
  destruct (downstream_of self node_id 3 Hwf) as (down & Hd & Hdown).
  exists (mk_impact up down (DiGraph.pred_list (call_graph self) node_id)
            (DiGraph.succ_list (call_graph self) node_id)).
  split.
  { unfold analyze_impact, DiGraph.predecessors, DiGraph.successors.
    by rewrite Hu, Hd, Hn. }
  simpl.
  assert (H1 : ∀ v, v ∈ up ↔
            ∃ k : nat, (1 ≤ k ≤ 3)%nat ∧ DiGraph.walk (call_graph self) k v node_id).
  { intros v. rewrite Hup. split; intros (k & ?); exists k; intuition lia. }
  assert (H2 : ∀ v, v ∈ down ↔
            ∃ k : nat, (1 ≤ k ≤ 3)%nat ∧ DiGraph.walk (call_graph self) k node_id v).
  { intros v. rewrite Hdown. split; intros (k & ?); exists k; intuition lia. }
  split; [intros v; apply pred_list_spec|].
  split; [intros v; apply succ_list_spec|].
  split; [done|]. split; [done|]. split.
  - intros v Hv%pred_list_spec. apply H1. exists 1%nat. split; [lia|].
    econstructor; [constructor|done].
  - intros v Hv%succ_list_spec. apply H2. exists 1%nat. split; [lia|].
    econstructor; [constructor|done].
Qed.
End impact.

Lemma dependencies_converse_witness :
  ∃ down up,
    GraphCodeBERTEmbedder.get_downstream_dependencies
      (cycle_store (N := binary64) 1%float) "A" 1 = Return down ∧
    GraphCodeBERTEmbedder.get_upstream_dependencies
      (cycle_store (N := binary64) 1%float) "B" 1 = Return up ∧
    ("B" ∈ down ↔ "A" ∈ up).
Proof.
  destruct (dependencies_converse (cycle_store (N := binary64) 1%float) "A" "B" 1 2
              (store_of_wf _)) as (down & up & _ & _ & Hd & Hu & _ & _ & H & _).
  - lia.
  - by exists down, up.
Defined.

Lemma analyze_impact_of_node_witness :
  ∃ r, GraphCodeBERTEmbedder.analyze_impact (cycle_store (N := binary64) 1%float) "A"
       = Return r ∧
    ∀ v, v ∈ GraphCodeBERTEmbedder.direct_callees r →
         v ∈ GraphCodeBERTEmbedder.downstream r.
Proof.
  destruct (analyze_impact_of_node (cycle_store (N := binary64) 1%float) "A"
              (store_of_wf _) eq_refl) as (r & Hr & _ & _ & _ & _ & _ & H).
  by exists r.
Defined.

(** ** The FAISS tables *)

Section faiss_tables.
Import FAISSInterface.
Context {N : Numeric}.
Implicit Types self : FAISSInterface.t.

(** What the calls keep true of the tables of an instance: slots are
    numbered from zero below [next_index], a slot has a record exactly
    when it has an id, which is the id of the record, and the slot of
    an id holds that id. *)
Record tables self : Prop := {
  tables_next : 0 ≤ next_index self;
  tables_range : ∀ i id, index_to_id self !! i = Some id → 0 ≤ i < next_index self;
  tables_meta : ∀ i, is_Some (node_metadata self !! i) ↔ is_Some (index_to_id self !! i);
  tables_id : ∀ i node, node_metadata self !! i = Some node →
    index_to_id self !! i = Some (CodeNode.id node);
  tables_slot : ∀ id i, id_to_index self !! id = Some i →
    index_to_id self !! i = Some id;
}.

Lemma tables_init (dimension : Z) : tables (init dimension).
Proof.
  split; simpl; try done.
  intros i. by rewrite !lookup_empty.
Qed.

Lemma tables_register self node : tables self → tables (register self node).
Proof.
  intros T. pose proof (tables_next _ T) as Hnext. split; simpl.
  - lia.
  - intros i id. destruct (decide (i = next_index self)) as [->|Hne].
    + intros _. lia.
    + rewrite lookup_insert_ne by done. intros Hi.
      apply (tables_range _ T) in Hi. lia.
  - intros i. destruct (decide (i = next_index self)) as [->|Hne].
    + rewrite !lookup_insert_eq. split; by eexists.
    + rewrite !lookup_insert_ne by done. apply (tables_meta _ T).
  - intros i n. destruct (decide (i = next_index self)) as [->|Hne].
    + rewrite !lookup_insert_eq. by intros [= ->].
    + rewrite !lookup_insert_ne by done. apply (tables_id _ T).
  - intros id i. destruct (decide (id = CodeNode.id node)) as [->|Hne].
    + rewrite lookup_insert_eq. intros [= <-]. by rewrite lookup_insert_eq.
    + rewrite lookup_insert_ne by done. intros Hi.
      pose proof (tables_range _ T _ _ (tables_slot _ T _ _ Hi)) as Hr.
      rewrite lookup_insert_ne by lia. by apply (tables_slot _ T).
Qed.

Lemma tables_fold_register (l : list CodeNode.t) self :
  tables self → tables (fold_left register l self).
Proof.
  revert self. induction l as [|n l IH]; intros self T; [done|].
  simpl. by apply IH, tables_register.
Qed.

Lemma tables_add_embeddings nodes self :
  tables self → tables (add_embeddings nodes self).2.
Proof.
  intros T. unfold add_embeddings.
  destruct (omap CodeNode.embedding nodes); [done|].
  destruct (_ ≫= _) as [index'| |]; [|done..]. simpl.
  assert (T' : tables (fold_left register
                         (filter (λ node, is_Some (CodeNode.embedding node)) nodes)
                         (set_index index' self))).
  { apply tables_fold_register. split; apply T. }
  split; apply T'.
Qed.

Lemma tables_update_node node self :
  tables self → tables (update_node node self).2.
Proof.
  intros T. unfold update_node.
  destruct (id_to_index self !! CodeNode.id node) as [i|] eqn:Hi; [|done].
  pose proof (tables_slot _ T _ _ Hi) as Hid.
  split; simpl; try apply T.
  - intros j. destruct (decide (j = i)) as [->|Hne].
    + rewrite lookup_insert_eq, Hid. split; by eexists.
    + rewrite lookup_insert_ne by done. apply (tables_meta _ T).
  - intros j n. destruct (decide (j = i)) as [->|Hne].
    + rewrite lookup_insert_eq. by intros [= <-].
    + rewrite lookup_insert_ne by done. apply (tables_id _ T).
Qed.

(** On coherent tables [delete_node] finds what it deletes. *)
Lemma tables_delete_node node_id self :
  tables self →
  (delete_node node_id self).1 = Return () ∧ tables (delete_node node_id self).2.
Proof.
  intros T. unfold delete_node.
  destruct (id_to_index self !! node_id) as [i|] eqn:Hi; [|done].
  pose proof (tables_slot _ T _ _ Hi) as Hid.
  destruct (proj2 (tables_meta _ T i)) as [node Hnode]; [by eexists|].
  rewrite Hnode, Hid. simpl. split; [done|]. split; simpl.
  - apply T.
  - intros j id. destruct (decide (j = i)) as [->|Hne].
    + by rewrite lookup_delete_eq.
    + rewrite lookup_delete_ne by done. apply (tables_range _ T).
  - intros j. destruct (decide (j = i)) as [->|Hne].
    + rewrite !lookup_delete_eq. split; by intros [? ?].
    + rewrite !lookup_delete_ne by done. apply (tables_meta _ T).
  - intros j n. destruct (decide (j = i)) as [->|Hne].
    + by rewrite lookup_delete_eq.
    + rewrite !lookup_delete_ne by done. apply (tables_id _ T).
  - intros id j. destruct (decide (id = node_id)) as [->|Hne].
    + by rewrite lookup_delete_eq.
    + rewrite lookup_delete_ne by done. intros Hj.
      pose proof (tables_slot _ T _ _ Hj) as Hj'.
      destruct (decide (j = i)) as [->|?]; [congruence|].
      by rewrite lookup_delete_ne.
Qed.

Lemma tables_run (op : operation) self : tables self → tables (run op self).
Proof.
  destruct op as [nodes|node|node_id]; simpl.
  - apply tables_add_embeddings.
  - apply tables_update_node.
  - apply tables_delete_node.
Qed.

Lemma slots_run (op : operation) self :
  next_index self = slots self → next_index (run op self) = slots (run op self).
Proof.
  intros Hs. destruct op as [nodes|node|node_id]; simpl.
  - unfold add_embeddings.
    destruct (omap CodeNode.embedding nodes) as [|e es] eqn:Hes; [done|].
    destruct (np_array_float32 (e :: es)) as [a| |] eqn:Ha; simpl; [|done..].
    unfold index_add. destruct (forallb _ a); simpl; [|done].
    unfold slots, ntotal in *. simpl.
    rewrite fold_register_next_index, fold_register_index. simpl.
    rewrite length_app, Nat2Z.inj_add, <- Hs. f_equal. f_equal.
    assert (Hlen : length a = length (e :: es)).
    { unfold np_array_float32 in Ha. destruct (forallb _ es); [|done].
      injection Ha as <-. simpl. f_equal. apply length_map. }
    rewrite Hlen, <- Hes. clear.
    induction nodes as [|n nodes IH]; simpl; [done|].
    rewrite filter_cons.
    destruct (decide (is_Some (CodeNode.embedding n))) as [[x Hx]|Hn].
    + rewrite Hx. simpl. by rewrite IH.
    + destruct (CodeNode.embedding n); [exfalso; apply Hn; by eexists|done].
  - unfold update_node. by destruct (id_to_index self !! _).
  - unfold delete_node. destruct (id_to_index self !! _); [|done].
    destruct (node_metadata self !! _); [|done].
    by destruct (index_to_id self !! _).
Qed.

Lemma tables_get_node self (node_id : string) (node : CodeNode.t) :
  tables self → get_node self node_id = Some node → CodeNode.id node = node_id.
Proof.
  intros T. unfold get_node.
  destruct (id_to_index self !! node_id) as [i|] eqn:Hi; [|done].
  intros Hn. pose proof (tables_slot _ T _ _ Hi) as H1.
  pose proof (tables_id _ T _ _ Hn) as H2. congruence.
Qed.

Lemma tables_reachable (dimension : Z) (ops : list operation) :
  let self := fold_left (λ self op, run op self) ops (init dimension) in
  tables self ∧ next_index self = slots self.
Proof.
  simpl. generalize (tables_init dimension).
  assert (Hs : next_index (init dimension) = slots (init dimension)) by done.
  revert Hs. generalize (init dimension).
  induction ops as [|op ops IH]; intros s Hs T; [done|].
  simpl. apply IH; [by apply slots_run|by apply tables_run].
Qed.

(** Whatever calls were made on a new instance, failed ones included:
    [next_index] is the number of vectors in the index; [get_node]
    returns a record only under the record's own id; and
    [delete_node] returns for every id, known or not, after which
    [get_node] has nothing for the id. *)
Theorem faiss_tables_coherent (dimension : Z) (ops : list operation) :
  let self := fold_left (λ self op, run op self) ops (init dimension) in
  next_index self = slots self ∧
  (∀ node_id node, get_node self node_id = Some node → CodeNode.id node = node_id) ∧
  (∀ node_id,
     (delete_node node_id self).1 = Return () ∧
     get_node (delete_node node_id self).2 node_id = None).
Proof.
  intros self.
  destruct (tables_reachable dimension ops) as [T Hs]. fold self in T, Hs.
  split; [done|]. split.
  - intros node_id node. by apply tables_get_node.
  - intros node_id. split; [by apply tables_delete_node|].
    unfold delete_node, get_node.
    destruct (id_to_index self !! node_id) as [i|] eqn:Hi; [|simpl; by rewrite Hi].
    pose proof (tables_slot _ T _ _ Hi) as Hid.
    destruct (proj2 (tables_meta _ T i)) as [node Hnode]; [by eexists|].
    rewrite Hnode, Hid. simpl. by rewrite lookup_delete_eq.
Qed.

(** A node added again under an id that has a slot gets a new slot;
    the old slot keeps its vector, its record and the id. After
    [delete_node] of the id, [get_node] has nothing for it, yet the
    old slot still answers to the id: a search whose index rows
    include the old slot returns the deleted id with that row's score. *)
Theorem readded_node_outlives_delete (dimension : Z) (ops : list operation)
    (node : CodeNode.t) (e : list float) (old_slot : Z) :
  let self := fold_left (λ self op, run op self) ops (init dimension) in
  id_to_index self !! CodeNode.id node = Some old_slot →
  CodeNode.embedding node = Some e →
  Z.of_nat (length e) = d (index self) →
  let added := (add_embeddings [node] self).2 in
  let deleted := (delete_node (CodeNode.id node) added).2 in
  (add_embeddings [node] self).1 = Return () ∧
  id_to_index added !! CodeNode.id node = Some (next_index self) ∧
  (delete_node (CodeNode.id node) added).1 = Return () ∧
  get_node deleted (CodeNode.id node) = None ∧
  index_to_id deleted !! old_slot = Some (CodeNode.id node) ∧
  is_Some (node_metadata deleted !! old_slot) ∧
  ∀ (query_embedding : list float) (top_k : Z) rows (score : float),
    index_search (index deleted) (map as_float32 query_embedding) top_k = Return rows →
    (score, old_slot) ∈ rows →
    ∃ hits, search deleted query_embedding top_k = Return hits ∧
      (CodeNode.id node, score) ∈ hits.
Proof.
  intros self Hold He Hd added deleted.
  destruct (tables_reachable dimension ops) as [T _]. fold self in T.
  pose proof (tables_slot _ T _ _ Hold) as Hid.
  pose proof (tables_range _ T _ _ Hid) as Hrange.
  destruct (proj2 (tables_meta _ T old_slot)) as [old Hmeta]; [by eexists|].
  subst deleted added. rewrite (add_embeddings_single self node e He Hd). simpl.
  unfold delete_node. simpl. rewrite !lookup_insert_eq. simpl.
  split; [done|]. split; [done|]. split; [done|]. split; [|split; [|split]].
  - unfold get_node. simpl. by rewrite lookup_delete_eq.
  - rewrite lookup_delete_ne, lookup_insert_ne by lia. done.
  - rewrite lookup_delete_ne, lookup_insert_ne by lia. by eexists.
  - intros query_embedding top_k rows score Hrows Hin. unfold search. simpl.
    rewrite Hrows. simpl. eexists. split; [done|].
    apply list_elem_of_omap. exists (score, old_slot). split; [done|]. simpl.
    rewrite lookup_delete_ne, lookup_insert_ne by lia. by rewrite Hid.
Qed.

(** *** Restarting over the saved files *)

Lemma fold_register_dimension (l : list CodeNode.t) self :
  dimension (fold_left register l self) = dimension self.
Proof.
  revert self. induction l as [|n l IH]; intros self; simpl; [done|].
  by rewrite IH.
Qed.

(** Without [delete_node] the files are those of the last save. *)
Lemma files_current (dim : Z) (ops : list operation) :
  Forall (λ op, ∀ node_id, op ≠ DeleteNode node_id) ops →
  let self := fold_left (λ self op, run op self) ops (init dim) in
  dimension self = dim ∧ (self = init dim ∨ self = _save_index self).
Proof.
  intros Hops. simpl.
  assert (H : ∀ s, dimension s = dim ∧ (s = init dim ∨ s = _save_index s) →
              dimension (fold_left (λ self op, run op self) ops s) = dim ∧
              (fold_left (λ self op, run op self) ops s = init dim ∨
               fold_left (λ self op, run op self) ops s
               = _save_index (fold_left (λ self op, run op self) ops s)));
    [|apply H; split; [done|by left]].
  induction Hops as [|op ops Hop _ IH]; intros s Hs; [done|].
  simpl. apply IH. destruct Hs as [Hd Hs].
  destruct op as [nodes|node|node_id]; simpl.
  - unfold add_embeddings. destruct (omap CodeNode.embedding nodes); [done|].
    destruct (_ ≫= _) as [index'| |]; [|done..]. simpl.
    split; [by rewrite fold_register_dimension|by right].
  - unfold update_node. destruct (id_to_index s !! _); [|done].
    simpl. split; [done|by right].
  - by destruct (Hop node_id).
Qed.

(** While no [delete_node] was called, a new instance over the saved
    files has the index, the id tables and [next_index] of the old
    one, and its records, read back; so every search answers as
    before and [get_node] returns the record read back. A
    [delete_node] is not saved: after it, a new instance over the
    files has the deleted record again. *)
Theorem restart_restores_saved_state (dimension : Z) (ops : list operation) :
  Forall (λ op, ∀ node_id, op ≠ DeleteNode node_id) ops →
  let self := fold_left (λ self op, run op self) ops (init dimension) in
  let restarted := __init__ dimension (disk self) in
  index restarted = index self ∧
  id_to_index restarted = id_to_index self ∧
  index_to_id restarted = index_to_id self ∧
  next_index restarted = next_index self ∧
  node_metadata restarted = loaded_node <$> node_metadata self ∧
  (∀ query_embedding top_k,
     search restarted query_embedding top_k = search self query_embedding top_k) ∧
  (∀ node_id, get_node restarted node_id = loaded_node <$> get_node self node_id) ∧
  (∀ node_id node, get_node self node_id = Some node →
     let deleted := (delete_node node_id self).2 in
     get_node deleted node_id = None ∧
     get_node (__init__ dimension (disk deleted)) node_id = Some (loaded_node node)).
Proof.
  intros Hops self restarted.
  destruct (files_current dimension ops Hops) as [Hdim Hsaved]. fold self in Hdim, Hsaved.
  destruct (tables_reachable dimension ops) as [T _]. fold self in T.
  assert (H : index restarted = index self ∧
              id_to_index restarted = id_to_index self ∧
              index_to_id restarted = index_to_id self ∧
              next_index restarted = next_index self ∧
              node_metadata restarted = loaded_node <$> node_metadata self).
  { subst restarted. destruct Hsaved as [Hs|Hs]; rewrite Hs.
    - simpl. unfold __init__, _load_index. simpl. by rewrite fmap_empty.
    - unfold __init__, _load_index. simpl. by rewrite (right_id_L ∅ (∪)). }
  destruct H as (H1 & H2 & H3 & H4 & H5).
  assert (Hget : ∀ node_id, get_node restarted node_id
                            = loaded_node <$> get_node self node_id).
  { intros node_id. unfold get_node. rewrite H2, H5.
    destruct (id_to_index self !! node_id) as [i|]; [|done]. by rewrite lookup_fmap. }
  repeat (split; [done|]). split; [|split; [done|]].
  - intros query_embedding top_k. unfold search. by rewrite H1, H3.
  - intros node_id node Hnode deleted.
    assert (Hdisk : disk deleted = disk self).
    { subst deleted. unfold delete_node.
      destruct (id_to_index self !! node_id); [|done].
      destruct (node_metadata self !! _); [|done].
      by destruct (index_to_id self !! _). }
    rewrite Hdisk. fold restarted. rewrite Hget, Hnode. split; [|done].
    subst deleted. unfold get_node in Hnode. unfold delete_node, get_node.
    destruct (id_to_index self !! node_id) as [i|] eqn:Hi; [|done].
    rewrite Hnode. rewrite (tables_slot _ T _ _ Hi). simpl.
    by rewrite lookup_delete_eq.
Qed.
End faiss_tables.

Section faiss_tables_examples.
Import FAISSInterface.
Local Existing Instance binary64.

Lemma readded_node_outlives_delete_witness :
  let old := node64 "a" "int f()" (Some [1%float; 0%float]) in
  let new := node64 "a" "int g()" (Some [0%float; 1%float]) in
  let self := (add_embeddings [old] (init 2)).2 in
  let deleted := (delete_node "a" (add_embeddings [new] self).2).2 in
  get_node deleted "a" = None ∧ index_to_id deleted !! 0 = Some "a".
Proof.
  intros old new self deleted.
  destruct (readded_node_outlives_delete 2 [AddEmbeddings [old]] new
              [0%float; 1%float] 0 eq_refl eq_refl eq_refl)
    as (_ & _ & _ & Hget & Hslot & _).
  split; [exact Hget|exact Hslot].
Defined.

Lemma restart_restores_saved_state_witness :
  let old := node64 "a" "int f()" (Some [1%float; 0%float]) in
  let new := node64 "a" "int g()" (Some [0%float; 1%float]) in
  let self := (update_node new (add_embeddings [old] (init 2)).2).2 in
  get_node (__init__ 2 (disk self)) "a" = loaded_node <$> get_node self "a" ∧
  get_node (__init__ 2 (disk (delete_node "a" self).2)) "a" = Some (loaded_node new).
Proof.
  intros old new self.
  assert (Hops : Forall (λ op : operation, ∀ node_id, op ≠ DeleteNode node_id)
                   [AddEmbeddings [old]; UpdateNode new])
    by (repeat constructor; intros node_id; discriminate).
  destruct (restart_restores_saved_state 2 [AddEmbeddings [old]; UpdateNode new] Hops)
    as (_ & _ & _ & _ & _ & _ & Hget & Hdel).
  split; [apply Hget|]. by apply (Hdel "a" new).
Defined.
End faiss_tables_examples.

(** ** The Java parser *)

Section parser_text.
Import pystr.

Lemma chars_app (a b : string) : chars (a +:+ b) = chars a ++ chars b.
Proof. unfold chars. induction a as [|c a IH]; simpl; [done|]. by rewrite IH. Qed.

Lemma chars_str (l : list ascii) : chars (str l) = l.
Proof. apply String.list_ascii_of_string_of_list_ascii. Qed.

Lemma chars_concat (c : ascii) (sep : string) (l : list string) :
  c ∉ chars sep → (∀ s, s ∈ l → c ∉ chars s) → c ∉ chars (String.concat sep l).
Proof.
  intros Hsep. induction l as [|s l IH]; intros Hl; simpl.
  - apply not_elem_of_nil.
  - destruct l as [|s' l].
    + apply Hl. by left.
    + rewrite !chars_app. rewrite !not_elem_of_app. split; [apply Hl; by left|].
      split; [done|]. apply IH. intros x Hx. apply Hl. by right.
Qed.

Lemma span_spec (p : ascii → bool) (s a b : list ascii) :
  span p s = (a, b) →
  s = a ++ b ∧ Forall (λ c, p c = true) a ∧
  match b with c :: _ => p c = false | [] => True end.
Proof.
  revert a b. induction s as [|c s IH]; intros a b; simpl.
  - intros [= <- <-]. by repeat split.
  - destruct (p c) eqn:Hc.
    + destruct (span p s) as [a' b'] eqn:Hs. intros [= <- <-].
      destruct (IH a' b' eq_refl) as (-> & Ha & Hb).
      split; [done|]. split; [by constructor|done].
    + intros [= <- <-]. split; [done|]. split; [constructor|done].
Qed.

Lemma isword_not_space (c : ascii) : isword c = true → isspace c = false.
Proof. destruct c as [[] [] [] [] [] [] [] []]; by vm_compute. Qed.

(** A match of the call pattern: a word, a dot, a word, spaces, an
    opening parenthesis. *)
Lemma match_call_inv (s o m : list ascii) (len : nat) :
  JavaCodeParser.match_call s = Some (o, m, len) →
  ∃ sp rest, s = o ++ "."%char :: m ++ sp ++ "("%char :: rest ∧
    o ≠ [] ∧ m ≠ [] ∧
    Forall (λ c, isword c = true) o ∧ Forall (λ c, isword c = true) m ∧
    Forall (λ c, isspace c = true) sp.
Proof.
  unfold JavaCodeParser.match_call.
  destruct (span isword s) as [o' s1] eqn:H1.
  destruct (span_spec _ _ _ _ H1) as (-> & Ho & _).
  destruct o' as [|c o']; [done|].
  destruct s1 as [|d s2]; [done|].
  destruct (decide (d = "."%char)) as [->|Hd];
    [|by destruct d as [[] [] [] [] [] [] [] []]].
  destruct (span isword s2) as [m' s3] eqn:H2.
  destruct (span_spec _ _ _ _ H2) as (-> & Hm & _).
  destruct m' as [|c' m']; [done|].
  destruct (span isspace s3) as [sp s4] eqn:H3.
  destruct (span_spec _ _ _ _ H3) as (-> & Hsp & _).
  destruct s4 as [|p rest]; [done|].
  destruct (decide (p = "("%char)) as [->|Hp];
    [|by destruct p as [[] [] [] [] [] [] [] []]].
  intros [= <- <- _]. exists sp, rest. by repeat split.
Qed.

Lemma findall_nil (s : list ascii) :
  (∀ pre suffix, s = pre ++ suffix → JavaCodeParser.match_call suffix = None) →
  ∀ skip, JavaCodeParser.findall skip s = [].
Proof.
  induction s as [|c s IH]; intros Hno skip; [done|]. simpl.
  assert (Hs : ∀ pre suffix, s = pre ++ suffix →
               JavaCodeParser.match_call suffix = None).
  { intros pre suffix ->. by apply (Hno (c :: pre)). }
  destruct skip as [|n]; [|by apply IH].
  rewrite (Hno [] (c :: s) eq_refl). by apply IH.
Qed.

(** The groups of the matches are words: no dot in them. *)
Lemma findall_words (s : list ascii) (skip : nat) (o m : list ascii) :
  (o, m) ∈ JavaCodeParser.findall skip s →
  Forall (λ c, isword c = true) o ∧ Forall (λ c, isword c = true) m.
Proof.
  revert skip. induction s as [|c s IH]; intros skip; simpl.
  - by intros ?%elem_of_nil.
  - destruct skip as [|n]; [|apply IH].
    destruct (JavaCodeParser.match_call (c :: s)) as [[[o' m'] len]|] eqn:Hm; [|apply IH].
    intros [[= -> ->]|Hin]%elem_of_cons; [|by apply (IH _ Hin)].
    destruct (match_call_inv _ _ _ _ Hm) as (sp & rest & _ & _ & _ & Ho & Hm' & _).
    done.
Qed.

Lemma elem_of_concat {A} (x : A) (ls : list (list A)) :
  x ∈ concat ls ↔ ∃ l, x ∈ l ∧ l ∈ ls.
Proof.
  induction ls as [|l ls IH]; simpl.
  - split; [by intros ?%elem_of_nil|]. by intros (l & _ & ?%elem_of_nil).
  - rewrite elem_of_app, IH. split.
    + intros [?|(l' & ? & ?)]; [exists l; split; [done|by left]|].
      exists l'. split; [done|by right].
    + intros (l' & ? & [->|?]%elem_of_cons); [by left|]. right. by exists l'.
Qed.

Lemma unique_split {A} (x : A) (l1 l2 l3 l4 : list A) :
  x ∉ l1 → x ∉ l2 → l1 ++ x :: l2 = l3 ++ x :: l4 → l1 = l3.
Proof.
  revert l3. induction l1 as [|a l1 IH]; intros l3 H1 H2 Heq.
  - destruct l3 as [|y l3]; [done|]. simpl in Heq. injection Heq as <- ->.
    destruct H2. apply elem_of_app. right. by left.
  - destruct l3 as [|y l3]; simpl in Heq.
    + injection Heq as -> _. destruct H1. by left.
    + injection Heq as <- Heq. f_equal. apply IH; [|done..].
      intros ?. apply H1. by right.
Qed.

Lemma first_mark {A} (a b : A) (l1 r1 l2 r2 : list A) :
  b ∉ l1 → a ∉ l2 → a ≠ b → l1 ++ a :: r1 ≠ l2 ++ b :: r2.
Proof.
  revert l2. induction l1 as [|x l1 IH]; intros l2 H1 H2 Hab Heq.
  - destruct l2 as [|y l2]; simpl in Heq.
    + by injection Heq.
    + injection Heq as -> _. destruct H2. by left.
  - destruct l2 as [|y l2]; simpl in Heq.
    + injection Heq as -> _. destruct H1. by left.
    + injection Heq as _ Heq. apply (IH l2); [| |done..].
      * intros ?. apply H1. by right.
      * intros ?. apply H2. by right.
Qed.

(** A text [before name(after], where [before] ends with a space, the
    name holds a character and no dot, parenthesis or space, and no
    parenthesis opens elsewhere, has no call. *)
Lemma no_call_in_signature (before name after : list ascii) :
  "("%char ∉ before → "("%char ∉ after →
  name ≠ [] →
  (∀ c, c ∈ name → isspace c = false ∧ c ≠ "."%char ∧ c ≠ "("%char) →
  ∀ skip,
    JavaCodeParser.findall skip (before ++ " "%char :: name ++ "("%char :: after) = [].
Proof.
  intros Hb Ha Hne Hname. apply findall_nil. intros pre suffix Heq.
  destruct (JavaCodeParser.match_call suffix) as [[[o m] len]|] eqn:Hm; [exfalso|done].
  destruct (match_call_inv _ _ _ _ Hm) as (sp & rest & -> & Ho & Hmne & Hwo & Hwm & Hsp).
  assert (Hx : before ++ " "%char :: name = pre ++ o ++ "."%char :: m ++ sp).
  { apply (unique_split "("%char _ after _ rest).
    - rewrite not_elem_of_app, not_elem_of_cons. split; [done|]. split; [done|].
      intros Hin. by destruct (Hname _ Hin) as (_ & _ & ?).
    - done.
    - rewrite <- app_assoc. simpl. rewrite Heq.
      repeat (rewrite <- app_assoc; simpl). done. }
  apply (f_equal reverse) in Hx.
  rewrite !reverse_app, !reverse_cons, !reverse_app in Hx.
  rewrite <- !app_assoc in Hx. simpl in Hx.
  destruct (reverse name) as [|c rname] eqn:Hrn.
  { apply (f_equal reverse) in Hrn. rewrite reverse_involutive in Hrn. done. }
  assert (Hc : ∀ x, x ∈ c :: rname → isspace x = false ∧ x ≠ "."%char).
  { intros x Hx'. rewrite <- Hrn, elem_of_reverse in Hx'.
    by destruct (Hname _ Hx') as (? & ? & _). }
  destruct (reverse sp) as [|s rsp] eqn:Hrsp.
  - rewrite app_nil_l in Hx.
    apply (first_mark " "%char "."%char (c :: rname) (reverse before) (reverse m)
             (reverse o ++ reverse pre)); [| |done|exact Hx].
    + intros Hin. by destruct (Hc _ Hin) as [_ ?].
    + rewrite elem_of_reverse. intros Hin.
      by pose proof (proj1 (Forall_forall _ _) Hwm _ Hin).
  - simpl in Hx. injection Hx as <- _.
    assert (Hs : isspace c = true).
    { apply (proj1 (Forall_forall _ _) Hsp). rewrite <- elem_of_reverse.
      rewrite Hrsp. by left. }
    destruct (Hc c) as [Hc' _]; [by left|]. congruence.
Qed.
End parser_text.

Section parser_relations.
Import pystr javalang JavaCodeParser.

(** Names as Java writes them: an identifier holds a character and no
    space, dot or parenthesis. *)
Definition identifier (s : string) : Prop :=
  chars s ≠ [] ∧
  ∀ c, c ∈ chars s → isspace c = false ∧ c ≠ "."%char ∧ c ≠ "("%char.

Definition no_paren (s : string) : Prop := "("%char ∉ chars s.
Definition no_dot (s : string) : Prop := "."%char ∉ chars s.

Definition plain_method (m : MethodDeclaration) : Prop :=
  identifier (method_name m) ∧
  Forall no_paren (method_modifiers m) ∧
  (∀ r, method_return_type m = Some r → no_paren r) ∧
  Forall (λ p, no_paren (parameter_type p) ∧ no_paren (parameter_name p))
    (method_parameters m).

Definition plain_class (c : ClassDeclaration) : Prop :=
  identifier (class_name c) ∧ Forall plain_method (class_methods c) ∧
  (∀ e, class_extends c = Some e → no_dot e) ∧ Forall no_dot (class_implements c).

Definition plain_interface (i : InterfaceDeclaration) : Prop :=
  identifier (interface_name i) ∧ Forall plain_method (interface_methods i) ∧
  Forall no_dot (interface_extends i).

Definition plain_unit (tree : CompilationUnit) : Prop :=
  Forall plain_class (classes tree) ∧ Forall plain_interface (interfaces tree).

Definition plain_files (files : list (string * option (string * CompilationUnit)))
    : Prop :=
  ∀ path content tree, (path, Some (content, tree)) ∈ files → plain_unit tree.

(** A parsed class whose method bodies hold no call and whose names
    hold no dot. *)
Definition tidy (c : JavaClass.t) : Prop :=
  no_dot (JavaClass.name c) ∧
  Forall (λ m, ∀ skip, findall skip (chars (JavaMethod.body m)) = [])
    (JavaClass.methods c) ∧
  (∀ e, JavaClass.extends c = Some e → no_dot e) ∧
  Forall no_dot (JavaClass.implements c).

Lemma identifier_no_dot (s : string) : identifier s → no_dot s.
Proof. intros [_ H] Hin. by destruct (H _ Hin) as (_ & ? & _). Qed.

(** The text [_extract_method_body] returns, the signature, holds no
    call. *)
Lemma extract_method_body_no_call (m : MethodDeclaration) (skip : nat) :
  plain_method m → findall skip (chars (_extract_method_body m)) = [].
Proof.
  intros ([Hne Hname] & Hmods & Hret & Hparams). unfold _extract_method_body.
  destruct (method_body m); simpl; [|by destruct skip].
  rewrite !chars_app. change (chars " ") with [" "%char].
  change (chars "(") with ["("%char]. change (chars ")") with [")"%char].
  set (mods := chars (String.concat " " (method_modifiers m))).
  set (ret := chars (default "void" (method_return_type m))).
  set (params := chars (String.concat ", " (map parameter_text (method_parameters m)))).
  replace (mods ++ [" "%char] ++ ret ++ [" "%char] ++ chars (method_name m)
           ++ ["("%char] ++ params ++ [")"%char])
    with ((mods ++ " "%char :: ret) ++ " "%char :: chars (method_name m)
          ++ "("%char :: (params ++ [")"%char]))
    by (by rewrite <- !app_assoc).
  apply no_call_in_signature; [| |done..].
  - rewrite not_elem_of_app, not_elem_of_cons. split; [|split; [done|]].
    + apply chars_concat; [by vm_compute; set_solver|].
      intros s Hs. by apply (proj1 (Forall_forall _ _) Hmods).
    + subst ret. destruct (method_return_type m) as [r|]; simpl; [by apply Hret|].
      vm_compute. set_solver.
  - rewrite not_elem_of_app. split; [|set_solver].
    apply chars_concat; [vm_compute; set_solver|].
    intros s (p & -> & Hp)%list_elem_of_fmap.
    destruct (proj1 (Forall_forall _ _) Hparams _ Hp) as [H1 H2].
    unfold parameter_text. rewrite !chars_app, !not_elem_of_app.
    split; [done|]. split; [vm_compute; set_solver|done].
Qed.

Lemma extract_class_info_tidy node tree content :
  plain_class node → tidy (_extract_class_info node tree content).
Proof.
  intros (Hname & Hmethods & Hext & Himpl). unfold _extract_class_info, tidy. simpl.
  split; [by apply identifier_no_dot|]. split; [|done].
  apply Forall_forall. intros jm (m & -> & Hm)%list_elem_of_fmap skip. simpl.
  apply extract_method_body_no_call. by apply (proj1 (Forall_forall _ _) Hmethods).
Qed.

Lemma extract_interface_info_tidy node tree content :
  plain_interface node → tidy (_extract_interface_info node tree content).
Proof.
  intros (Hname & Hmethods & Hext). unfold _extract_interface_info, tidy. simpl.
  split; [by apply identifier_no_dot|]. split; [|done].
  apply Forall_forall. intros jm (m & -> & Hm)%list_elem_of_fmap skip. simpl.
  apply extract_method_body_no_call. by apply (proj1 (Forall_forall _ _) Hmethods).
Qed.

Lemma parse_java_file_tidy file_path source self :
  (∀ content tree, source = Some (content, tree) → plain_unit tree) →
  Forall (λ item, tidy item.2) (parsed_files self) →
  let self' := (parse_java_file file_path source self).2 in
  Forall (λ item, tidy item.2) (parsed_files self') ∧
  method_calls self' = method_calls self ∧
  type_references self' = type_references self.
Proof.
  intros Hplain Htidy. unfold parse_java_file.
  destruct source as [[content tree]|]; [|done].
  destruct (Hplain content tree eq_refl) as [Hc Hi].
  assert (Hset : ∀ c, tidy c →
            Forall (λ item, tidy item.2) (odict.set file_path c (parsed_files self))).
  { intros c Hc'. apply Forall_forall. intros x [->|Hx]%odict_set_elem; [done|].
    by apply (proj1 (Forall_forall _ _) Htidy). }
  destruct (classes tree) as [|node ?]; simpl.
  - destruct (interfaces tree) as [|node ?]; simpl; [done|].
    split; [|done]. apply Hset, extract_interface_info_tidy.
    by apply Forall_cons in Hi as [? _].
  - split; [|done]. apply Hset, extract_class_info_tidy.
    by apply Forall_cons in Hc as [? _].
Qed.

Lemma find_method_calls_none (method_body caller_id : string) self :
  (∀ skip, findall skip (chars method_body) = []) →
  _find_method_calls_in_body method_body caller_id self = self.
Proof.
  intros Hno. unfold _find_method_calls_in_body. rewrite Hno. simpl.
  rewrite app_nil_r. by destruct self.
Qed.

Lemma analyze_method_calls_tidy self :
  Forall (λ item, tidy item.2) (parsed_files self) → _analyze_method_calls self = self.
Proof.
  unfold _analyze_method_calls. generalize (parsed_files self) as items.
  intros items. revert self. induction items as [|[path c] items IH]; intros self Ht; [done|].
  apply Forall_cons in Ht as [(_ & Hm & _) Ht]. simpl in *.
  assert (Hinner : ∀ methods s,
            Forall (λ m, ∀ skip, findall skip (chars (JavaMethod.body m)) = []) methods →
            fold_left (λ self method,
              _find_method_calls_in_body (JavaMethod.body method)
                (JavaClass.name c +:+ "." +:+ JavaMethod.name method) self) methods s = s).
  { intros methods. induction methods as [|m methods IHm]; intros s Hms; [done|].
    apply Forall_cons in Hms as [Hm0 Hms]. simpl.
    rewrite find_method_calls_none by done. by apply IHm. }
  rewrite Hinner by done. by apply IH.
Qed.

Lemma references_of_no_dot (c : JavaClass.t) (a b : string) :
  tidy c → (a, b) ∈ references_of c → no_dot a ∧ no_dot b.
Proof.
  intros (Hname & _ & Hext & Himpl). unfold references_of.
  rewrite !elem_of_app. intros [Hin|[Hin|Hin]].
  - destruct (JavaClass.extends c) as [e|]; [|by apply elem_of_nil in Hin].
    apply list_elem_of_singleton in Hin as [= -> ->]. split; [done|by apply Hext].
  - apply list_elem_of_fmap in Hin as (impl & [= -> ->] & Hin).
    split; [done|]. by apply (proj1 (Forall_forall _ _) Himpl).
  - apply list_elem_of_fmap in Hin as (imp & [= -> ->] & Hin).
    split; [done|]. unfold no_dot. rewrite chars_str.
    destruct (last (split "."%char (chars imp))) as [piece|] eqn:Hl; simpl.
    + apply (split_no_sep _ (chars imp)). by apply last_Some_elem_of.
    + apply not_elem_of_nil.
Qed.

Lemma parse_java_directory_tidy files self :
  plain_files files →
  Forall (λ item, tidy item.2) (parsed_files self) →
  let self' := (parse_java_directory files self).2 in
  Forall (λ item, tidy item.2) (parsed_files self') ∧
  method_calls self' = method_calls self ∧
  ∀ a b, (a, b) ∈ type_references self' →
    ((a, b) ∈ type_references self ∨ (no_dot a ∧ no_dot b)).
Proof.
  intros Hplain Htidy. unfold parse_java_directory.
  assert (Hfold : ∀ files acc s,
    (∀ path content tree, (path, Some (content, tree)) ∈ files → plain_unit tree) →
    Forall (λ item, tidy item.2) (parsed_files s) →
    let r := fold_left (λ '(parsed_classes, self) '(java_file, source),
               match parse_java_file java_file source self with
               | (Some java_class, self) => (parsed_classes ++ [java_class], self)
               | (None, self) => (parsed_classes, self)
               end) files (acc, s) in
    Forall (λ item, tidy item.2) (parsed_files r.2) ∧
    method_calls r.2 = method_calls s ∧ type_references r.2 = type_references s).
  { clear. intros files. induction files as [|[path source] files IH];
      intros acc s Hplain Htidy; [done|]. simpl.
    destruct (parse_java_file_tidy path source s) as (H1 & H2 & H3); [|done|].
    { intros content tree ->. apply (Hplain path content tree). by left. }
    destruct (parse_java_file path source s) as [[c|] s'] eqn:Hp; simpl in *.
    - destruct (IH (acc ++ [c]) s') as (? & ? & ?); [|done|].
      { intros p c' t ?. apply (Hplain p c' t). by right. }
      split; [done|]. split; congruence.
    - destruct (IH acc s') as (? & ? & ?); [|done|].
      { intros p c' t ?. apply (Hplain p c' t). by right. }
      split; [done|]. split; congruence. }
  specialize (Hfold files [] self Hplain Htidy).
  destruct (fold_left _ files ([], self)) as [parsed_classes s'].
  simpl in Hfold. destruct Hfold as (Ht & Hc & Hr). simpl.
  rewrite analyze_method_calls_tidy by done.
  split; [done|]. split; [done|].
  intros a b [Hin|Hin]%elem_of_app; [left; by rewrite <- Hr|right].
  apply elem_of_concat in Hin as (refs & Hin & Hrefs).
  apply list_elem_of_fmap in Hrefs as ([path c] & -> & Hc').
  apply (references_of_no_dot c); [|done].
  by apply (proj1 (Forall_forall _ _) Ht (path, c)).
Qed.
End parser_relations.

Section parser_result.
Import pystr javalang JavaCodeParser.
Context {N : Numeric}.
Variable call_confidence reference_confidence : float.

Lemma convert_to_code_nodes_dotted (self : JavaCodeParser.t) (node : CodeNode.t) :
  node ∈ convert_to_code_nodes self → "."%char ∈ chars (CodeNode.id node).
Proof.
  unfold convert_to_code_nodes. intros (nodes & Hin & Hnodes)%elem_of_concat.
  apply list_elem_of_fmap in Hnodes as ([path c] & -> & _).
  unfold nodes_of in Hin. apply elem_of_cons in Hin as [->|Hin].
  - simpl. rewrite !chars_app. set_solver.
  - apply list_elem_of_fmap in Hin as (m & -> & _). simpl.
    rewrite !chars_app. set_solver.
Qed.

(** From Java files with plain names a new parser records no method
    call: the text it searches is the signature it made, not the
    body. The relations it converts are the type references, between
    bare class names, while every node id is qualified by the package:
    no relation starts or ends at the id of a converted node. *)
Theorem parser_relations_miss_nodes
    (files : list (string * option (string * CompilationUnit))) :
  plain_files files →
  let parser := (parse_java_directory files JavaCodeParser.init).2 in
  method_calls parser = [] ∧
  ∀ relation,
    relation ∈ convert_to_code_relations call_confidence reference_confidence parser →
    CodeRelation.relation_type relation = "reference" ∧
    ∀ node, node ∈ convert_to_code_nodes parser →
      CodeNode.id node ≠ CodeRelation.source_id relation ∧
      CodeNode.id node ≠ CodeRelation.target_id relation.
Proof.
  intros Hplain parser.
  destruct (parse_java_directory_tidy files JavaCodeParser.init Hplain)
    as (_ & Hcalls & Hrefs); [constructor|].
  fold parser in Hcalls, Hrefs. simpl in Hcalls.
  split; [done|]. intros relation. unfold convert_to_code_relations.
  rewrite Hcalls. simpl.
  intros ([a b] & -> & Hin)%list_elem_of_fmap. simpl. split; [done|].
  destruct (Hrefs a b Hin) as [Habs|[Ha Hb]]; [by apply elem_of_nil in Habs|].
  intros node Hnode%convert_to_code_nodes_dotted.
  split; intros Heq; rewrite Heq in Hnode; [by apply Ha|by apply Hb].
Qed.
End parser_result.

Section parser_examples.
Import pystr javalang JavaCodeParser.
Local Existing Instance binary64.

(** A file with one class, and a file that does not parse. *)
Definition demo_unit : CompilationUnit :=
  mk_unit (Some "com.demo") ["java.util.List"]
    [mk_class "Demo"
       [mk_method ["public"] (Some "int") "size" [mk_parameter "List" "items"] true
          (Some 3)]
       [["count"]] (Some "Base") ["Runnable"] (Some 2)]
    [].

Definition demo_files : list (string * option (string * CompilationUnit)) :=
  [("Demo.java", Some ("package com.demo;", demo_unit)); ("Broken.java", None)].

Lemma demo_files_plain : plain_files demo_files.
Proof.
  assert (Hid : ∀ s, chars s ≠ [] →
            forallb (λ c, negb (isspace c) && negb (Ascii.eqb c ".")
                          && negb (Ascii.eqb c "(")) (chars s) = true →
            identifier s).
  { intros s Hne Hall. split; [done|]. intros c Hc.
    rewrite forallb_forall in Hall. apply list_elem_of_In, Hall in Hc.
    apply andb_prop in Hc as [[H1%negb_true_iff H2%negb_true_iff]%andb_prop
                                H3%negb_true_iff].
    apply Ascii.eqb_neq in H2, H3. done. }
  assert (Hno : ∀ (c : ascii) s,
            forallb (λ x, negb (Ascii.eqb x c)) (chars s) = true → c ∉ chars s).
  { intros c s Hall Hin. rewrite forallb_forall in Hall.
    apply list_elem_of_In, Hall, negb_true_iff, Ascii.eqb_neq in Hin. done. }
  intros path content tree Hin.
  apply elem_of_cons in Hin as [[= _ _ ->]|Hin].
  - split; [|constructor]. constructor; [|constructor].
    split; [by apply Hid|]. split; [|split].
    + constructor; [|constructor]. split; [by apply Hid|]. split; [|split].
      * constructor; [by apply Hno|constructor].
      * intros r [= <-]. by apply Hno.
      * constructor; [|constructor]. split; by apply Hno.
    + intros e [= <-]. by apply Hno.
    + constructor; [by apply Hno|constructor].
  - apply list_elem_of_singleton in Hin. discriminate.
Defined.

Lemma parser_relations_miss_nodes_witness :
  let parser := (parse_java_directory demo_files JavaCodeParser.init).2 in
  method_calls parser = [] ∧
  map (CodeNode.id (N := binary64)) (convert_to_code_nodes parser)
  = ["com.demo.Demo"; "com.demo.Demo.size"] ∧
  type_references parser = [("Demo", "Base"); ("Demo", "Runnable"); ("Demo", "List")].
Proof.
  intros parser.
  destruct (parser_relations_miss_nodes (N := binary64) 1%float 1%float demo_files
              demo_files_plain) as [Hcalls _].
  split; [exact Hcalls|]. split; reflexivity.
Defined.
End parser_examples.

(** ** Processing a repository *)

Section repository.
Import javalang Repository.
Context {N : Numeric} {Store : Type} {DB : VectorDatabaseInterface Store}.
Variable encode_code : string → outcome (list float).
Variable call_confidence reference_confidence : float.

(** The node as [add_code_node] leaves it. *)
Definition embedded (node : CodeNode.t) : CodeNode.t :=
  match encode_code (CodeNode.code node) with
  | Return e => CodeNode.with_embedding (Some e) node
  | _ => node
  end.

Lemma walk_first {NA EA} (G : DiGraph.t NA EA) k u v :
  DiGraph.walk G (S k) u v → ∃ m, DiGraph.has_edge G u m.
Proof.
  revert v. induction k as [|k IH]; intros v Hw;
    inversion Hw as [|k' u' m v' Hm He]; subst.
  - apply walk_0_inv in Hm as <-. by exists v.
  - by apply (IH m).
Qed.

Lemma walk_last {NA EA} (G : DiGraph.t NA EA) k u v :
  DiGraph.walk G (S k) u v → ∃ m, DiGraph.has_edge G m v.
Proof. inversion 1 as [|k' u' m v' Hm He]; subst. by exists m. Qed.

Lemma embed_nodes_spec (code_nodes : list CodeNode.t) (embedder : GraphCodeBERTEmbedder.t) :
  (∀ node, node ∈ code_nodes → returns (encode_code (CodeNode.code node))) →
  embed_nodes encode_code code_nodes embedder
  = (Return (map embedded code_nodes),
     populate encode_code (map AddNode code_nodes) embedder).
Proof.
  revert embedder. induction code_nodes as [|node rest IH]; intros embedder Hret; [done|].
  destruct (Hret node) as [e He]; [by left|].
  assert (Hadd : GraphCodeBERTEmbedder.add_code_node encode_code node embedder
                 = (Return (),
                    GraphCodeBERTEmbedder.mk
                      (odict.set (CodeNode.id node)
                         (CodeNode.with_embedding (Some e) node)
                         (GraphCodeBERTEmbedder.code_nodes embedder))
                      (GraphCodeBERTEmbedder.code_relations embedder)
                      (DiGraph.add_node (CodeNode.id node)
                         (CodeNode.with_embedding (Some e) node)
                         (GraphCodeBERTEmbedder.call_graph embedder)))).
  { unfold GraphCodeBERTEmbedder.add_code_node. by rewrite He. }
  cbn [embed_nodes map populate fold_left]. rewrite Hadd.
  cbn [snd GraphCodeBERTEmbedder.code_nodes].
  rewrite IH by (intros n Hn; apply Hret; by right).
  rewrite odict_get_set.
  assert (Hemb : embedded node = CodeNode.with_embedding (Some e) node)
    by (unfold embedded; by rewrite He).
  rewrite Hemb. by destruct (decide _).
Qed.

Lemma embedded_has_embedding (node : CodeNode.t) :
  returns (encode_code (CodeNode.code node)) →
  is_Some (CodeNode.embedding (embedded node)).
Proof. intros [e He]. unfold embedded. rewrite He. by eexists. Qed.

Lemma populate_app calls1 calls2 (self : GraphCodeBERTEmbedder.t) :
  populate encode_code (calls1 ++ calls2) self
  = populate encode_code calls2 (populate encode_code calls1 self).
Proof. apply fold_left_app. Qed.

(** After the loop every node of the list is stored, with an
    embedding. *)
Lemma populate_nodes_get (code_nodes : list CodeNode.t) (self : GraphCodeBERTEmbedder.t)
    (node_id : string) :
  (∀ node, node ∈ code_nodes → returns (encode_code (CodeNode.code node))) →
  (∃ stored, odict.get node_id (GraphCodeBERTEmbedder.code_nodes self) = Some stored ∧
             is_Some (CodeNode.embedding stored)) ∨
    node_id ∈ map CodeNode.id code_nodes →
  ∃ stored,
    odict.get node_id
      (GraphCodeBERTEmbedder.code_nodes
         (populate encode_code (map AddNode code_nodes) self)) = Some stored ∧
    is_Some (CodeNode.embedding stored).
Proof.
  revert self. induction code_nodes as [|node rest IH]; intros self Hret Hin.
  - destruct Hin as [?|Hin]; [done|]. by apply elem_of_nil in Hin.
  - simpl. apply IH; [intros n Hn; apply Hret; by right|].
    destruct (Hret node) as [e He]; [by left|].
    unfold GraphCodeBERTEmbedder.add_code_node. rewrite He. simpl.
    rewrite odict_get_set.
    destruct (decide (CodeNode.id node = node_id)) as [Heq|Hne].
    + left. eexists. split; [done|]. by eexists.
    + destruct Hin as [Hin|[->|Hin]%elem_of_cons]; [by left|done|by right].
Qed.

Lemma populate_relations_nodes (relations : list CodeRelation.t)
    (self : GraphCodeBERTEmbedder.t) :
  GraphCodeBERTEmbedder.code_nodes
    (populate encode_code (map AddRelation relations) self)
  = GraphCodeBERTEmbedder.code_nodes self.
Proof.
  revert self. induction relations as [|r relations IH]; intros self; [done|].
  simpl. by rewrite IH.
Qed.

Lemma fold_add_relation_populate (relations : list CodeRelation.t)
    (self : GraphCodeBERTEmbedder.t) :
  fold_left (λ embedder relation,
               (GraphCodeBERTEmbedder.add_code_relation relation embedder).2)
    relations self
  = populate encode_code (map AddRelation relations) self.
Proof.
  revert self. induction relations as [|r relations IH]; intros self; [done|].
  simpl. by rewrite IH.
Qed.

(** With an output file, processing a repository in which a class
    was found ends in the [TypeError] of [export_embeddings], after
    the nodes and relations were stored in the embedder and the nodes
    handed to the vector database. *)
Theorem process_java_repository_export_fails
    (files : list (string * option (string * CompilationUnit)))
    (output_file : string) (parser : JavaCodeParser.t)
    (self : JavaCodeEmbeddingSystem.t Store) :
  output_file ≠ "" →
  let parser' := (JavaCodeParser.parse_java_directory files parser).2 in
  let code_nodes := JavaCodeParser.convert_to_code_nodes parser' in
  code_nodes ≠ [] →
  (∀ node, node ∈ code_nodes → returns (encode_code (CodeNode.code node))) →
  (add_embeddings (map embedded code_nodes) (JavaCodeEmbeddingSystem.vector_db self)).1
  = Return () →
  let result :=
    process_java_repository encode_code call_confidence reference_confidence
      files (Some output_file) parser self in
  result.1 = Raise ndarray_error ∧
  result.2.1 = parser' ∧
  JavaCodeEmbeddingSystem.vector_db result.2.2
  = (add_embeddings (map embedded code_nodes)
       (JavaCodeEmbeddingSystem.vector_db self)).2 ∧
  ∀ node, node ∈ code_nodes →
    odict.mem (CodeNode.id node)
      (GraphCodeBERTEmbedder.code_nodes (JavaCodeEmbeddingSystem.embedder result.2.2))
    = true.
Proof.
  intros Hout parser' code_nodes Hne Hret Hdb result. subst result.
  unfold process_java_repository.
  destruct (JavaCodeParser.parse_java_directory files parser) as [parsed p] eqn:Hp.
  simpl in parser'. subst parser'. fold code_nodes.
  rewrite (embed_nodes_spec code_nodes _ Hret).
  destruct (add_embeddings (map embedded code_nodes)
              (JavaCodeEmbeddingSystem.vector_db self)) as [o db'] eqn:Hadd.
  simpl in Hdb. subst o. rewrite fold_add_relation_populate.
  assert (Htruthy : truthy (Some output_file) = true).
  { simpl. apply negb_true_iff, String.eqb_neq. done. }
  rewrite Htruthy.
  set (embedder := populate encode_code
                     (map AddRelation
                        (JavaCodeParser.convert_to_code_relations call_confidence
                           reference_confidence p))
                     (populate encode_code (map AddNode code_nodes)
                        (JavaCodeEmbeddingSystem.embedder self))).
  assert (Hget : ∀ node, node ∈ code_nodes →
            ∃ stored,
              odict.get (CodeNode.id node) (GraphCodeBERTEmbedder.code_nodes embedder)
              = Some stored ∧ is_Some (CodeNode.embedding stored)).
  { intros node Hin. subst embedder. rewrite populate_relations_nodes.
    apply populate_nodes_get; [done|]. right. by apply list_elem_of_fmap_2. }
  assert (Hexport : GraphCodeBERTEmbedder.export_embeddings embedder = Raise ndarray_error).
  { destruct code_nodes as [|node rest] eqn:Hcn; [done|].
    destruct (Hget node) as (stored & Hg & e & He); [by left|].
    unfold GraphCodeBERTEmbedder.export_embeddings, GraphCodeBERTEmbedder.export_data.
    rewrite json_dump_PyDict_cons, json_dump_nodes_raise; [done|].
    exists (CodeNode.id node, stored), e. split; [by apply odict_get_elem|done]. }
  rewrite Hexport. simpl. split; [done|]. split; [done|]. split; [done|].
  intros node Hin. destruct (Hget node Hin) as (stored & Hg & _).
  unfold odict.mem. by rewrite Hg.
Qed.

Lemma relations_of_nodes_relations (code_nodes : list CodeNode.t)
    (relations : list CodeRelation.t) :
  relations_of (map AddNode code_nodes ++ map AddRelation relations) = relations.
Proof.
  unfold relations_of. induction code_nodes as [|n code_nodes IH]; [|exact IH].
  induction relations as [|r relations IHr]; [done|].
  cbn [map app omap list_omap] in *. by f_equal.
Qed.

(** A node without edges has nothing upstream or downstream. *)
Lemma isolated_node_impact (self : GraphCodeBERTEmbedder.t) (node_id : string) :
  DiGraph.wf (GraphCodeBERTEmbedder.call_graph self) →
  DiGraph.has_node (GraphCodeBERTEmbedder.call_graph self) node_id = true →
  (∀ u v, DiGraph.has_edge (GraphCodeBERTEmbedder.call_graph self) u v →
          u ≠ node_id ∧ v ≠ node_id) →
  (∀ max_depth,
     GraphCodeBERTEmbedder.get_upstream_dependencies self node_id max_depth = Return ∅ ∧
     GraphCodeBERTEmbedder.get_downstream_dependencies self node_id max_depth
     = Return ∅) ∧
  GraphCodeBERTEmbedder.analyze_impact self node_id
  = Return (GraphCodeBERTEmbedder.mk_impact ∅ ∅ [] []).
Proof.
  intros Hwf Hnode Hiso.
  assert (Hdeps : ∀ max_depth,
    GraphCodeBERTEmbedder.get_upstream_dependencies self node_id max_depth = Return ∅ ∧
    GraphCodeBERTEmbedder.get_downstream_dependencies self node_id max_depth = Return ∅).
  { intros max_depth.
    destruct (upstream_of self node_id max_depth Hwf) as (up & Hu & Hup).
    destruct (downstream_of self node_id max_depth Hwf) as (down & Hd & Hdown).
    assert (up = ∅) as ->.
    { apply leibniz_equiv, elem_of_equiv_empty. intros v (k & Hk & _ & Hw)%Hup.
      destruct k as [|k]; [lia|]. apply walk_last in Hw as [m He].
      by destruct (Hiso _ _ He). }
    assert (down = ∅) as ->; [|done].
    apply leibniz_equiv, elem_of_equiv_empty. intros v (k & Hk & _ & Hw)%Hdown.
    destruct k as [|k]; [lia|]. apply walk_first in Hw as [m He].
    by destruct (Hiso _ _ He). }
  split; [done|].
  unfold GraphCodeBERTEmbedder.analyze_impact, DiGraph.predecessors, DiGraph.successors.
  destruct (Hdeps 3) as [-> ->]. rewrite Hnode. simpl.
  assert (DiGraph.pred_list (GraphCodeBERTEmbedder.call_graph self) node_id = []) as ->.
  { apply elem_of_nil_inv. intros u Hu%pred_list_spec. by destruct (Hiso _ _ Hu). }
  assert (DiGraph.succ_list (GraphCodeBERTEmbedder.call_graph self) node_id = []) as ->;
    [|done].
  apply elem_of_nil_inv. intros v Hv%succ_list_spec. by destruct (Hiso _ _ Hv).
Qed.

(** Processing a repository of Java files with plain names into a new
    system returns when the model embeds every node and the database
    takes them; every node of the repository is then stored with an
    embedding, and every one of them is isolated in the call graph:
    its upstream and downstream dependencies are empty for every
    bound, and its impact report is empty. *)
Theorem process_java_repository_isolates_nodes
    (files : list (string * option (string * CompilationUnit)))
    (vector_db : Store) :
  plain_files files →
  let parser := (JavaCodeParser.parse_java_directory files JavaCodeParser.init).2 in
  let code_nodes := JavaCodeParser.convert_to_code_nodes parser in
  (∀ node, node ∈ code_nodes → returns (encode_code (CodeNode.code node))) →
  (add_embeddings (map embedded code_nodes) vector_db).1 = Return () →
  let result :=
    process_java_repository encode_code call_confidence reference_confidence
      files None JavaCodeParser.init
      (JavaCodeEmbeddingSystem.mk GraphCodeBERTEmbedder.init vector_db) in
  let embedder := JavaCodeEmbeddingSystem.embedder result.2.2 in
  result.1 = Return () ∧
  JavaCodeEmbeddingSystem.vector_db result.2.2
  = (add_embeddings (map embedded code_nodes) vector_db).2 ∧
  ∀ node, node ∈ code_nodes →
    (∃ stored,
       odict.get (CodeNode.id node) (GraphCodeBERTEmbedder.code_nodes embedder)
       = Some stored ∧ is_Some (CodeNode.embedding stored)) ∧
    (∀ max_depth,
       GraphCodeBERTEmbedder.get_upstream_dependencies embedder (CodeNode.id node)
         max_depth = Return ∅ ∧
       GraphCodeBERTEmbedder.get_downstream_dependencies embedder (CodeNode.id node)
         max_depth = Return ∅) ∧
    GraphCodeBERTEmbedder.analyze_impact embedder (CodeNode.id node)
    = Return (GraphCodeBERTEmbedder.mk_impact ∅ ∅ [] []).
Proof.
  intros Hplain parser code_nodes Hret Hdb result embedder.
  destruct (parse_java_directory_tidy files JavaCodeParser.init Hplain)
    as (_ & Hcalls & Hrefs); [constructor|].
  fold parser in Hcalls, Hrefs. simpl in Hcalls.
  subst embedder result. unfold process_java_repository.
  destruct (JavaCodeParser.parse_java_directory files JavaCodeParser.init)
    as [parsed p] eqn:Hp.
  simpl in parser. subst parser. fold code_nodes. simpl.
  rewrite (embed_nodes_spec code_nodes _ Hret).
  destruct (add_embeddings (map embedded code_nodes) vector_db) as [o db'] eqn:Hadd.
  simpl in Hdb. subst o. rewrite fold_add_relation_populate. simpl.
  split; [done|]. split; [done|].
  set (relations := JavaCodeParser.convert_to_code_relations call_confidence
                      reference_confidence p).
  rewrite <- populate_app.
  set (embedder := populate encode_code
                     (map AddNode code_nodes ++ map AddRelation relations)
                     GraphCodeBERTEmbedder.init).
  assert (C : consistent encode_code embedder)
    by apply populate_consistent, consistent_init.
  assert (Hrels : GraphCodeBERTEmbedder.code_relations embedder = relations).
  { subst embedder. rewrite populate_relations. simpl.
    apply relations_of_nodes_relations. }
  intros node Hin.
  assert (Hget : ∃ stored,
            odict.get (CodeNode.id node) (GraphCodeBERTEmbedder.code_nodes embedder)
            = Some stored ∧ is_Some (CodeNode.embedding stored)).
  { subst embedder. rewrite populate_app, populate_relations_nodes.
    apply populate_nodes_get; [done|]. right. by apply list_elem_of_fmap_2. }
  split; [done|]. destruct Hget as (stored & Hg & _).
  apply isolated_node_impact.
  - apply (consistent_wf _ _ C).
  - destruct (consistent_nodes _ _ C _ _ Hg) as (_ & Hnode & _).
    unfold DiGraph.has_node, odict.mem. by rewrite Hnode.
  - intros u v (r & Hr & Hends)%(consistent_has_edge encode_code embedder u v C).
    rewrite Hrels in Hr. subst relations.
    unfold JavaCodeParser.convert_to_code_relations in Hr. rewrite Hcalls in Hr.
    simpl in Hr. apply list_elem_of_fmap in Hr as ([a b] & -> & Hab).
    injection Hends as <- <-.
    destruct (Hrefs a b Hab) as [Habs|[Ha Hb]]; [by apply elem_of_nil in Habs|].
    apply convert_to_code_nodes_dotted in Hin.
    split; intros Heq; rewrite <- Heq in Hin; [by apply Ha|by apply Hb].
Qed.
End repository.

Section repository_examples.
Import javalang Repository.
Local Existing Instance binary64.

Definition demo_method_node : CodeNode.t :=
  CodeNode.mk "com.demo.Demo.size" "Demo.java" "method" "size"
    "public int size(List items)" 3 3 None.

Lemma encode64_returns (code : string) : returns (encode64 code).
Proof. unfold encode64. destruct (String.prefix "class" code); by eexists. Defined.

Lemma process_java_repository_export_fails_witness :
  (process_java_repository encode64 1%float 1%float demo_files (Some "out.json")
     JavaCodeParser.init
     (JavaCodeEmbeddingSystem.mk GraphCodeBERTEmbedder.init (FAISSInterface.init 2))).1
  = Raise ndarray_error.
Proof.
  refine (proj1 (process_java_repository_export_fails encode64 1%float 1%float
                   demo_files "out.json" JavaCodeParser.init
                   (JavaCodeEmbeddingSystem.mk GraphCodeBERTEmbedder.init
                      (FAISSInterface.init 2)) _ _ _ _)).
  - discriminate.
  - discriminate.
  - intros node _. apply encode64_returns.
  - reflexivity.
Defined.

Lemma process_java_repository_isolates_nodes_witness :
  let result :=
    process_java_repository encode64 1%float 1%float demo_files None
      JavaCodeParser.init
      (JavaCodeEmbeddingSystem.mk GraphCodeBERTEmbedder.init (FAISSInterface.init 2)) in
  result.1 = Return () ∧
  GraphCodeBERTEmbedder.get_upstream_dependencies
    (JavaCodeEmbeddingSystem.embedder result.2.2) "com.demo.Demo.size" 3 = Return ∅.
Proof.
  intros result.
  destruct (process_java_repository_isolates_nodes encode64 1%float 1%float
              demo_files (FAISSInterface.init 2) demo_files_plain)
    as (Hret & _ & Hnodes).
  - intros node _. apply encode64_returns.
  - reflexivity.
  - split; [exact Hret|].
    destruct (Hnodes demo_method_node) as (_ & Hdeps & _).
    + right. left.
    + apply (Hdeps 3).
Defined.
End repository_examples.

(** ** Loading a snapshot again *)

Section odict_writes.
Context {K V : Type} `{EqDecision K}.
Implicit Types d : list (K * V).

(** [writes items d]: the assignments [d[k] = v] of [items], in order. *)
Definition writes (items : list (K * V)) d : list (K * V) :=
  fold_left (λ d item, odict.set item.1 item.2 d) items d.

Lemma odict_set_set (k : K) (v w : V) d :
  odict.set k v (odict.set k w d) = odict.set k v d.
Proof.
  induction d as [|[k0 v0] d IH]; simpl.
  - by rewrite decide_True.
  - destruct (decide (k0 = k)) as [->|Hne]; simpl.
    + by rewrite decide_True.
    + rewrite decide_False by done. by rewrite IH.
Qed.

Lemma odict_set_comm (k k' : K) (v w : V) d :
  k ≠ k' → odict.mem k d = true →
  odict.set k v (odict.set k' w d) = odict.set k' w (odict.set k v d).
Proof.
  intros Hne. unfold odict.mem. induction d as [|[k0 v0] d IH]; simpl; [done|].
  destruct (decide (k0 = k)) as [->|Hk].
  - intros _. rewrite (decide_False (P := k = k')) by done. simpl.
    rewrite decide_True by done. by rewrite decide_False by done.
  - intros Hm. destruct (decide (k0 = k')) as [->|Hk']; simpl.
    + rewrite decide_False by done. by rewrite decide_True by done.
    + rewrite !decide_False by done. by rewrite IH.
Qed.

Lemma odict_set_same (k : K) (v : V) d :
  odict.get k d = Some v → odict.set k v d = d.
Proof.
  induction d as [|[k0 v0] d IH]; simpl; [done|].
  destruct (decide (k0 = k)) as [->|Hne].
  - by intros [= ->].
  - intros Hg. by rewrite IH.
Qed.

Lemma odict_get_app (k : K) d d' :
  odict.get k (d ++ d')
  = match odict.get k d with Some v => Some v | None => odict.get k d' end.
Proof.
  induction d as [|[k0 v0] d IH]; simpl; [done|]. by destruct (decide (k0 = k)).
Qed.

Lemma writes_mem (items : list (K * V)) d (k : K) :
  odict.mem k d = true → odict.mem k (writes items d) = true.
Proof.
  revert d. induction items as [|[k' v] items IH]; intros d Hk; [done|].
  simpl. apply IH. by apply odict_mem_set.
Qed.

(** A write that a later write of the same key overwrites is dead. *)
Lemma writes_dead (items : list (K * V)) d (k : K) (v : V) :
  k ∈ odict.keys items → odict.mem k d = true →
  writes items (odict.set k v d) = writes items d.
Proof.
  revert d. induction items as [|[k' v'] items IH]; intros d Hin Hm.
  - by apply elem_of_nil in Hin.
  - simpl. destruct (decide (k' = k)) as [->|Hne].
    + by rewrite odict_set_set.
    + rewrite <- odict_set_comm by done. apply IH.
      * unfold odict.keys in Hin. simpl in Hin.
        apply elem_of_cons in Hin as [?|?]; [congruence|done].
      * by apply odict_mem_set.
Qed.

(** The value the writes leave under a key: that of its last write. *)
Definition last_write (items : list (K * V)) (k : K) : option V :=
  odict.get k (reverse items).

Lemma last_write_cons (k0 : K) (v0 : V) (items : list (K * V)) (k : K) :
  last_write ((k0, v0) :: items) k
  = match last_write items k with
    | Some v => Some v
    | None => if decide (k0 = k) then Some v0 else None
    end.
Proof. unfold last_write. by rewrite reverse_cons, odict_get_app. Qed.

Lemma last_write_None (items : list (K * V)) (k : K) :
  last_write items k = None ↔ k ∉ odict.keys items.
Proof.
  unfold last_write.
  assert (Hr : k ∈ odict.keys (reverse items) ↔ k ∈ odict.keys items).
  { unfold odict.keys. change (map fst (reverse items)) with (fst <$> reverse items).
    rewrite fmap_reverse. apply elem_of_reverse. }
  rewrite <- Hr. pose proof (odict_mem_keys k (reverse items)) as Hm.
  unfold odict.mem in Hm. rewrite <- Hm.
  by destruct (odict.get k (reverse items)).
Qed.

(** A dict that holds the last writes is left as it is. *)
Lemma writes_fixed (items : list (K * V)) d :
  (∀ k v, last_write items k = Some v → odict.get k d = Some v) →
  writes items d = d.
Proof.
  revert d. induction items as [|[k0 v0] items IH]; intros d Hd; [done|].
  simpl. assert (Hrest : ∀ k v, last_write items k = Some v → odict.get k d = Some v).
  { intros k v Hk. apply Hd. by rewrite last_write_cons, Hk. }
  destruct (last_write items k0) as [v|] eqn:Hl.
  - rewrite writes_dead; [by apply IH| |].
    + apply dec_stable. intros Hn. apply last_write_None in Hn. congruence.
    + unfold odict.mem. by rewrite (Hrest k0 v Hl).
  - rewrite odict_set_same; [by apply IH|].
    apply Hd. rewrite last_write_cons, Hl. by rewrite decide_True.
Qed.

Lemma writes_last (items : list (K * V)) d (k : K) (v : V) :
  last_write items k = Some v → odict.get k (writes items d) = Some v.
Proof.
  revert d. induction items as [|[k0 v0] items IH]; intros d.
  - done.
  - rewrite last_write_cons. simpl. destruct (last_write items k) as [v'|] eqn:Hl.
    + intros [= ->]. by apply IH.
    + destruct (decide (k0 = k)) as [->|Hne]; [|done]. intros [= ->].
      assert (Hother : ∀ d', odict.get k (writes items d') = odict.get k d').
      { apply last_write_None in Hl. clear IH. revert Hl.
        induction items as [|[k1 v1] items IH']; intros Hl d'; [done|].
        unfold odict.keys in Hl. simpl in Hl. apply not_elem_of_cons in Hl as [Hne Hl].
        simpl. rewrite IH' by done. rewrite odict_get_set. by rewrite decide_False. }
      rewrite Hother, odict_get_set. by rewrite decide_True.
Qed.
End odict_writes.

Section reload.
Import GraphCodeBERTEmbedder.
Context {N : Numeric}.
Implicit Types self : GraphCodeBERTEmbedder.t.

(** What the two loops of [load_embeddings] do to the store, given
    the nodes and relations they construct. *)
Definition store_nodes (nodes : list (string * CodeNode.t)) self : GraphCodeBERTEmbedder.t :=
  fold_left
    (λ self item,
       mk (odict.set item.1 item.2 (code_nodes self)) (code_relations self)
          (DiGraph.add_node item.1 item.2 (call_graph self)))
    nodes self.

Definition store_relations (relations : list CodeRelation.t) self
    : GraphCodeBERTEmbedder.t :=
  fold_left (λ self r, (add_code_relation r self).2) relations self.

Definition touch_all (relations : list CodeRelation.t)
    (nodes : list (string * option CodeNode.t)) : list (string * option CodeNode.t) :=
  fold_left (λ nodes r,
               DiGraph.touch (CodeRelation.target_id r)
                 (DiGraph.touch (CodeRelation.source_id r) nodes))
    relations nodes.

Definition edge_of (r : CodeRelation.t) : (string * string) * edge_attr :=
  ((CodeRelation.source_id r, CodeRelation.target_id r),
   (CodeRelation.relation_type r, CodeRelation.confidence r)).

Lemma load_nodes_returns (items : list (string * json)) self s :
  load_nodes items self = Some (Return (), s) →
  ∃ nodes, ∀ self', load_nodes items self' = Some (Return (), store_nodes nodes self').
Proof.
  revert self s. induction items as [|[k v] items IH]; intros self s.
  - intros _. by exists [].
  - rewrite load_nodes_cons.
    destruct (load_node v) as [[node| |]|] eqn:Hnode; [|done..].
    intros Hs. destruct (IH _ _ Hs) as [nodes Hnodes].
    exists ((k, node) :: nodes). intros self'. rewrite load_nodes_cons, Hnode.
    apply Hnodes.
Qed.

Lemma load_relations_returns (rels : list json) self s :
  load_relations rels self = Some (Return (), s) →
  ∃ relations,
    ∀ self',
      load_relations rels self' = Some (Return (), store_relations relations self').
Proof.
  revert self s. induction rels as [|rel rels IH]; intros self s.
  - intros _. by exists [].
  - rewrite load_relations_cons.
    destruct (CodeRelation_of_kwargs rel) as [[relation| |]|] eqn:Hrel; [|done..].
    intros Hs. destruct (IH _ _ Hs) as [relations Hrelations].
    exists (relation :: relations). intros self'.
    rewrite load_relations_cons, Hrel. apply Hrelations.
Qed.

Lemma store_nodes_spec (nodes : list (string * CodeNode.t)) self :
  store_nodes nodes self
  = mk (writes nodes (code_nodes self)) (code_relations self)
       (DiGraph.mk
          (writes (map (λ item, (item.1, Some item.2)) nodes)
             (DiGraph._node (call_graph self)))
          (DiGraph._adj (call_graph self))).
Proof.
  revert self. induction nodes as [|[k node] nodes IH]; intros self.
  - by destruct self as [? ? []].
  - unfold store_nodes in *. simpl. by rewrite IH.
Qed.

Lemma store_relations_spec (relations : list CodeRelation.t) self :
  store_relations relations self
  = mk (code_nodes self) (code_relations self ++ relations)
       (DiGraph.mk (touch_all relations (DiGraph._node (call_graph self)))
          (writes (map edge_of relations) (DiGraph._adj (call_graph self)))).
Proof.
  revert self. induction relations as [|r relations IH]; intros self.
  - rewrite app_nil_r. by destruct self as [? ? []].
  - unfold store_relations in *. simpl. rewrite IH. simpl.
    by rewrite <- app_assoc.
Qed.

Lemma touch_all_get (relations : list CodeRelation.t) nodes (k : string) x :
  odict.get k nodes = Some x → odict.get k (touch_all relations nodes) = Some x.
Proof.
  revert nodes. induction relations as [|r relations IH]; intros nodes Hk; [done|].
  simpl. apply IH. by do 2 apply odict_get_touch.
Qed.

Lemma touch_all_mem (relations : list CodeRelation.t) nodes (r : CodeRelation.t) :
  r ∈ relations →
  odict.mem (CodeRelation.source_id r) (touch_all relations nodes) = true ∧
  odict.mem (CodeRelation.target_id r) (touch_all relations nodes) = true.
Proof.
  assert (Hmono : ∀ relations nodes k, odict.mem k nodes = true →
                    odict.mem k (touch_all relations nodes) = true).
  { clear. intros relations nodes k. unfold odict.mem.
    destruct (odict.get k nodes) as [x|] eqn:Hk; [|done]. intros _.
    by rewrite (touch_all_get relations nodes k x Hk). }
  revert nodes. induction relations as [|r' relations IH]; intros nodes Hin.
  - by apply elem_of_nil in Hin.
  - simpl. apply elem_of_cons in Hin as [->|Hin]; [|by apply IH].
    split; apply Hmono; rewrite !touch_mem; [right|]; by left.
Qed.

Lemma touch_all_fixed (relations : list CodeRelation.t) nodes :
  (∀ r, r ∈ relations →
     odict.mem (CodeRelation.source_id r) nodes = true ∧
     odict.mem (CodeRelation.target_id r) nodes = true) →
  touch_all relations nodes = nodes.
Proof.
  induction relations as [|r relations IH]; intros Hm; [done|]. simpl.
  destruct (Hm r) as [Hs Ht]; [by left|].
  unfold DiGraph.touch at 2. rewrite Hs. unfold DiGraph.touch at 1. rewrite Ht.
  apply IH. intros r' Hr'. apply Hm. by right.
Qed.

(** Loading a document that was loaded before, into the store it was
    loaded into, succeeds again and stores its nodes and edges where
    they are: the nodes and the call graph stay as they are, but the
    relations of the document are appended to [code_relations] once
    more. *)
Theorem load_embeddings_again (data : json) self (loaded : GraphCodeBERTEmbedder.t) :
  load_embeddings data self = Some (Return (), loaded) →
  ∃ relations,
    code_relations loaded = code_relations self ++ relations ∧
    load_embeddings data loaded
    = Some
        (Return (),
         mk (code_nodes loaded) (code_relations loaded ++ relations)
            (call_graph loaded)).
Proof.
  unfold load_embeddings.
  destruct (json_getitem "nodes" data ≫= json_items) as [items| |]; [|done..].
  destruct (load_nodes items self) as [[[[]| |] s1]|] eqn:Hn; [|done..].
  destruct (json_getitem "relations" data ≫= json_iter) as [rels| |]; [|done..].
  intros Hr.
  destruct (load_nodes_returns _ _ _ Hn) as [nodes Hnodes].
  destruct (load_relations_returns _ _ _ Hr) as [relations Hrelations].
  rewrite Hnodes in Hn. injection Hn as <-.
  rewrite Hrelations in Hr. injection Hr as <-.
  exists relations. rewrite Hnodes, Hrelations.
  rewrite !store_relations_spec, !store_nodes_spec. simpl.
  split; [done|]. do 2 f_equal.
  set (node_writes := map (λ item : string * CodeNode.t, (item.1, Some item.2)) nodes).
  rewrite (writes_fixed nodes) by (intros k v Hk; by apply writes_last).
  rewrite (writes_fixed node_writes).
  2:{ intros k v Hk. by apply touch_all_get, writes_last. }
  rewrite (touch_all_fixed relations) by (intros r Hin; by apply touch_all_mem).
  rewrite (writes_fixed (map edge_of relations))
    by (intros k v Hk; by apply writes_last).
  done.
Qed.
End reload.

Section reload_examples.
Import GraphCodeBERTEmbedder.
Local Existing Instance binary64.

Definition document64 : json (N := binary64) :=
  JDict [("nodes", JDict [("Demo.f", record64)]);
         ("relations",
          JList [relation_record (calls (N := binary64) 1%float "Demo.f" "Demo.g")])].

Lemma load_embeddings_again_witness :
  ∃ loaded again,
    load_embeddings document64 init = Some (Return (), loaded) ∧
    load_embeddings document64 loaded = Some (Return (), again) ∧
    code_nodes again = code_nodes loaded ∧
    call_graph again = call_graph loaded ∧
    length (code_relations loaded) = 1%nat ∧
    length (code_relations again) = 2%nat.
Proof.
  assert (Hloaded : ∃ loaded, load_embeddings document64 init = Some (Return (), loaded) ∧
                              length (code_relations loaded) = 1%nat).
  { eexists. split; reflexivity. }
  destruct Hloaded as (loaded & Hloaded & Hlen).
  destruct (load_embeddings_again document64 init loaded Hloaded)
    as (relations & Hrel & Hagain).
  change (code_relations init ++ relations) with relations in Hrel.
  exists loaded. eexists. split; [exact Hloaded|]. split; [exact Hagain|].
  simpl. rewrite <- Hrel, length_app, Hlen. repeat split; reflexivity.
Defined.
End reload_examples.

(** ** The hits of a search *)

Section search_hits.
Import JavaCodeEmbeddingSystem.
Context {N : Numeric} {Store : Type} {DB : VectorDatabaseInterface Store}.
Variable encode_code : string → outcome (list float).
Implicit Types self : JavaCodeEmbeddingSystem.t Store.

Lemma odict_elem_get {K V} `{EqDecision K} (k : K) (v : V) (d : list (K * V)) :
  (k, v) ∈ d → is_Some (odict.get k d).
Proof.
  induction d as [|[k0 v0] d IH]; simpl; [by intros ?%elem_of_nil|].
  destruct (decide (k0 = k)); [by eexists|].
  intros [[= ? ?]|?]%elem_of_cons; [congruence|by apply IH].
Qed.

Lemma sort_desc_elem {A} (key : A → float) (l : list A) (x : A) :
  x ∈ GraphCodeBERTEmbedder.sort_desc key l → x ∈ l.
Proof.
  unfold GraphCodeBERTEmbedder.sort_desc.
  assert (H : ∀ acc, x ∈ fold_left (λ acc x, GraphCodeBERTEmbedder.insert_desc key x acc)
                            l acc → x ∈ l ∨ x ∈ acc).
  { induction l as [|y l IH]; intros acc; simpl; [by right|].
    intros [?|Hin]%IH; [left; by right|].
    rewrite insert_desc_perm in Hin.
    apply elem_of_cons in Hin as [->|?]; [left; by left|by right]. }
  intros [?|Hin]%H; [done|]. by apply elem_of_nil in Hin.
Qed.

Lemma slice_to_elem {A} (k : Z) (l : list A) (x : A) :
  x ∈ GraphCodeBERTEmbedder.slice_to k l → x ∈ l.
Proof.
  unfold GraphCodeBERTEmbedder.slice_to.
  destruct (0 <=? k); intros (i & Hi & _)%elem_of_take; by eapply list_elem_of_lookup_2.
Qed.

(** What [search_similar_code] returns is the ranking of the embedder,
    entry by entry: no ranked node is dropped by the merge, every hit
    carries the id and the similarity of its entry and the fields of
    the node stored under that id. What the database found does not
    show in the result. *)
Theorem search_similar_code_hits self (query_code : string) (top_k : Z)
    (hits : list hit) :
  search_similar_code encode_code self query_code top_k = Return hits →
  ∃ embedder_results,
    GraphCodeBERTEmbedder.get_similar_nodes encode_code (embedder self) query_code top_k
    = Return embedder_results ∧
    Forall2 (λ h result,
      node_id h = result.1 ∧ similarity h = result.2 ∧
      ∃ node,
        odict.get result.1 (GraphCodeBERTEmbedder.code_nodes (embedder self)) = Some node ∧
        node_type h = CodeNode.node_type node ∧ name h = CodeNode.name node ∧
        file_path h = CodeNode.file_path node ∧ code h = CodeNode.code node)
      hits embedder_results.
Proof.
  unfold search_similar_code.
  destruct (GraphCodeBERTEmbedder.get_similar_nodes encode_code (embedder self)
              query_code top_k) as [results| |] eqn:Hres; simpl; [|done..].
  destruct (encode_code query_code) as [q| |] eqn:Hq; simpl; [|done..].
  destruct (search (vector_db self) q top_k) as [db_results| |]; simpl; [|done..].
  intros [= <-]. exists results. split; [done|].
  assert (Hstored : ∀ r, r ∈ results →
            is_Some (odict.get r.1 (GraphCodeBERTEmbedder.code_nodes (embedder self)))).
  { unfold GraphCodeBERTEmbedder.get_similar_nodes in Hres. rewrite Hq in Hres.
    simpl in Hres.
    destruct (GraphCodeBERTEmbedder.similarities_of q _) as [sims| |] eqn:Hsims;
      simpl in Hres; [|done..].
    injection Hres as <-. intros r Hr%slice_to_elem%sort_desc_elem.
    destruct (similarities_of_elem q _ sims r Hsims Hr) as (node & e & Hin & _).
    by apply odict_elem_get in Hin. }
  clear Hres. unfold hydrate.
  induction results as [|[id sim] results IH]; [constructor|].
  destruct (Hstored (id, sim)) as [node Hnode]; [by left|]. simpl in Hnode.
  cbn [omap list_omap]. rewrite Hnode. simpl. constructor.
  - simpl. repeat split; try done. by exists node.
  - apply IH. intros r Hr. apply Hstored. by right.
Qed.
End search_hits.

Section search_hits_examples.
Import JavaCodeEmbeddingSystem.
Local Existing Instance binary64.

Lemma search_similar_code_hits_witness :
  let self := JavaCodeEmbeddingSystem.mk (embedder system64) (FAISSInterface.init 2) in
  search_similar_code encode64 self "class X" 2 = Return hits64 ∧
  ∃ embedder_results,
    GraphCodeBERTEmbedder.get_similar_nodes encode64 (embedder self) "class X" 2
    = Return embedder_results ∧
    length embedder_results = length hits64.
Proof.
  intros self.
  assert (Hhits : search_similar_code encode64 self "class X" 2 = Return hits64)
    by reflexivity.
  split; [exact Hhits|].
  destruct (search_similar_code_hits encode64 self "class X" 2 hits64 Hhits)
    as (results & Hres & Hall).
  exists results. split; [exact Hres|]. symmetry. exact (Forall2_length _ _ _ Hall).
Defined.
End search_hits_examples.

(** ** Adding a batch to the FAISS index *)

Section faiss_batch.
Import FAISSInterface.
Context {N : Numeric}.
Implicit Types self : FAISSInterface.t.

Lemma fold_register_snoc (l : list CodeNode.t) (node : CodeNode.t) self :
  fold_left register (l ++ [node]) self = register (fold_left register l self) node.
Proof. by rewrite fold_left_app. Qed.

(** After the loop an id answers with the last node registered under
    it. *)
Lemma fold_register_get_node (l : list CodeNode.t) self (node_id : string) :
  tables self →
  get_node (fold_left register l self) node_id
  = match last (filter (λ node, CodeNode.id node = node_id) l) with
    | Some node => Some node
    | None => get_node self node_id
    end.
Proof.
  intros T. induction l as [|node l IH] using rev_ind; [done|].
  rewrite fold_register_snoc, filter_app.
  pose proof (tables_fold_register l self T) as T'.
  set (s := fold_left register l self) in *.
  unfold get_node at 1. unfold register. simpl.
  destruct (decide (CodeNode.id node = node_id)) as [Heq|Hne].
  - rewrite (filter_cons_True _ node) by done. rewrite filter_nil, last_snoc.
    rewrite Heq, lookup_insert_eq. by rewrite lookup_insert_eq.
  - rewrite (filter_cons_False _ node) by done. rewrite filter_nil, app_nil_r.
    rewrite lookup_insert_ne by done. rewrite <- IH. unfold get_node.
    destruct (id_to_index s !! node_id) as [i|] eqn:Hi; [|done].
    pose proof (tables_range _ T' _ _ (tables_slot _ T' _ _ Hi)) as Hr.
    by rewrite lookup_insert_ne by lia.
Qed.

Lemma filter_embedding_omap (nodes : list CodeNode.t) :
  length (filter (λ node, is_Some (CodeNode.embedding node)) nodes)
  = length (omap CodeNode.embedding nodes).
Proof.
  induction nodes as [|n nodes IH]; [done|]. rewrite filter_cons. cbn [omap list_omap].
  destruct (decide (is_Some (CodeNode.embedding n))) as [[x Hx]|Hn].
  - rewrite Hx. simpl. by rewrite IH.
  - destruct (CodeNode.embedding n); [exfalso; apply Hn; by eexists|done].
Qed.

Lemma np_array_float32_rows (rows : list (list float)) (width : Z) :
  Forall (λ row, Z.of_nat (length row) = width) rows →
  np_array_float32 rows = Return (map (map as_float32) rows).
Proof.
  intros Hall. destruct rows as [|r rest]; [done|]. simpl.
  apply Forall_cons in Hall as [Hr Hrest].
  assert (forallb (λ r', bool_decide (length r' = length r)) rest = true) as ->; [|done].
  apply forallb_forall. intros r' Hr'%list_elem_of_In.
  apply bool_decide_eq_true. apply Nat2Z.inj.
  rewrite Hr. by apply (proj1 (Forall_forall _ _) Hrest).
Qed.

Lemma index_add_rows (rows : list (list float)) (index : IndexFlatIP) :
  Forall (λ row, Z.of_nat (length row) = d index) rows →
  np_array_float32 rows ≫= (λ a, index_add a index)
  = Return (mk_index (d index) (xb index ++ map (map as_float32) rows)).
Proof.
  intros Hall. rewrite (np_array_float32_rows _ _ Hall).
  change (index_add (map (map as_float32) rows) index
          = Return (mk_index (d index) (xb index ++ map (map as_float32) rows))).
  unfold index_add.
  assert (forallb (λ row, Z.of_nat (length row) =? d index)
            (map (map as_float32) rows) = true) as ->; [|done].
  apply forallb_forall. intros row Hrow%list_elem_of_In.
  apply list_elem_of_fmap in Hrow as (row' & -> & Hrow').
  rewrite length_map. apply Z.eqb_eq.
  by apply (proj1 (Forall_forall _ _) Hall).
Qed.

(** Whatever calls led to the state: a batch whose embeddings all
    have the width of the index is added, one slot for each node with
    an embedding; nodes without one are passed over; afterwards an id
    answers with the last node of the batch that has the id and an
    embedding, any other id as before. A batch with an embedding of
    another width raises and changes nothing, not even for the nodes
    that fit. *)
Theorem add_embeddings_batch (dimension : Z) (ops : list operation)
    (nodes : list CodeNode.t) :
  let self := fold_left (λ self op, run op self) ops (init dimension) in
  let valid_nodes := filter (λ node, is_Some (CodeNode.embedding node)) nodes in
  (Forall (λ e, Z.of_nat (length e) = d (index self)) (omap CodeNode.embedding nodes) →
   (add_embeddings nodes self).1 = Return () ∧
   next_index (add_embeddings nodes self).2
   = next_index self + Z.of_nat (length valid_nodes) ∧
   ∀ node_id,
     get_node (add_embeddings nodes self).2 node_id
     = match last (filter (λ node, CodeNode.id node = node_id) valid_nodes) with
       | Some node => Some node
       | None => get_node self node_id
       end) ∧
  (¬ Forall (λ e, Z.of_nat (length e) = d (index self)) (omap CodeNode.embedding nodes) →
   raises (add_embeddings nodes self).1 ∧ (add_embeddings nodes self).2 = self).
Proof.
  intros self valid_nodes.
  destruct (tables_reachable dimension ops) as [T _]. fold self in T.
  split.
  - intros Hall. unfold add_embeddings. fold valid_nodes.
    destruct (omap CodeNode.embedding nodes) as [|e es] eqn:Hes.
    + assert (Hv : valid_nodes = []).
      { apply length_zero_iff_nil. subst valid_nodes.
        by rewrite filter_embedding_omap, Hes. }
      rewrite Hv. simpl. split; [done|]. split; [lia|done].
    + rewrite (index_add_rows _ _ Hall).
      cbn [fst snd]. split; [done|]. split.
      * change (next_index (_save_index ?s)) with (next_index s).
        by rewrite fold_register_next_index.
      * intros node_id.
        change (get_node (_save_index ?s) node_id) with (get_node s node_id).
        rewrite fold_register_get_node by (split; apply T).
        done.
  - intros Hbad. unfold add_embeddings.
    destruct (omap CodeNode.embedding nodes) as [|e es] eqn:Hes.
    + destruct Hbad. constructor.
    + destruct (np_array_float32 (e :: es)) as [a| |] eqn:Ha; simpl.
      * unfold index_add.
        destruct (forallb (λ row, Z.of_nat (length row) =? d (index self)) a) eqn:Hf;
          simpl; [|split; [by eexists|done]].
        destruct Hbad. unfold np_array_float32 in Ha.
        destruct (forallb _ es); [|done]. injection Ha as <-.
        apply Forall_forall. intros row Hrow.
        rewrite forallb_forall in Hf.
        specialize (Hf (map as_float32 row)).
        rewrite length_map in Hf. apply Z.eqb_eq, Hf.
        apply list_elem_of_In.
        change (map as_float32 row ∈ map (map as_float32) (e :: es)).
        by apply (list_elem_of_fmap_2 (map as_float32)).
      * split; [by eexists|done].
      * unfold np_array_float32 in Ha. by destruct (forallb _ es).
Qed.
End faiss_batch.

Section faiss_batch_examples.
Import FAISSInterface.
Local Existing Instance binary64.

Lemma add_embeddings_batch_witness :
  let first := node64 "a" "int f()" (Some [1%float; 0%float]) in
  let bare := node64 "b" "int g()" None in
  let second := node64 "a" "int h()" (Some [0%float; 1%float]) in
  let narrow := node64 "c" "int k()" (Some [1%float]) in
  let added := (add_embeddings [first; bare; second] (init 2)).2 in
  next_index added = 2 ∧ get_node added "a" = Some second ∧ get_node added "b" = None ∧
  raises (add_embeddings [first; narrow] (init 2)).1 ∧
  (add_embeddings [first; narrow] (init 2)).2 = init 2.
Proof.
  intros first bare second narrow added.
  destruct (add_embeddings_batch 2 [] [first; bare; second]) as [Hok _].
  destruct (add_embeddings_batch 2 [] [first; narrow]) as [_ Hbad].
  destruct Hok as (_ & Hnext & Hget).
  { repeat constructor. }
  destruct Hbad as [Hraises Hsame].
  { intros Hall. apply Forall_cons in Hall as [_ Hall].
    apply Forall_cons in Hall as [Hw _]. discriminate Hw. }
  split; [exact Hnext|]. split; [exact (Hget "a")|]. split; [exact (Hget "b")|].
  split; [exact Hraises|exact Hsame].
Defined.
End faiss_batch_examples.

(** ** Preprocessing, line by line *)

Section preprocess_lines.
Import pystr GraphCodeBERTEmbedder.

(** The stripped lines of a text that are not blank. *)
Definition cleaned (s : list ascii) : list (list ascii) :=
  filter (λ line, line ≠ []) (map strip (split newline s)).

Lemma isspace_newline : isspace newline = true.
Proof. done. Qed.

Lemma strip_cons_space (c : ascii) (s : list ascii) :
  isspace c = true → strip (c :: s) = strip s.
Proof. intros Hc. unfold strip. simpl. by rewrite Hc. Qed.

Lemma rstrip_snoc_space (c : ascii) (s : list ascii) :
  isspace c = true → rstrip (s ++ [c]) = rstrip s.
Proof. intros Hc. unfold rstrip. rewrite reverse_snoc. simpl. by rewrite Hc. Qed.

Lemma rstrip_snoc_other (c : ascii) (s : list ascii) :
  isspace c = false → rstrip (s ++ [c]) = s ++ [c].
Proof.
  intros Hc. unfold rstrip. rewrite reverse_snoc. simpl. rewrite Hc.
  by rewrite reverse_cons, reverse_involutive.
Qed.

Lemma strip_snoc_space (c : ascii) (s : list ascii) :
  isspace c = true → strip (s ++ [c]) = strip s.
Proof.
  intros Hc. induction s as [|x s IH].
  - unfold strip. simpl. by rewrite Hc.
  - destruct (isspace x) eqn:Hx.
    + change ((x :: s) ++ [c]) with (x :: (s ++ [c])).
      by rewrite !strip_cons_space.
    + unfold strip. change ((x :: s) ++ [c]) with (x :: (s ++ [c])). simpl.
      rewrite Hx. change (x :: s ++ [c]) with ((x :: s) ++ [c]).
      by apply rstrip_snoc_space.
Qed.

Lemma split_snoc_sep (sep : ascii) (s : list ascii) :
  split sep (s ++ [sep]) = split sep s ++ [[]].
Proof.
  induction s as [|c s IH]; simpl.
  - by rewrite decide_True.
  - destruct (decide (c = sep)); [by rewrite IH|].
    rewrite IH. destruct (split sep s) as [|p ps] eqn:Hs; [|done].
    by destruct (split_not_nil sep s).
Qed.

Lemma split_snoc_other (sep c : ascii) (s : list ascii) :
  c ≠ sep →
  ∃ pieces piece,
    split sep s = pieces ++ [piece] ∧ split sep (s ++ [c]) = pieces ++ [piece ++ [c]].
Proof.
  intros Hc. induction s as [|x s (pieces & piece & Hs & Hsc)]; simpl.
  - rewrite decide_False by done. by exists [], [].
  - destruct (decide (x = sep)).
    + exists ([] :: pieces), piece. by rewrite Hs, Hsc.
    + rewrite Hs, Hsc. destruct pieces as [|p ps]; simpl.
      * by exists [], (x :: piece).
      * by exists ((x :: p) :: ps), piece.
Qed.

Lemma cleaned_cons_space (c : ascii) (s : list ascii) :
  isspace c = true → cleaned (c :: s) = cleaned s.
Proof.
  intros Hc. unfold cleaned. simpl. destruct (decide (c = newline)) as [->|Hne].
  - simpl. rewrite filter_cons. by rewrite decide_False by (by intros ?).
  - destruct (split newline s) as [|p ps] eqn:Hs; [by destruct (split_not_nil newline s)|].
    simpl. by rewrite strip_cons_space.
Qed.

Lemma cleaned_snoc_space (c : ascii) (s : list ascii) :
  isspace c = true → cleaned (s ++ [c]) = cleaned s.
Proof.
  intros Hc. unfold cleaned. destruct (decide (c = newline)) as [->|Hne].
  - rewrite split_snoc_sep, map_app, filter_app. simpl.
    rewrite filter_cons, decide_False by (by intros ?). by rewrite filter_nil, app_nil_r.
  - destruct (split_snoc_other newline c s Hne) as (pieces & piece & -> & ->).
    rewrite !map_app. simpl. by rewrite strip_snoc_space.
Qed.

Lemma cleaned_lstrip (s : list ascii) : cleaned (lstrip s) = cleaned s.
Proof.
  induction s as [|c s IH]; simpl; [done|].
  destruct (isspace c) eqn:Hc; [|done]. by rewrite cleaned_cons_space.
Qed.

Lemma cleaned_rstrip (s : list ascii) : cleaned (rstrip s) = cleaned s.
Proof.
  induction s as [|c s IH] using rev_ind; [done|].
  destruct (isspace c) eqn:Hc.
  - by rewrite rstrip_snoc_space, cleaned_snoc_space.
  - by rewrite rstrip_snoc_other.
Qed.

Lemma split_app_sep (sep : ascii) (line rest : list ascii) :
  sep ∉ line → split sep (line ++ sep :: rest) = line :: split sep rest.
Proof.
  induction line as [|c line IH]; simpl; intros Hl.
  - by rewrite decide_True.
  - apply not_elem_of_cons in Hl as [Hc Hl].
    rewrite decide_False by done. by rewrite IH.
Qed.

Lemma split_join (sep : ascii) (lines : list (list ascii)) :
  lines ≠ [] → Forall (λ line, sep ∉ line) lines →
  split sep (join [sep] lines) = lines.
Proof.
  induction lines as [|line lines IH]; intros Hne Hall; [done|].
  apply Forall_cons in Hall as [Hl Hall]. destruct lines as [|line' lines].
  - simpl. by apply split_one.
  - change (join [sep] (line :: line' :: lines))
      with (line ++ sep :: join [sep] (line' :: lines)).
    rewrite split_app_sep by done. by rewrite IH.
Qed.

(** What [_preprocess_code] makes of a text given by its lines: the
    lines that are not blank, each stripped, joined by single spaces.
    Blank lines, indentation and trailing space leave no trace. *)
Theorem preprocess_code_lines (lines : list (list ascii)) :
  Forall (λ line, newline ∉ line) lines →
  _preprocess_code (str (join [newline] lines))
  = str (join [" "%char] (filter (λ line, line ≠ []) (map strip lines))).
Proof.
  intros Hall. unfold _preprocess_code, str. f_equal.
  rewrite String.list_ascii_of_string_of_list_ascii.
  unfold preprocess_chars. fold (cleaned (strip (join [newline] lines))).
  unfold strip at 1. rewrite cleaned_rstrip, cleaned_lstrip. unfold cleaned.
  destruct lines as [|line lines]; [done|]. by rewrite split_join.
Qed.

Lemma preprocess_code_lines_witness :
  _preprocess_code (str (join [newline] [chars "  int f() {"; chars ""; chars "    return 1;  "; chars "  }"]))
  = "int f() { return 1; }".
Proof.
  rewrite preprocess_code_lines; [reflexivity|].
  repeat constructor; by vm_compute; set_solver.
Defined.
End preprocess_lines.

(** ** Call paths and dependencies *)

Section path_and_dependencies.
Import GraphCodeBERTEmbedder.
Context {N : Numeric}.

(** The two queries agree: between two different nodes of the call
    graph, the target is among the downstream dependencies of the
    source within [max_depth] exactly when [get_call_path] finds a
    path of at most [max_depth] edges. *)
Theorem call_path_within_depth (self : t) (source_id target_id : string)
    (max_depth : Z) :
  DiGraph.wf (call_graph self) →
  DiGraph.has_node (call_graph self) source_id = true →
  DiGraph.has_node (call_graph self) target_id = true →
  source_id ≠ target_id →
  ∃ down p,
    get_downstream_dependencies self source_id max_depth = Return down ∧
    get_call_path self source_id target_id = Return p ∧
    (target_id ∈ down ↔ p ≠ [] ∧ Z.of_nat (length p - 1) ≤ max_depth).
Proof.
  intros Hwf Hs Ht Hne.
  destruct (downstream_of self source_id max_depth Hwf) as (down & Hd & Hdown).
  exists down. unfold get_call_path.
  pose proof (nx_shortest_path_spec (call_graph self) source_id target_id Hwf Hs Ht)
    as Hspec.
  destruct (nx_shortest_path (call_graph self) source_id target_id) as [p|e|];
    [| |done].
  - exists p. split; [done|]. split; [done|].
    destruct Hspec as (Hhd & _ & _ & Hw & Hmin). rewrite Hdown. split.
    + intros (k & Hk1 & Hk & Hwalk). split; [by destruct p|].
      specialize (Hmin k Hwalk). lia.
    + intros [_ Hlen]. exists (length p - 1)%nat. split; [|done].
      destruct (length p - 1)%nat eqn:Hl; [|lia].
      apply walk_0_inv in Hw. done.
  - destruct Hspec as [-> Hno]. exists []. split; [done|]. split; [done|].
    rewrite Hdown. split; [|by intros [? _]].
    intros (k & _ & _ & Hwalk). by destruct (Hno k).
Qed.
End path_and_dependencies.

Lemma call_path_within_depth_witness :
  ∃ down p,
    GraphCodeBERTEmbedder.get_downstream_dependencies
      (chain_store (N := binary64) 1%float) "A" 2 = Return down ∧
    GraphCodeBERTEmbedder.get_call_path (chain_store (N := binary64) 1%float) "A" "D"
    = Return p ∧
    ("D" ∈ down ↔ p ≠ [] ∧ Z.of_nat (length p - 1) ≤ 2).
Proof.
  apply (call_path_within_depth (chain_store (N := binary64) 1%float) "A" "D" 2
           (store_of_wf _) eq_refl eq_refl).
  discriminate.
Defined.
